(** * settlemaker: a shallow embedding of the generation engine

  The development follows the TypeScript sources:
  - [SeededRandom]   the seeded LCG (utils/random.ts);
  - [Pipeline]       [Model]'s constructor and retry loop (generator/model.ts);
  - [GraphSearch]    [Node]/[Graph] and [aStar] (geom/graph.ts);
  - [WallCommon], [CurtainWallOriginal], [CurtainWall]
                     [CurtainWall.buildGates], both revisions
                     (generator/curtain-wall.ts);
  - [Geom]           [Point], [Polygon.cut], [peel], [bisect] and
                     [createAlleys] on an object store (types/point.ts,
                     geom/polygon.ts, geom/cutter.ts, wards/ward.ts);
  - [ArrayUtils]     [shuffle], [minBy], ... (utils/array-utils.ts);
  - [AzgaarInput]    [populationToPatches], [hashString]
                     (input/azgaar-input.ts);
  - [GraphOps]       [Node.unlinkAll], [Graph.remove] (geom/graph.ts);
  - [GeomOps]        more of [Point] and [Polygon]: [prev], [getBounds],
                     [offset], [spliti], [distance], [shrink];
  - [WallTowers]     [CurtainWall.buildTowers];
  - [Topology]       [processPoint], [buildPath] (generator/topology.ts).

  JavaScript numbers are modelled by exact rationals [Q] (integers by [Z]
  where the source only ever holds integers, the product of the
  generator rounded as a number rounds it); the functions of the
  JavaScript [Math] object appear as parameters. *)

From Stdlib Require Import String ZArith QArith Qabs Qround List Bool
  Permutation Lia Lqa.
Import ListNotations.

Set Implicit Arguments.

(* ===================================================================== *)
(** * SeededRandom (utils/random.ts) *)
(* ===================================================================== *)

Module SeededRandom.

Local Open Scope Z_scope.

(** [private static readonly G = 48271; N = 2147483647] *)
Definition G : Z := 48271.
Definition N : Z := 2147483647.

(** The only field of an instance is [seed]; an instance is its state. *)
Definition t := Z.

(** [constructor(seed?: number)].  [now] is the value [Date.now()] would
    return: it is the one ambient input of the whole engine. *)
Definition new (seed : option Z) (now : Z) : t :=
  let s := match seed with
           | Some s => s
           | None => Z.rem now N
           end in
  if s <=? 0 then 1 else s.

Definition getSeed (r : t) : Z := r.

(** An integer as a JavaScript number holds it: the nearest integer with
    a significand of 53 bits, a tie going to the even significand
    (IEEE 754 binary64, round to nearest even).  Integers below [2 ^ 53]
    in magnitude are held exactly.  (Magnitudes of [2 ^ 1024] and more,
    which a number holds as [Infinity], are not modelled.) *)
Definition to_number (x : Z) : Z :=
  let a := Z.abs x in
  if a <? 2 ^ 53 then x
  else
    let e := Z.log2 a - 52 in
    let q := a / 2 ^ e in
    let q' := match 2 * (a mod 2 ^ e) ?= 2 ^ e with
              | Lt => q
              | Gt => q + 1
              | Eq => if Z.even q then q else q + 1
              end in
    Z.sgn x * (q' * 2 ^ e).

(** [next()]: returns the new state, which is also the value drawn.
    The product [this.seed * G] is a number, hence rounded once it
    reaches [2 ^ 53]; [%] is exact on numbers and truncates, hence
    [Z.rem]. *)
Definition next (r : t) : Z * t :=
  let s := Z.rem (to_number (r * G)) N in (s, s).

(** [float()] *)
Definition float (r : t) : Q * t :=
  let (n, r') := next r in ((inject_Z n / inject_Z N)%Q, r').

(** [normal()]: three draws, left to right. *)
Definition normal (r : t) : Q * t :=
  let (a, r1) := float r in
  let (b, r2) := float r1 in
  let (c, r3) := float r2 in
  (((a + b + c) / 3)%Q, r3).

(** [int(min, max)] *)
Definition int (min max : Z) (r : t) : Z * t :=
  let (n, r') := next r in
  (Qfloor (inject_Z min + (inject_Z n / inject_Z N) * inject_Z (max - min))%Q, r').

(** [bool(chance = 0.5)] *)
Definition bool (chance : Q) (r : t) : Datatypes.bool * t :=
  let (f, r') := float r in
  (match (f ?= chance)%Q with Lt => true | _ => false end, r').

(** [fuzzy(f = 1.0)] *)
Definition fuzzy (f : Q) (r : t) : Q * t :=
  if Qeq_bool f 0 then ((1 # 2)%Q, r)
  else let (n, r') := normal r in (((1 - f) / 2 + f * n)%Q, r').

(** The stream of raw draws: the values of the first [n] calls of [next]. *)
Fixpoint stream (n : nat) (r : t) : list Z :=
  match n with
  | O => []
  | S n' => let (v, r') := next r in v :: stream n' r'
  end.

End SeededRandom.

(* ===================================================================== *)
(** * Model: constructor and retry loop (generator/model.ts) *)
(* ===================================================================== *)

Module Pipeline.

Section WithPhases.

(** The object types the pipeline stores in a [Model].  Their contents are
    produced by the six phases, which are parameters here. *)
Variables (Point Patch CurtainWall Topology Street : Type).
Variable origin : Point.          (* [new Point()] *)

(** [GenerationParams] (generator/generation-params.ts) *)
Record GenerationParams := mkParams {
  p_nPatches : Z;
  p_plazaNeeded : bool;
  p_citadelNeeded : bool;
  p_wallsNeeded : bool;
  p_templeNeeded : bool;
  p_shantyNeeded : bool;
  p_capitalNeeded : bool;
  p_seed : Z;
  p_roadEntryPoints : option (list Point);
  p_riverPath : option (list Point);
  p_coastlineGeometry : option (list (list Point))
}.

Definition with_seed (p : GenerationParams) (s : Z) : GenerationParams :=
  mkParams (p_nPatches p) (p_plazaNeeded p) (p_citadelNeeded p)
           (p_wallsNeeded p) (p_templeNeeded p) (p_shantyNeeded p)
           (p_capitalNeeded p) s (p_roadEntryPoints p) (p_riverPath p)
           (p_coastlineGeometry p).

(** The fields of [class Model], in declaration order. *)
Record Model := mkModel {
  rng : SeededRandom.t;
  nPatches : Z;
  plazaNeeded : bool;
  citadelNeeded : bool;
  wallsNeeded : bool;
  params : GenerationParams;
  topology : option Topology;
  patches : list Patch;
  waterbody : list Patch;
  inner : list Patch;
  citadel : option Patch;
  plaza : option Patch;
  center : Point;
  border : option CurtainWall;
  wall : option CurtainWall;
  cityRadius : Q;
  gates : list Point;
  arteries : list Street;
  streets : list Street;
  roads : list Street
}.

(** [constructor(params)] with the field initialisers. *)
Definition Model_new (p : GenerationParams) (now : Z) : Model :=
  {| rng := SeededRandom.new (Some (p_seed p)) now;
     nPatches := p_nPatches p;
     plazaNeeded := p_plazaNeeded p;
     citadelNeeded := p_citadelNeeded p;
     wallsNeeded := p_wallsNeeded p;
     params := p;
     topology := None;
     patches := [];
     waterbody := [];
     inner := [];
     citadel := None;
     plaza := None;
     center := origin;
     border := None;
     wall := None;
     cityRadius := 0;
     gates := [];
     arteries := [];
     streets := [];
     roads := [] |}.

(** The body of the [catch] block of [generate]. *)
Definition reset (m : Model) : Model :=
  {| rng := rng m;
     nPatches := nPatches m;
     plazaNeeded := plazaNeeded m;
     citadelNeeded := citadelNeeded m;
     wallsNeeded := wallsNeeded m;
     params := params m;
     topology := None;
     patches := [];
     waterbody := waterbody m;
     inner := [];
     citadel := None;
     plaza := None;
     center := center m;
     border := None;
     wall := None;
     cityRadius := cityRadius m;
     gates := [];
     arteries := [];
     streets := [];
     roads := [] |}.

(** How a call that may throw ends; the object it ran on is returned next
    to it, since a throwing method leaves its partial writes behind. *)
Inductive completion :=
| Returned
| Threw (msg : string).

(** The six phases, each run on [this].  Their geometry is floating-point
    code; each is a function of the model it finds (which holds the
    generator state) and of nothing else. *)
Variables (buildPatches optimizeJunctions buildWalls buildStreets
           createWards buildGeometry : Model -> completion * Model).

Definition andThen (c : completion * Model)
           (k : Model -> completion * Model) : completion * Model :=
  match c with
  | (Returned, m) => k m
  | (Threw e, m) => (Threw e, m)
  end.

Definition set_streets_roads (m : Model) : Model :=
  {| rng := rng m; nPatches := nPatches m; plazaNeeded := plazaNeeded m;
     citadelNeeded := citadelNeeded m; wallsNeeded := wallsNeeded m;
     params := params m; topology := topology m; patches := patches m;
     waterbody := waterbody m; inner := inner m; citadel := citadel m;
     plaza := plaza m; center := center m; border := border m;
     wall := wall m; cityRadius := cityRadius m; gates := gates m;
     arteries := arteries m; streets := []; roads := [] |}.

(** [private build(): void] *)
Definition build (m : Model) : completion * Model :=
  andThen (buildPatches (set_streets_roads m)) (fun m =>
  andThen (optimizeJunctions m) (fun m =>
  andThen (buildWalls m) (fun m =>
  andThen (buildStreets m) (fun m =>
  andThen (createWards m) buildGeometry)))).

(** [const MAX_ATTEMPTS = 20] *)
Definition MAX_ATTEMPTS : nat := 20.

Definition failure_message : string := "Failed to generate after 20 attempts".

(** The [for] loop of [generate] with [left] iterations to go. *)
Fixpoint generate_loop (left : nat) (m : Model) : completion * Model :=
  match left with
  | O => (Threw failure_message, m)
  | S left' =>
      match build m with
      | (Returned, m') => (Returned, m')
      | (Threw _, m') => generate_loop left' (reset m')
      end
  end.

(** [generate(): Model] *)
Definition generate (m : Model) : completion * Model :=
  generate_loop MAX_ATTEMPTS m.

(** The model as attempt number [k] finds it, when every earlier attempt
    threw. *)
Fixpoint attempt (k : nat) (m : Model) : Model :=
  match k with
  | O => m
  | S k' => reset (snd (build (attempt k' m)))
  end.

Definition threw (c : completion * Model) : Prop :=
  exists e, fst c = Threw e.

Definition returned (c : completion * Model) : Prop := fst c = Returned.

(** Every field the [catch] block empties. *)
Definition is_reset (m : Model) : Prop :=
  patches m = [] /\ inner m = [] /\ citadel m = None /\ plaza m = None /\
  border m = None /\ wall m = None /\ gates m = [] /\ streets m = [] /\
  roads m = [] /\ arteries m = [] /\ topology m = None.

(** Replace the seed stored in [params], leaving the generator alone. *)
Definition restamp (s : Z) (m : Model) : Model :=
  {| rng := rng m; nPatches := nPatches m; plazaNeeded := plazaNeeded m;
     citadelNeeded := citadelNeeded m; wallsNeeded := wallsNeeded m;
     params := with_seed (params m) s; topology := topology m;
     patches := patches m; waterbody := waterbody m; inner := inner m;
     citadel := citadel m; plaza := plaza m; center := center m;
     border := border m; wall := wall m; cityRadius := cityRadius m;
     gates := gates m; arteries := arteries m; streets := streets m;
     roads := roads m |}.

End WithPhases.

End Pipeline.

(* ===================================================================== *)
(** * Graph and A* search (geom/graph.ts) *)
(* ===================================================================== *)

Module GraphSearch.

Local Open Scope nat_scope.

(** A [Node] object is known by its identity: its index in the store of
    allocated nodes. *)
Definition Node := nat.

(** A JavaScript [Map] keyed by nodes: entries in insertion order;
    [set] on a present key overwrites in place. *)
Definition NodeMap (V : Type) := list (Node * V).

Fixpoint map_get {V} (k : Node) (m : NodeMap V) : option V :=
  match m with
  | [] => None
  | (k', v) :: m' => if Nat.eqb k k' then Some v else map_get k m'
  end.

Fixpoint map_set {V} (k : Node) (v : V) (m : NodeMap V) : NodeMap V :=
  match m with
  | [] => [(k, v)]
  | (k', v') :: m' =>
      if Nat.eqb k k' then (k', v) :: m' else (k', v') :: map_set k v m'
  end.

Fixpoint map_delete {V} (k : Node) (m : NodeMap V) : NodeMap V :=
  match m with
  | [] => []
  | (k', v') :: m' =>
      if Nat.eqb k k' then m' else (k', v') :: map_delete k m'
  end.

(** [Array.prototype.includes] on an array of nodes. *)
Definition includes (l : list Node) (x : Node) : bool :=
  existsb (Nat.eqb x) l.

(** The store of node objects: the [links] map of each allocated node. *)
Definition Store := list (NodeMap Q).

Definition links (h : Store) (n : Node) : NodeMap Q := nth n h [].

Fixpoint set_links (h : Store) (n : Node) (l : NodeMap Q) : Store :=
  match h, n with
  | [], _ => []
  | _ :: h', O => l :: h'
  | x :: h', S n' => x :: set_links h' n' l
  end.

(** [Node.link(node, price = 1, symmetrical = true)] *)
Definition link (this node : Node) (price : Q) (symmetrical : bool)
           (h : Store) : Store :=
  let h1 := set_links h this (map_set node price (links h this)) in
  if symmetrical
  then set_links h1 node (map_set this price (links h1 node))
  else h1.

(** [Node.unlink(node, symmetrical = true)] *)
Definition unlink (this node : Node) (symmetrical : bool)
           (h : Store) : Store :=
  let h1 := set_links h this (map_delete node (links h this)) in
  if symmetrical
  then set_links h1 node (map_delete this (links h1 node))
  else h1.

(** [class Graph]: the [nodes] array. *)
Record Graph := mkGraph { nodes : list Node }.

(** [Graph.add()] without argument: allocates a node. *)
Definition add (g : Graph) (h : Store) : Node * Graph * Store :=
  let n := length h in
  (n, mkGraph (nodes g ++ [n]), h ++ [[]]).

(** The local variables of [aStar]. *)
Record Search := mkSearch {
  closedSet : list Node;
  openSet : list Node;
  cameFrom : NodeMap Node;
  gScore : NodeMap Q
}.

Inductive result :=
| OutOfFuel                    (* the model's step budget ran out *)
| Null                         (* [return null] *)
| Path (path : list Node).     (* [return this.buildPath(...)] *)

(** [buildPath(cameFrom, current)]: the goal first, then its chain of
    predecessors. *)
Fixpoint buildPath (fuel : nat) (cf : NodeMap Node) (current : Node)
  : option (list Node) :=
  match map_get current cf with
  | None => Some [current]
  | Some prev =>
      match fuel with
      | O => None
      | S fuel' =>
          match buildPath fuel' cf prev with
          | Some p => Some (current :: p)
          | None => None
          end
      end
  end.

(** The [for (const [neighbour, cost] of current.links)] loop. *)
Fixpoint relax (current : Node) (curScore : Q) (ls : NodeMap Q)
         (st : Search) : Search :=
  match ls with
  | [] => st
  | (neighbour, cost) :: rest =>
      if includes (closedSet st) neighbour
      then relax current curScore rest st
      else
        let score := (curScore + cost)%Q in
        if negb (includes (openSet st) neighbour)
        then relax current curScore rest
               (mkSearch (closedSet st) (openSet st ++ [neighbour])
                         (map_set neighbour current (cameFrom st))
                         (map_set neighbour score (gScore st)))
        else
          (* [score >= (gScore.get(neighbour) ?? Infinity)] *)
          if match map_get neighbour (gScore st) with
             | Some g => Qle_bool g score
             | None => false
             end
          then relax current curScore rest st
          else relax current curScore rest
                 (mkSearch (closedSet st) (openSet st)
                           (map_set neighbour current (cameFrom st))
                           (map_set neighbour score (gScore st)))
  end.

(** The [while (openSet.length > 0)] loop. *)
Fixpoint aStar_loop (fuel : nat) (h : Store) (goal : Node) (st : Search)
  : result :=
  match fuel with
  | O => OutOfFuel
  | S fuel' =>
      match openSet st with
      | [] => Null
      | current :: rest =>
          if Nat.eqb current goal
          then match buildPath (length (closedSet st)) (cameFrom st) current with
               | Some p => Path p
               | None => OutOfFuel
               end
          else
            let curScore := match map_get current (gScore st) with
                            | Some g => g
                            | None => 0%Q
                            end in
            aStar_loop fuel' h goal
              (relax current curScore (links h current)
                 (mkSearch (closedSet st ++ [current]) rest
                           (cameFrom st) (gScore st)))
      end
  end.

(** Every node enters the open set at most once, and only as the target
    of a link, so this many iterations are enough (see
    [GraphSearchFacts.aStar_returns]). *)
Definition targets (h : Store) : list Node :=
  flat_map (fun l => map fst l) h.

Definition budget (h : Store) : nat := length (targets h) + 2.

(** [Graph.aStar(start, goal, exclude?)] *)
Definition aStar (h : Store) (start goal : Node)
           (exclude : option (list Node)) : result :=
  aStar_loop (budget h) h goal
    (mkSearch (match exclude with Some e => e | None => [] end)
              [start] [] [(start, 0%Q)]).

(** A path from [start]: a chain of links none of whose nodes after
    [start] is on the exclusion list ([start] itself is expanded whether
    listed or not). *)
Inductive reach (h : Store) (exclude : list Node) (start : Node)
  : Node -> Prop :=
| reach_start : reach h exclude start start
| reach_step x y :
    reach h exclude start x ->
    In y (map fst (links h x)) ->
    ~ In y exclude ->
    reach h exclude start y.

(** The graph of tests/graph.test.ts: four nodes, then
    [a.link(b, 1); a.link(c, 10); b.link(d, 1); c.link(d, 1)]. *)
Definition test_a : Node := 0.
Definition test_b : Node := 1.
Definition test_c : Node := 2.
Definition test_d : Node := 3.

Definition test_store : Store :=
  let '(_, g, h) := add (mkGraph []) [] in
  let '(_, g, h) := add g h in
  let '(_, g, h) := add g h in
  let '(_, g, h) := add g h in
  link test_c test_d 1%Q true
    (link test_b test_d 1%Q true
       (link test_a test_c 10%Q true
          (link test_a test_b 1%Q true h))).

End GraphSearch.

(* ===================================================================== *)
(** * CurtainWall.buildGates (generator/curtain-wall.ts) *)
(* ===================================================================== *)

(** Two revisions of the file are in the repository: the port of the
  original, which selects gates in a [do ... while] loop, and the
  revision that first places gates at the bearings of [roadEntryPoints]
  and then fills up in a [while] loop.  [CurtainWallOriginal] is the
  first, [CurtainWall] the second. *)

Module WallCommon.

Local Open Scope nat_scope.

(** A [Point] object is known by its identity. *)
Definition Point := nat.

(** A [Polygon], as far as gate selection reads it: its [vertices]. *)
Definition Polygon := list Point.

(** [Array.prototype.includes] / [Polygon.contains] (both by identity). *)
Definition includes (l : list Point) (v : Point) : bool :=
  existsb (Nat.eqb v) l.

Definition contains (p : Polygon) (v : Point) : bool := includes p v.

(** [a.splice(start, count)] (the array left behind), [a.pop()],
    [a.shift()]. *)
Definition splice {A} (start count : nat) (a : list A) : list A :=
  firstn start a ++ skipn (start + count) a.

Definition pop {A} (a : list A) : list A := removelast a.

Definition shift {A} (a : list A) : list A := tl a.

(** How [buildGates] ends. *)
Inductive outcome (A : Type) :=
| Built (a : A)
| BadWalledAreaShape           (* [throw new Error('Bad walled area shape!')] *)
| OutOfFuel.                   (* the model's step budget ran out *)

Arguments Built {A} a.
Arguments BadWalledAreaShape {A}.
Arguments OutOfFuel {A}.

(** The entrance candidates: the first statement of [buildGates].
    [patches] holds the shapes of [this.patches]. *)
Definition entrance_candidates (patches : list Polygon) (shape : Polygon)
           (reserved : list Point) : list Point :=
  if 1 <? length patches
  then filter (fun v =>
                 negb (includes reserved v) &&
                 (1 <? length (filter (fun p => contains p v) patches)))
              shape
  else filter (fun v => negb (includes reserved v)) shape.

Section WithWorld.

(** Everything else gate selection touches: [model.patches] and the
    objects behind it.  The [if (real) { ... }] block of a selection
    splits the outer patch opposite the gate ([splitOuter]); the last loop
    of [buildGates] moves each gate ([smoothGate]).  Neither reads or
    writes [entrances], [this.gates] or the generator. *)
Variable World : Type.
Variable splitOuter : Point -> World -> World.
Variable smoothGate : Point -> World -> World.

(** The variables the selection loops update.  An element of [gates] is
    what [entrances[index]] evaluated to: [None] is [undefined]. *)
Record Selection := mkSelection {
  gates : list (option Point);
  entrances : list Point;
  world : World;
  rng : SeededRandom.t
}.

(** The statements that both revisions run for a chosen [index]: push
    the gate, split the outer ward of a real wall, and remove the
    neighbouring entrances. *)
Definition selectGate (real : bool) (index : nat) (s : Selection)
  : Selection :=
  let gate := nth_error (entrances s) index in
  let w := match gate with
           | Some g => if real then splitOuter g (world s) else world s
           | None => world s
           end in
  let e := entrances s in
  let e' :=
    if Nat.eqb index 0 then pop (splice 0 2 e)
    else if Nat.eqb index (length e - 1) then shift (splice (index - 1) 2 e)
    else splice (index - 1) 3 e in
  mkSelection (gates s ++ [gate]) e' w (rng s).

(** [const index = rng.int(0, entrances.length)] followed by the
    selection. *)
Definition selectRandom (real : bool) (s : Selection) : Selection :=
  let (index, r) := SeededRandom.int 0 (Z.of_nat (length (entrances s))) (rng s) in
  selectGate real (Z.to_nat index)
             (mkSelection (gates s) (entrances s) (world s) r).

(** The last loop: [for (const gate of this.gates) gate.set(...)]. *)
Definition smoothGates (gs : list (option Point)) (w : World) : World :=
  fold_left (fun w g => match g with
                        | Some g => smoothGate g w
                        | None => w
                        end) gs w.

(** The tail of [buildGates]: the check on [this.gates] and the
    smoothing. *)
Definition finish (real : bool) (s : Selection) : outcome Selection :=
  match gates s with
  | [] => BadWalledAreaShape
  | _ :: _ =>
      Built (mkSelection (gates s) (entrances s)
                         (if real then smoothGates (gates s) (world s)
                          else world s)
                         (rng s))
  end.

End WithWorld.

End WallCommon.

Module CurtainWallOriginal.

Import WallCommon.
Local Open Scope nat_scope.

Section WithWorld.

Variable World : Type.
Variable splitOuter : Point -> World -> World.
Variable smoothGate : Point -> World -> World.

(** [do { ... } while (entrances.length >= 3)] *)
Fixpoint selectLoop (fuel : nat) (real : bool) (s : Selection World)
  : option (Selection World) :=
  match fuel with
  | O => None
  | S fuel' =>
      let s' := selectRandom splitOuter real s in
      if 3 <=? length (entrances s')
      then selectLoop fuel' real s'
      else Some s'
  end.

(** [buildGates(real, model, reserved, rng)] *)
Definition buildGates (real : bool) (patches : list Polygon)
           (shape : Polygon) (reserved : list Point)
           (w : World) (r : SeededRandom.t) : outcome (Selection World) :=
  let entrances := entrance_candidates patches shape reserved in
  match entrances with
  | [] => BadWalledAreaShape
  | _ :: _ =>
      match selectLoop (length entrances) real
                       (mkSelection [] entrances w r) with
      | None => OutOfFuel
      | Some s => finish smoothGate real s
      end
  end.

End WithWorld.

End CurtainWallOriginal.

Module CurtainWall.

Import WallCommon.
Local Open Scope nat_scope.

Section WithWorld.

Variable World : Type.
Variable splitOuter : Point -> World -> World.
Variable smoothGate : Point -> World -> World.

(** [Math.atan2], [Math.PI] and the coordinates of a point while gates
    are being selected (no point moves before the last loop). *)
Variable atan2 : Q -> Q -> Q.
Variable PI : Q.
Variable coord : Point -> Q * Q.

(** [.sort((a, b) => a.angle - b.angle)]: a stable ascending sort. *)
Fixpoint insert_angle (a : Q * nat) (l : list (Q * nat)) : list (Q * nat) :=
  match l with
  | [] => [a]
  | b :: l' => if Qle_bool (fst b) (fst a)
               then b :: insert_angle a l'
               else a :: l
  end.

Definition sort_angles (l : list (Q * nat)) : list (Q * nat) :=
  fold_left (fun acc a => insert_angle a acc) l [].

(** [roadEntryPoints.map((p, i) => ({ angle: Math.atan2(p.y, p.x), index: i }))] *)
Fixpoint entry_angles (i : nat) (ps : list (Q * Q)) : list (Q * nat) :=
  match ps with
  | [] => []
  | (x, y) :: ps' => (atan2 y x, i) :: entry_angles (S i) ps'
  end.

(** The inner [for] loop: the index of the entrance whose bearing is
    nearest to [targetAngle]; [bestDist = None] is [Infinity]. *)
Fixpoint nearest (targetAngle : Q) (es : list Point) (i : nat)
         (bestIdx : nat) (bestDist : option Q) : nat :=
  match es with
  | [] => bestIdx
  | v :: es' =>
      let vAngle := atan2 (snd (coord v)) (fst (coord v)) in
      let diff0 := Qabs (vAngle - targetAngle) in
      let diff := if Qlt_le_dec PI diff0 then (2 * PI - diff0)%Q else diff0 in
      let better := match bestDist with
                    | None => true
                    | Some d => if Qlt_le_dec diff d then true else false
                    end in
      if better
      then nearest targetAngle es' (S i) i (Some diff)
      else nearest targetAngle es' (S i) bestIdx bestDist
  end.

(** [for (const { angle: targetAngle } of entryAngles) { ... }] with its
    [break]. *)
Fixpoint placeAtBearings (real : bool) (angles : list (Q * nat))
         (s : Selection World) : Selection World :=
  match angles with
  | [] => s
  | (targetAngle, _) :: rest =>
      if length (entrances s) <? 1 then s
      else
        let bestIdx := nearest targetAngle (entrances s) 0 0 None in
        placeAtBearings real rest (selectGate splitOuter real bestIdx s)
  end.

(** [while (entrances.length >= 3) { ... }] *)
Fixpoint fillRandom (fuel : nat) (real : bool) (s : Selection World)
  : option (Selection World) :=
  if 3 <=? length (entrances s)
  then match fuel with
       | O => None
       | S fuel' => fillRandom fuel' real (selectRandom splitOuter real s)
       end
  else Some s.

(** [buildGates(real, model, reserved, rng, roadEntryPoints?)] *)
Definition buildGates (real : bool) (patches : list Polygon)
           (shape : Polygon) (reserved : list Point)
           (w : World) (r : SeededRandom.t)
           (roadEntryPoints : option (list (Q * Q)))
  : outcome (Selection World) :=
  let entrances := entrance_candidates patches shape reserved in
  match entrances with
  | [] => BadWalledAreaShape
  | _ :: _ =>
      let s0 := mkSelection [] entrances w r in
      let s1 := match roadEntryPoints with
                | Some (p :: ps) =>
                    placeAtBearings real
                      (sort_angles (entry_angles 0 (p :: ps))) s0
                | _ => s0
                end in
      match fillRandom (length entrances) real s1 with
      | None => OutOfFuel
      | Some s => finish smoothGate real s
      end
  end.

End WithWorld.

End CurtainWall.

(* ===================================================================== *)
(** * Points and polygons on an object store
      (types/point.ts, geom/geom-utils.ts, geom/polygon.ts, geom/cutter.ts) *)
(* ===================================================================== *)

Module Geom.

Local Open Scope Q_scope.

(** The functions of the JavaScript [Math] object that the geometry calls. *)
Record MathLib := mkMath {
  Math_sqrt : Q -> Q;
  Math_cos : Q -> Q;
  Math_sin : Q -> Q;
  Math_pow : Q -> Q -> Q;
  Math_PI : Q
}.

(** A [Point] or [Polygon] value is a reference: the index of the object
    in the store.  Comparison by [===] is comparison of references. *)
Definition Point := nat.
Definition Polygon := nat.

(** The objects: the [x], [y] of every [Point], the [vertices] array of
    every [Polygon], and the state of the [SeededRandom] instance. *)
Record Store := mkStore {
  points : list (Q * Q);
  polygons : list (list Point);
  seed : SeededRandom.t
}.

Inductive outcome (A : Type) :=
| Val (a : A) (s : Store)
| TypeError                (* a property of [undefined] or [null] was read *)
| OutOfFuel.               (* the model's recursion budget ran out *)

Arguments Val {A} a s.
Arguments TypeError {A}.
Arguments OutOfFuel {A}.

Definition M (A : Type) := Store -> outcome A.

Definition ret {A} (a : A) : M A := fun s => Val a s.

Definition bind {A B} (m : M A) (k : A -> M B) : M B :=
  fun s => match m s with
           | Val a s' => k a s'
           | TypeError => TypeError
           | OutOfFuel => OutOfFuel
           end.

Notation "x <- m ;; k" := (bind m (fun x => k))
  (at level 61, m at next level, right associativity).
Notation "m ;;; k" := (bind m (fun _ => k))
  (at level 61, right associativity).

(** Use of a value that may be [undefined]. *)
Definition the {A} (o : option A) : M A :=
  fun s => match o with Some a => Val a s | None => TypeError end.

Fixpoint set_nth {A} (n : nat) (a : A) (l : list A) : list A :=
  match l, n with
  | [], _ => []
  | _ :: l', O => a :: l'
  | x :: l', S n' => x :: set_nth n' a l'
  end.

(** ** Object primitives *)

(** [new Point(x, y)] *)
Definition Point_new (x y : Q) : M Point :=
  fun s => Val (length (points s))
               (mkStore (points s ++ [(x, y)]) (polygons s) (seed s)).

(** [p.x], [p.y] *)
Definition get_x (p : Point) : M Q :=
  fun s => match nth_error (points s) p with
           | Some c => Val (fst c) s
           | None => TypeError
           end.

Definition get_y (p : Point) : M Q :=
  fun s => match nth_error (points s) p with
           | Some c => Val (snd c) s
           | None => TypeError
           end.

(** [p.x = x; p.y = y] *)
Definition put_xy (p : Point) (x y : Q) : M unit :=
  fun s => match nth_error (points s) p with
           | Some _ => Val tt (mkStore (set_nth p (x, y) (points s))
                                       (polygons s) (seed s))
           | None => TypeError
           end.

(** [new Polygon(vertices)]: the constructor copies the array. *)
Definition Polygon_new (vs : list Point) : M Polygon :=
  fun s => Val (length (polygons s))
               (mkStore (points s) (polygons s ++ [vs]) (seed s)).

(** [P.vertices], read as a whole, and written as a whole. *)
Definition get_vertices (P : Polygon) : M (list Point) :=
  fun s => match nth_error (polygons s) P with
           | Some vs => Val vs s
           | None => TypeError
           end.

Definition put_vertices (P : Polygon) (vs : list Point) : M unit :=
  fun s => match nth_error (polygons s) P with
           | Some _ => Val tt (mkStore (points s) (set_nth P vs (polygons s))
                                       (seed s))
           | None => TypeError
           end.

(** [rng.float()], [rng.bool(chance)] on the instance in the store. *)
Definition rng_float : M Q :=
  fun s => let (f, r) := SeededRandom.float (seed s) in
           Val f (mkStore (points s) (polygons s) r).

Definition rng_bool (chance : Q) : M bool :=
  fun s => let (b, r) := SeededRandom.bool chance (seed s) in
           Val b (mkStore (points s) (polygons s) r).

(** ** Arrays *)

(** [a.slice(from, to)] and [a.indexOf(v)]. *)
Definition slice {A} (from to : nat) (l : list A) : list A :=
  firstn (to - from) (skipn from l).

Fixpoint index_from (v : Point) (l : list Point) (i : Z) : Z :=
  match l with
  | [] => (-1)%Z
  | x :: l' => if Nat.eqb x v then i else index_from v l' (i + 1)%Z
  end.

Definition array_indexOf (l : list Point) (v : Point) : Z := index_from v l 0%Z.

(** [a[i]] for a number [i]: [undefined] out of range. *)
Definition array_get {A} (l : list A) (i : Z) : option A :=
  if (i <? 0)%Z then None else nth_error l (Z.to_nat i).

Section WithMath.

Variable Math : MathLib.

(** ** Point (types/point.ts) *)

Definition clone (this : Point) : M Point :=
  x <- get_x this ;; y <- get_y this ;; Point_new x y.

Definition add (this p : Point) : M Point :=
  x <- get_x this ;; px <- get_x p ;;
  y <- get_y this ;; py <- get_y p ;;
  Point_new (x + px) (y + py).

Definition subtract (this p : Point) : M Point :=
  x <- get_x this ;; px <- get_x p ;;
  y <- get_y this ;; py <- get_y p ;;
  Point_new (x - px) (y - py).

Definition scale (this : Point) (f : Q) : M Point :=
  x <- get_x this ;; y <- get_y this ;; Point_new (x * f) (y * f).

(** [get length()] *)
Definition Point_length (this : Point) : M Q :=
  x <- get_x this ;; y <- get_y this ;;
  ret (Math_sqrt Math (x * x + y * y)).

Definition normalize (this : Point) (len : Q) : M unit :=
  d <- Point_length this ;;
  if Qlt_le_dec 0 d
  then x <- get_x this ;; y <- get_y this ;;
       put_xy this ((x / d) * len) ((y / d) * len)
  else ret tt.

Definition norm (this : Point) (len : Q) : M Point :=
  p <- clone this ;; normalize p len ;;; ret p.

Definition rotate90 (this : Point) : M Point :=
  x <- get_x this ;; y <- get_y this ;; Point_new (- y) x.

(** [static distance(a, b)] *)
Definition distance (a b : Point) : M Q :=
  ax <- get_x a ;; bx <- get_x b ;;
  ay <- get_y a ;; by_ <- get_y b ;;
  let dx := ax - bx in
  let dy := ay - by_ in
  ret (Math_sqrt Math (dx * dx + dy * dy)).

(** ** geom-utils.ts *)

(** [intersectLines]: the point [(t1, t2)] of the two parameters, or
    [null]. *)
Definition intersectLines (x1 y1 dx1 dy1 x2 y2 dx2 dy2 : Q)
  : M (option Point) :=
  let d := dx1 * dy2 - dy1 * dx2 in
  if Qeq_bool d 0 then ret None
  else
    let t2 := (dy1 * (x2 - x1) - dx1 * (y2 - y1)) / d in
    let t1 := if negb (Qeq_bool dx1 0)
              then (x2 - x1 + dx2 * t2) / dx1
              else (y2 - y1 + dy2 * t2) / dy1 in
    t <- Point_new t1 t2 ;; ret (Some t).

(** [interpolate(p1, p2, ratio)] *)
Definition interpolate (p1 p2 : Point) (ratio : Q) : M Point :=
  d <- subtract p2 p1 ;;
  x <- get_x p1 ;; dx <- get_x d ;;
  y <- get_y p1 ;; dy <- get_y d ;;
  Point_new (x + dx * ratio) (y + dy * ratio).

Definition cross (x1 y1 x2 y2 : Q) : Q := x1 * y2 - y1 * x2.

(** ** Polygon (geom/polygon.ts) *)

(** [get length()] *)
Definition Polygon_length (this : Polygon) : M nat :=
  vs <- get_vertices this ;; ret (length vs).

(** [this.vertices[i]] *)
Definition vertex (this : Polygon) (i : Z) : M (option Point) :=
  vs <- get_vertices this ;; ret (array_get vs i).

(** The [for] loop of [square], from index [i] on. *)
Fixpoint square_loop (v2 : Point) (rest : list Point) (s : Q) : M Q :=
  match rest with
  | [] => ret s
  | v :: rest' =>
      let v1 := v2 in
      let v2 := v in
      x1 <- get_x v1 ;; y2 <- get_y v2 ;;
      x2 <- get_x v2 ;; y1 <- get_y v1 ;;
      square_loop v2 rest' (s + (x1 * y2 - x2 * y1))
  end.

(** [get square()]: the signed area. *)
Definition square (this : Polygon) : M Q :=
  verts <- get_vertices this ;;
  let len := length verts in
  if (len <? 3)%nat then ret 0
  else
    v1 <- the (nth_error verts (len - 1)) ;;
    v2 <- the (nth_error verts 0) ;;
    x1 <- get_x v1 ;; y2 <- get_y v2 ;;
    x2 <- get_x v2 ;; y1 <- get_y v1 ;;
    s <- square_loop v2 (tl verts) (x1 * y2 - x2 * y1) ;;
    ret (s * (1 # 2)).

(** [forEdge(f)], the callback threading the variables it assigns. *)
Fixpoint forEdge_loop {A} (this : Polygon) (len : nat) (ixs : list nat)
         (f : Point -> Point -> A -> M A) (acc : A) : M A :=
  match ixs with
  | [] => ret acc
  | i :: ixs' =>
      v0 <- vertex this (Z.of_nat i) ;;
      v1 <- vertex this (Z.of_nat ((i + 1) mod len)) ;;
      v0 <- the v0 ;; v1 <- the v1 ;;
      acc' <- f v0 v1 acc ;;
      forEdge_loop this len ixs' f acc'
  end.

Definition forEdge {A} (this : Polygon)
           (f : Point -> Point -> A -> M A) (acc : A) : M A :=
  len <- Polygon_length this ;;
  forEdge_loop this len (seq 0 len) f acc.

(** [next(a)] *)
Definition next (this : Polygon) (a : Point) : M (option Point) :=
  vs <- get_vertices this ;;
  match length vs with
  | O => ret None          (* the index is [NaN] *)
  | S _ => ret (array_get vs ((array_indexOf vs a + 1) mod Z.of_nat (length vs))%Z)
  end.

(** [vectori(i)] *)
Definition vectori (this : Polygon) (i : nat) : M Point :=
  vs <- get_vertices this ;;
  a <- the (nth_error vs (if Nat.eqb i (length vs - 1) then 0%nat else (i + 1)%nat)) ;;
  b <- the (nth_error vs i) ;;
  subtract a b.

(** [half.vertices.unshift(v)], [half.vertices.push(v)] *)
Definition unshift (this : Polygon) (v : Point) : M unit :=
  vs <- get_vertices this ;; put_vertices this (v :: vs).

Definition push (this : Polygon) (v : Point) : M unit :=
  vs <- get_vertices this ;; put_vertices this (vs ++ [v]).

(** The variables of the scanning loop of [cut]. *)
Record CutScan := mkScan {
  edge1 : nat; ratio1 : Q;
  edge2 : nat; ratio2 : Q;
  cnt : nat
}.

(** The body of the [if (t !== null && t.y >= 0 && t.y <= 1)]. *)
Definition record_crossing (i : nat) (tx : Q) (st : CutScan) : CutScan :=
  match cnt st with
  | O => mkScan i tx (edge2 st) (ratio2 st) 1
  | S O => mkScan (edge1 st) (ratio1 st) i tx 2
  | S (S n) => mkScan (edge1 st) (ratio1 st) (edge2 st) (ratio2 st) (S (S (S n)))
  end.

(** The first [for] loop of [cut]. *)
Fixpoint cut_scan (this : Polygon) (x1 y1 dx1 dy1 : Q) (len : nat)
         (ixs : list nat) (st : CutScan) : M CutScan :=
  match ixs with
  | [] => ret st
  | i :: ixs' =>
      v0 <- vertex this (Z.of_nat i) ;;
      v1 <- vertex this (Z.of_nat ((i + 1) mod len)) ;;
      v0 <- the v0 ;;
      x2 <- get_x v0 ;; y2 <- get_y v0 ;;
      v1 <- the v1 ;;
      v1x <- get_x v1 ;; v1y <- get_y v1 ;;
      let dx2 := v1x - x2 in
      let dy2 := v1y - y2 in
      t <- intersectLines x1 y1 dx1 dy1 x2 y2 dx2 dy2 ;;
      st' <- match t with
             | None => ret st
             | Some t =>
                 ty <- get_y t ;;
                 if Qle_bool 0 ty && Qle_bool ty 1
                 then tx <- get_x t ;; ret (record_crossing i tx st)
                 else ret st
             end ;;
      cut_scan this x1 y1 dx1 dy1 len ixs' st'
  end.

(** [const half = new Polygon(vs); half.vertices.unshift(first);
    half.vertices.push(last);] *)
Definition make_half (vs : list Point) (first last : Point) : M Polygon :=
  half <- Polygon_new vs ;;
  unshift half first ;;;
  push half last ;;;
  ret half.

(** [peel(v1, d)], given the [cut] it calls. *)
Definition peel_with (cut : Polygon -> Point -> Point -> Q -> M (list Polygon))
           (this : Polygon) (v1 : Point) (d : Q) : M Polygon :=
  vs <- get_vertices this ;;
  let i1 := array_indexOf vs v1 in
  let i2 := if (i1 =? Z.of_nat (length vs) - 1)%Z then 0%Z else (i1 + 1)%Z in
  v2 <- the (array_get vs i2) ;;
  v <- subtract v2 v1 ;;
  r <- rotate90 v ;;
  n <- norm r d ;;
  a <- add v1 n ;;
  b <- add v2 n ;;
  halves <- cut this a b 0 ;;
  the (nth_error halves 0).

(** The body of [cut(p1, p2, gap = 0)], given the [cut] that [peel]
    calls. *)
Definition cut_body (rec : Polygon -> Point -> Point -> Q -> M (list Polygon))
           (this : Polygon) (p1 p2 : Point) (gap : Q) : M (list Polygon) :=
  x1 <- get_x p1 ;;
  y1 <- get_y p1 ;;
  p2x <- get_x p2 ;;
  p2y <- get_y p2 ;;
  let dx1 := p2x - x1 in
  let dy1 := p2y - y1 in
  len <- Polygon_length this ;;
  sc <- cut_scan this x1 y1 dx1 dy1 len (seq 0 len) (mkScan 0 0 0 0 0) ;;
  if Nat.eqb (cnt sc) 2
  then
    dir <- subtract p2 p1 ;;
    d1 <- scale dir (ratio1 sc) ;;
    point1 <- add p1 d1 ;;
    d2 <- scale dir (ratio2 sc) ;;
    point2 <- add p1 d2 ;;
    vs <- get_vertices this ;;
    half1 <- make_half (slice (edge1 sc + 1) (edge2 sc + 1) vs) point1 point2 ;;
    vs <- get_vertices this ;;
    half2 <- make_half (skipn (edge2 sc + 1) vs ++ slice 0 (edge1 sc + 1) vs)
                       point2 point1 ;;
    hs <- (if Qlt_le_dec 0 gap
           then h1 <- peel_with rec half1 point2 (gap / 2) ;;
                h2 <- peel_with rec half2 point1 (gap / 2) ;;
                ret (h1, h2)
           else ret (half1, half2)) ;;
    v <- vectori this (edge1 sc) ;;
    vx <- get_x v ;; vy <- get_y v ;;
    if Qlt_le_dec 0 (cross dx1 dy1 vx vy)
    then ret [fst hs; snd hs]
    else ret [snd hs; fst hs]
  else
    vs <- get_vertices this ;;
    copy <- Polygon_new vs ;;
    ret [copy].

(** [cut] calls [peel], which calls [cut] with a zero gap, which calls
    nothing: the recursion is two calls deep, and [fuel] counts the
    calls. *)
Fixpoint cut_fuel (fuel : nat) (this : Polygon) (p1 p2 : Point) (gap : Q)
  : M (list Polygon) :=
  match fuel with
  | O => fun _ => OutOfFuel
  | S fuel' => cut_body (cut_fuel fuel') this p1 p2 gap
  end.

Definition cut (this : Polygon) (p1 p2 : Point) (gap : Q) : M (list Polygon) :=
  cut_fuel 2 this p1 p2 gap.

Definition peel (this : Polygon) (v1 : Point) (d : Q) : M Polygon :=
  peel_with (cut_fuel 1) this v1 d.

(** ** cutter.ts *)

(** [bisect(poly, vertex, ratio = 0.5, angle = 0, gap = 0)] *)
Definition bisect (poly : Polygon) (vertex : Point) (ratio angle gap : Q)
  : M (list Polygon) :=
  nxt <- next poly vertex ;;
  nxt <- the nxt ;;
  p1 <- interpolate vertex nxt ratio ;;
  d <- subtract nxt vertex ;;
  let cosB := Math_cos Math angle in
  let sinB := Math_sin Math angle in
  dx <- get_x d ;; dy <- get_y d ;;
  let vx := dx * cosB - dy * sinB in
  let vy := dy * cosB + dx * sinB in
  p1x <- get_x p1 ;; p1y <- get_y p1 ;;
  p2 <- Point_new (p1x - vy) (p1y + vx) ;;
  cut poly p1 p2 gap.

(** ** createAlleys (wards/ward.ts) *)

Definition ALLEY : Q := 6 # 10.

(** The callback of the search for the longest edge: the variables [v]
    and [maxLength]. *)
Definition longer (p0 p1 : Point) (acc : option Point * Q)
  : M (option Point * Q) :=
  len <- distance p0 p1 ;;
  if Qlt_le_dec (snd acc) len then ret (Some p0, len) else ret acc.

(** The [for (const half of halves)] loop, given the recursive call. *)
Fixpoint alleys_over (rec : Polygon -> bool -> M (list Polygon))
         (minSq sizeChaos emptyProb : Q)
         (halves : list Polygon) (buildings : list Polygon)
  : M (list Polygon) :=
  match halves with
  | [] => ret buildings
  | half :: rest =>
      sq <- square half ;;
      f <- rng_float ;;
      buildings' <-
        (if Qlt_le_dec sq (minSq * Math_pow Math 2 (4 * sizeChaos * (f - (1 # 2))))
         then
           len <- Polygon_length half ;;
           if (4 <=? len)%nat
           then empty <- rng_bool emptyProb ;;
                ret (if empty then buildings else buildings ++ [half])
           else ret buildings
         else
           sq' <- square half ;;
           f1 <- rng_float ;;
           f2 <- rng_float ;;
           sub <- rec half (if Qlt_le_dec (minSq / (f1 * f2)) sq' then true else false) ;;
           ret (buildings ++ sub)) ;;
      alleys_over rec minSq sizeChaos emptyProb rest buildings'
  end.

(** The body of [createAlleys(p, rng, minSq, gridChaos, sizeChaos,
    emptyProb = 0.04, split = true)], given its recursive call. *)
Definition createAlleys_body
           (rec : Polygon -> Q -> Q -> Q -> Q -> bool -> M (list Polygon))
           (p : Polygon) (minSq gridChaos sizeChaos emptyProb : Q)
           (split : bool) : M (list Polygon) :=
  longest <- forEdge p longer (None, -1) ;;
  let v := fst longest in
  let spread := (8 # 10) * gridChaos in
  f <- rng_float ;;
  let ratio := (1 - spread) / 2 + f * spread in
  sq <- square p ;;
  let angleSpread :=
    (Math_PI Math / 6) * gridChaos *
    (if Qlt_le_dec sq (minSq * 4) then 0 else 1) in
  f' <- rng_float ;;
  let b := (f' - (1 # 2)) * angleSpread in
  v <- the v ;;
  halves <- bisect p v ratio b (if split then ALLEY else 0) ;;
  alleys_over
    (fun half split' => rec half minSq gridChaos sizeChaos emptyProb split')
    minSq sizeChaos emptyProb halves [].

(** [createAlleys]; [fuel] bounds the depth of the recursion. *)
Fixpoint createAlleys (fuel : nat) (p : Polygon)
         (minSq gridChaos sizeChaos emptyProb : Q) (split : bool)
  : M (list Polygon) :=
  match fuel with
  | O => fun _ => OutOfFuel
  | S fuel' =>
      createAlleys_body (createAlleys fuel') p minSq gridChaos sizeChaos
                        emptyProb split
  end.

End WithMath.

(** ** Tests *)

(** Integer-precision stand-ins for [Math], enough to run the code on
    values where they are exact. *)
Definition sqrt_floor (x : Q) : Q := inject_Z (Z.sqrt (Qfloor x)).

Definition testMath : MathLib :=
  mkMath sqrt_floor
         (fun x => 1 - x * x / 2)
         (fun x => x)
         (fun b x => 1 + x * (b - 1))
         (355 # 113).

Definition empty_store (r : SeededRandom.t) : Store := mkStore [] [] r.

(** [Polygon.rect(w, h)] *)
Definition rect (w h : Q) : M Polygon :=
  a <- Point_new (- w / 2) (- h / 2) ;;
  b <- Point_new (w / 2) (- h / 2) ;;
  c <- Point_new (w / 2) (h / 2) ;;
  d <- Point_new (- w / 2) (h / 2) ;;
  Polygon_new [a; b; c; d].

End Geom.

(* ===================================================================== *)
(** * Number and array helpers (utils/array-utils.ts) *)
(* ===================================================================== *)

Module MathUtils.

Local Open Scope Q_scope.

(** [Math.round(x)]: the integer nearest to [x], halves rounded up. *)
Definition Math_round (x : Q) : Z := Qfloor (x + (1 # 2)).

End MathUtils.

Module ArrayUtils.

(** How a call ends: it returns a value, or an exception leaves it. *)
Inductive ends (R : Type) : Type :=
| Returns (r : R)
| Throws.

Arguments Throws {R}.

Section Elements.

(** The elements of the array, compared by [===]. *)
Variable A : Type.
Variable eq_dec : forall x y : A, {x = y} + {x <> y}.

(** [a.indexOf(el)]: the first index of [el], or [-1]. *)
Fixpoint indexOf_from (a : list A) (el : A) (i : Z) : Z :=
  match a with
  | [] => (-1)%Z
  | x :: a' => if eq_dec x el then i else indexOf_from a' el (i + 1)%Z
  end.

Definition indexOf (a : list A) (el : A) : Z := indexOf_from a el 0%Z.

(** [a.splice(start, 0, e)]: a negative [start] counts from the end, and
    the position is clamped to [0 .. a.length]. *)
Definition splice_insert (start : Z) (e : A) (a : list A) : list A :=
  let len := Z.of_nat (length a) in
  let pos := if (start <? 0)%Z then Z.max (len + start) 0
             else Z.min start len in
  firstn (Z.to_nat pos) a ++ e :: skipn (Z.to_nat pos) a.

(** [shuffle(a, rng)]: the [for (const e of a)] loop on [result]. *)
Fixpoint shuffle_loop (a result : list A) (r : SeededRandom.t)
  : list A * SeededRandom.t :=
  match a with
  | [] => (result, r)
  | e :: a' =>
      let (f, r') := SeededRandom.float r in
      let start := Qfloor (f * inject_Z (Z.of_nat (length result) + 1)) in
      shuffle_loop a' (splice_insert start e result) r'
  end.

Definition shuffle (a : list A) (r : SeededRandom.t)
  : list A * SeededRandom.t :=
  shuffle_loop a [] r.

(** [a[i]] for a number [i]: [undefined] (here [None]) out of range. *)
Definition at_index (a : list A) (i : Z) : option A :=
  if (i <? 0)%Z then None else nth_error a (Z.to_nat i).

(** [randomElement(a, rng)] *)
Definition randomElement (a : list A) (r : SeededRandom.t)
  : option A * SeededRandom.t :=
  let (f, r') := SeededRandom.float r in
  (at_index a (Qfloor (f * inject_Z (Z.of_nat (length a)))), r').

(** A callback that reads a property of its argument to compute its
    number, as those passed in the repository do ([p => p.length],
    [v => Point.distance(v, gate)]): on [undefined] the read throws a
    [TypeError]. *)
Definition reading (f : A -> Q) (el : option A) : ends Q :=
  match el with
  | Some x => Returns (f x)
  | None => Throws
  end.

(** [minBy(a, fn)].  [fn] is first called on [a[0]], which is
    [undefined] (here [None]) when the array is empty; an exception of
    the callback leaves [minBy]. *)
Fixpoint minBy_loop (fn : option A -> ends Q) (rest : list A)
         (result : option A) (min : Q) : ends (option A) :=
  match rest with
  | [] => Returns result
  | x :: rest' =>
      match fn (Some x) with
      | Throws => Throws
      | Returns measure =>
          if Qlt_le_dec measure min
          then minBy_loop fn rest' (Some x) measure
          else minBy_loop fn rest' result min
      end
  end.

Definition minBy (a : list A) (fn : option A -> ends Q) : ends (option A) :=
  let result := nth_error a 0 in
  match fn result with
  | Throws => Throws
  | Returns min => minBy_loop fn (skipn 1 a) result min
  end.

(** [maxBy(a, fn)] *)
Fixpoint maxBy_loop (fn : option A -> ends Q) (rest : list A)
         (result : option A) (max : Q) : ends (option A) :=
  match rest with
  | [] => Returns result
  | x :: rest' =>
      match fn (Some x) with
      | Throws => Throws
      | Returns measure =>
          if Qlt_le_dec max measure
          then maxBy_loop fn rest' (Some x) measure
          else maxBy_loop fn rest' result max
      end
  end.

Definition maxBy (a : list A) (fn : option A -> ends Q) : ends (option A) :=
  let result := nth_error a 0 in
  match fn result with
  | Throws => Throws
  | Returns max => maxBy_loop fn (skipn 1 a) result max
  end.

(** [addUnique(a, el)]: the array afterwards. *)
Definition addUnique (a : list A) (el : A) : list A :=
  if (indexOf a el =? -1)%Z then a ++ [el] else a.

(** [difference(a, b)] *)
Definition difference (a b : list A) : list A :=
  filter (fun el => (indexOf b el =? -1)%Z) a.

End Elements.

End ArrayUtils.

(* ===================================================================== *)
(** * Input mapping (input/azgaar-input.ts) *)
(* ===================================================================== *)

Module AzgaarInput.

Import MathUtils.

(** [populationToPatches(population)] *)
Definition populationToPatches (population : Q) : Z :=
  if Qlt_le_dec population 100
  then 3 + Math_round ((population / 100) * 1)
  else if Qlt_le_dec population 1000
  then 5 + Math_round (((population - 100) / 900) * 4)
  else if Qlt_le_dec population 5000
  then 10 + Math_round (((population - 1000) / 4000) * 4)
  else if Qlt_le_dec population 20000
  then 15 + Math_round (((population - 5000) / 15000) * 9)
  else if Qlt_le_dec population 100000
  then 25 + Math_round (((population - 20000) / 80000) * 15)
  else 40 + Z.min 10 (Math_round (((population - 100000) / 200000) * 10)).

(** [populationToMaxGates(population)] *)
Definition populationToMaxGates (population : Q) : Z :=
  if Qlt_le_dec population 1000 then 2
  else if Qlt_le_dec population 5000 then 3
  else if Qlt_le_dec population 20000 then 4
  else if Qlt_le_dec population 100000 then 5
  else 6.

Local Open Scope Z_scope.

(** [ToInt32]: the conversion the bit operators apply to their operands
    and result. *)
Definition to_int32 (x : Z) : Z :=
  let m := x mod 2 ^ 32 in
  if m <? 2 ^ 31 then m else m - 2 ^ 32.

(** [x << n] and [x & y] on numbers holding integers. *)
Definition shl32 (x n : Z) : Z := to_int32 (Z.shiftl (to_int32 x) (n mod 32)).

Definition and32 (x y : Z) : Z := to_int32 (Z.land (to_int32 x) (to_int32 y)).

(** [hashString(s)], on the UTF-16 code units of [s]. *)
Fixpoint hash_loop (codes : list Z) (hash : Z) : Z :=
  match codes with
  | [] => hash
  | c :: rest =>
      hash_loop rest (and32 (shl32 hash 5 + hash + c) 2147483647)
  end.

Definition hashString (codes : list Z) : Z :=
  let hash := hash_loop codes 5381 in
  if hash =? 0 then 1 else hash.

End AzgaarInput.

(* ===================================================================== *)
(** * Removing nodes (geom/graph.ts) *)
(* ===================================================================== *)

Module GraphOps.

Import GraphSearch.
Local Open Scope nat_scope.

(** [Node.unlinkAll()]: [for (const node of this.links.keys())
    this.unlink(node)].  Each step deletes from [this.links] the key being
    visited and no other, so the keys visited are those present at the
    start. *)
Definition unlinkAll (this : Node) (h : Store) : Store :=
  fold_left (fun h node => unlink this node true h)
            (map fst (links h this)) h.

(** [nodes.indexOf(node)] and [nodes.splice(idx, 1)] when it is not -1:
    the first occurrence is taken out. *)
Fixpoint remove_first (node : Node) (l : list Node) : list Node :=
  match l with
  | [] => []
  | x :: l' => if Nat.eqb x node then l' else x :: remove_first node l'
  end.

(** [Graph.remove(node)] *)
Definition remove (g : Graph) (node : Node) (h : Store) : Graph * Store :=
  let h' := unlinkAll node h in
  (mkGraph (remove_first node (nodes g)), h').

End GraphOps.

(* ===================================================================== *)
(** * More of [Point] and [Polygon] (types/point.ts, geom/polygon.ts) *)
(* ===================================================================== *)

Module GeomOps.

Import Geom.
Local Open Scope Q_scope.

(** ** Point *)

(** [dot(p)] *)
Definition dot (this p : Point) : M Q :=
  x <- get_x this ;; px <- get_x p ;;
  y <- get_y this ;; py <- get_y p ;;
  ret (x * px + y * py).

(** [offset(dx, dy)]: [this.x += dx; this.y += dy]. *)
Definition Point_offset (this : Point) (dx dy : Q) : M unit :=
  x <- get_x this ;; y <- get_y this ;;
  put_xy this (x + dx) (y + dy).

(** ** Polygon *)

(** [contains(v)] *)
Definition contains (this : Polygon) (v : Point) : M bool :=
  vs <- get_vertices this ;;
  ret (negb (array_indexOf vs v =? -1)%Z).

(** [findEdge(a, b)] *)
Definition findEdge (this : Polygon) (a b : Point) : M Z :=
  vs <- get_vertices this ;;
  let index := array_indexOf vs a in
  if negb (index =? -1)%Z &&
     match array_get vs (Z.rem (index + 1) (Z.of_nat (length vs))) with
     | Some v => Nat.eqb v b
     | None => false
     end
  then ret index else ret (-1)%Z.

(** [prev(a)]: [%] truncates, so an absent [a] in a one-vertex polygon
    gives index [-0]. *)
Definition prev (this : Polygon) (a : Point) : M (option Point) :=
  vs <- get_vertices this ;;
  match length vs with
  | O => ret None          (* the index is [NaN] *)
  | S _ =>
      let len := Z.of_nat (length vs) in
      ret (array_get vs (Z.rem (array_indexOf vs a + len - 1) len))
  end.

(** [Math.min], [Math.max] on two numbers. *)
Definition Math_min (a b : Q) : Q := if Qlt_le_dec b a then b else a.
Definition Math_max (a b : Q) : Q := if Qlt_le_dec a b then b else a.

(** [getBounds()] *)
Record Bounds := mkBounds { left : Q; right : Q; top : Q; bottom : Q }.

Fixpoint getBounds_loop (vs : list Point) (b : Bounds) : M Bounds :=
  match vs with
  | [] => ret b
  | v :: vs' =>
      x <- get_x v ;;
      let l := Math_min (left b) x in
      x <- get_x v ;;
      let r := Math_max (right b) x in
      y <- get_y v ;;
      let t := Math_min (top b) y in
      y <- get_y v ;;
      let bt := Math_max (bottom b) y in
      getBounds_loop vs' (mkBounds l r t bt)
  end.

Definition getBounds (this : Polygon) : M Bounds :=
  v0 <- vertex this 0 ;; v0 <- the v0 ;;
  l <- get_x v0 ;;
  v0' <- vertex this 0 ;; v0' <- the v0' ;;
  t <- get_y v0' ;;
  vs <- get_vertices this ;;
  getBounds_loop vs (mkBounds l l t t).

(** [offset(p)]: [for (const v of this.vertices) v.offset(p.x, p.y)];
    [p.x] and [p.y] are read again for each vertex. *)
Fixpoint offset_loop (vs : list Point) (p : Point) : M unit :=
  match vs with
  | [] => ret tt
  | v :: vs' =>
      px <- get_x p ;; py <- get_y p ;;
      Point_offset v px py ;;;
      offset_loop vs' p
  end.

Definition Polygon_offset (this : Polygon) (p : Point) : M unit :=
  vs <- get_vertices this ;; offset_loop vs p.

(** [a.slice(from, to)] for integers that may be negative or beyond the
    end. *)
Definition js_slice {A} (from to : Z) (l : list A) : list A :=
  let len := Z.of_nat (length l) in
  let k := if (from <? 0)%Z then Z.max (len + from) 0 else Z.min from len in
  let fin := if (to <? 0)%Z then Z.max (len + to) 0 else Z.min to len in
  firstn (Z.to_nat (fin - k)) (skipn (Z.to_nat k) l).

(** [a.slice(from)] *)
Definition js_slice_from {A} (from : Z) (l : list A) : list A :=
  js_slice from (Z.of_nat (length l)) l.

(** [spliti(i1, i2)] *)
Definition spliti (this : Polygon) (i1 i2 : Z) : M (list Polygon) :=
  let lo := if (i2 <? i1)%Z then i2 else i1 in
  let hi := if (i2 <? i1)%Z then i1 else i2 in
  vs <- get_vertices this ;;
  a <- Polygon_new (js_slice lo (hi + 1) vs) ;;
  vs2 <- get_vertices this ;;
  vs3 <- get_vertices this ;;
  b <- Polygon_new (js_slice_from hi vs2 ++ js_slice 0 (lo + 1) vs3) ;;
  ret [a; b].

(** [split(p1, p2)] *)
Definition split (this : Polygon) (p1 p2 : Point) : M (list Polygon) :=
  vs <- get_vertices this ;;
  vs' <- get_vertices this ;;
  spliti this (array_indexOf vs p1) (array_indexOf vs' p2).

(** [distance(p)]: the least distance from a vertex to [p]. *)
Section WithMath.

Variable Math : MathLib.

Fixpoint distance_loop (rest : list Point) (p : Point) (d : Q) : M Q :=
  match rest with
  | [] => ret d
  | v :: rest' =>
      d1 <- distance Math v p ;;
      distance_loop rest' p (if Qlt_le_dec d1 d then d1 else d)
  end.

Definition Polygon_distance (this : Polygon) (p : Point) : M Q :=
  v0 <- vertex this 0 ;; v0 <- the v0 ;;
  d <- distance Math v0 p ;;
  vs <- get_vertices this ;;
  distance_loop (skipn 1 vs) p d.

(** [shrink(d)]: the callback of [forEdge] threads the index [i] and the
    polygon [q]. *)
Definition shrink_edge (d : list Q) (v1 v2 : Point) (acc : nat * Polygon)
  : M (nat * Polygon) :=
  let (i, q) := acc in
  match nth_error d i with
  | Some dd =>
      if Qlt_le_dec 0 dd
      then v <- subtract v2 v1 ;;
           r <- rotate90 v ;;
           n <- norm Math r dd ;;
           a <- add v1 n ;;
           b <- add v2 n ;;
           halves <- cut Math q a b 0 ;;
           q' <- the (nth_error halves 0) ;;
           ret (S i, q')
      else ret (S i, q)
  | None => ret (S i, q)   (* [undefined > 0] is false *)
  end.

Definition shrink (this : Polygon) (d : list Q) : M Polygon :=
  vs <- get_vertices this ;;
  q <- Polygon_new vs ;;
  r <- forEdge this (shrink_edge d) (0%nat, q) ;;
  ret (snd r).

(** [shrinkEq(d)] *)
Definition shrinkEq (this : Polygon) (d : Q) : M Polygon :=
  vs <- get_vertices this ;;
  shrink this (map (fun _ => d) vs).

End WithMath.

End GeomOps.

(* ===================================================================== *)
(** * CurtainWall.buildTowers (generator/curtain-wall.ts) *)
(* ===================================================================== *)

Module WallTowers.

Import WallCommon.
Local Open Scope nat_scope.

(** [this.segments[i]] in a condition: [undefined] counts as false. *)
Definition segment_at (segments : list bool) (i : nat) : bool :=
  nth i segments false.

(** The [for] loop of [buildTowers], on the indices still to visit. *)
Fixpoint towers_loop (shape : Polygon) (gates : list Point)
         (segments : list bool) (len : nat) (ixs : list nat)
         (towers : list Point) : list Point :=
  match ixs with
  | [] => towers
  | i :: ixs' =>
      match nth_error shape i with
      | Some t =>
          if negb (includes gates t) &&
             (segment_at segments ((i + len - 1) mod len) ||
              segment_at segments i)
          then towers_loop shape gates segments len ixs' (towers ++ [t])
          else towers_loop shape gates segments len ixs' towers
      | None => towers_loop shape gates segments len ixs' towers
                                     (* not reached: [i < len] *)
      end
  end.

(** [buildTowers()]: the [towers] array it leaves. *)
Definition buildTowers (real : bool) (shape : Polygon) (gates : list Point)
           (segments : list bool) : list Point :=
  if real
  then let len := length shape in
       towers_loop shape gates segments len (seq 0 len) []
  else [].

End WallTowers.

(* ===================================================================== *)
(** * Topology: points and their nodes (generator/topology.ts) *)
(* ===================================================================== *)

Module Topology.

Import GraphSearch.
Local Open Scope nat_scope.

(** A [Point] object is known by its identity, as a [Node] is; the two
    [Map]s of the class are keyed by such identities. *)
Definition Point := nat.

(** The fields [processPoint] and [buildPath] use. *)
Record t := mkTopology {
  graph : Graph;
  store : Store;                 (* the [links] of the allocated nodes *)
  pt2node : NodeMap Node;
  node2pt : NodeMap Point;
  blocked : list Point
}.

(** [Map.has(k)] *)
Definition map_has {V} (k : nat) (m : NodeMap V) : bool :=
  match map_get k m with Some _ => true | None => false end.

(** [processPoint(v)]: the node or [null], and the object afterwards. *)
Definition processPoint (v : Point) (tp : t) : option Node * t :=
  let (n, tp') :=
    match map_get v (pt2node tp) with
    | Some n => (n, tp)
    | None =>
        let '(n, g, h) := add (graph tp) (store tp) in
        (n, mkTopology g h (map_set v n (pt2node tp))
                       (map_set n v (node2pt tp)) (blocked tp))
    end in
  (if includes (blocked tp) v then None else Some n, tp').

(** What [buildPath] returns. *)
Inductive path_result :=
| NoPath                                  (* [null] *)
| Points (pts : list (option Point))      (* [undefined] where a node has
                                             no point *)
| SearchOutOfFuel.

(** [buildPath(from, to, exclude?)] *)
Definition buildPath (tp : t) (from to : Point) (exclude : option (list Node))
  : path_result :=
  match map_get from (pt2node tp), map_get to (pt2node tp) with
  | Some fromNode, Some toNode =>
      match aStar (store tp) fromNode toNode exclude with
      | Path path => Points (map (fun n => map_get n (node2pt tp)) path)
      | Null => NoPath
      | OutOfFuel => SearchOutOfFuel
      end
  | _, _ => NoPath
  end.

End Topology.

(* ===================================================================== *)
(** * Properties of the generator and of the retry loop *)
(* ===================================================================== *)

Module SeededRandomFacts.

Import SeededRandom.
Local Open Scope Z_scope.

Lemma new_nonpositive (s now : Z) : s <= 0 -> new (Some s) now = 1.
Proof.
  intros Hs. unfold new.
  destruct (Z.leb_spec s 0) as [_ | Hgt]; [reflexivity | lia].
Qed.

Lemma new_one (now : Z) : new (Some 1) now = 1.
Proof. reflexivity. Qed.

(** After construction the state is strictly positive. *)
Lemma new_positive (seed : option Z) (now : Z) : 0 < new seed now.
Proof.
  unfold new.
  destruct (Z.leb_spec (match seed with Some s => s | None => Z.rem now N end) 0);
    lia.
Qed.

(** ** Products as numbers *)

Lemma to_number_exact (x : Z) : Z.abs x < 2 ^ 53 -> to_number x = x.
Proof.
  intros H. unfold to_number.
  destruct (Z.ltb_spec (Z.abs x) (2 ^ 53)) as [_ | Hge]; [reflexivity | lia].
Qed.

Lemma to_number_nonneg (x : Z) : 0 <= x -> 0 <= to_number x.
Proof.
  intros Hx. unfold to_number.
  destruct (Z.ltb_spec (Z.abs x) (2 ^ 53)) as [_ | Hge]; [exact Hx |].
  set (a := Z.abs x) in *. set (e := Z.log2 a - 52).
  assert (Hp : 0 < 2 ^ e).
  { apply Z.pow_pos_nonneg; [lia |]. unfold e.
    assert (53 <= Z.log2 a) by (apply Z.log2_le_pow2; lia). lia. }
  assert (Hq : 0 <= a / 2 ^ e) by (apply Z.div_pos; lia).
  assert (Hs : 0 <= Z.sgn x) by (apply Z.sgn_nonneg; exact Hx).
  apply Z.mul_nonneg_nonneg; [exact Hs |].
  apply Z.mul_nonneg_nonneg; [| lia].
  destruct (2 * (a mod 2 ^ e) ?= 2 ^ e); [destruct (Z.even (a / 2 ^ e)) | |]; lia.
Qed.

(** From a state below [N] the product is below [2 ^ 47] and [next]
    computes the exact residue. *)
Lemma next_exact (r : t) :
  0 <= r < N -> next r = (Z.rem (r * G) N, Z.rem (r * G) N).
Proof.
  intros Hr. unfold next. rewrite to_number_exact; [reflexivity |].
  unfold N, G in *. rewrite Z.abs_eq by lia.
  change (2 ^ 53) with 9007199254740992. lia.
Qed.

End SeededRandomFacts.

Module PipelineFacts.

Import Pipeline.

Section WithPhases.

Variables (Point Patch CurtainWall Topology Street : Type).
Variable origin : Point.

Local Notation Model := (Model Point Patch CurtainWall Topology Street).
Local Notation Phase := (Model -> completion * Model).

Variables (buildPatches optimizeJunctions buildWalls buildStreets
           createWards buildGeometry : Phase).

Local Notation build :=
  (build buildPatches optimizeJunctions buildWalls buildStreets
         createWards buildGeometry).
Local Notation generate_loop :=
  (generate_loop buildPatches optimizeJunctions buildWalls buildStreets
                 createWards buildGeometry).
Local Notation generate :=
  (generate buildPatches optimizeJunctions buildWalls buildStreets
            createWards buildGeometry).
Local Notation attempt :=
  (attempt buildPatches optimizeJunctions buildWalls buildStreets
           createWards buildGeometry).

Lemma reset_is_reset (m : Model) : is_reset (reset m).
Proof. repeat split. Qed.

Lemma reset_keeps_rng (m : Model) : rng (reset m) = rng m.
Proof. reflexivity. Qed.

Lemma attempt_shift (k : nat) (m : Model) :
  attempt (S k) m = attempt k (reset (snd (build m))).
Proof.
  induction k as [| k IH]; [reflexivity |].
  change (attempt (S (S k)) m) with (reset (snd (build (attempt (S k) m)))).
  rewrite IH. reflexivity.
Qed.

Lemma completion_cases (c : completion * Model) : returned c \/ threw c.
Proof.
  destruct c as [[| e] m]; [left; reflexivity | right; exists e; reflexivity].
Qed.

(** The loop either stops at the first attempt that returns, or runs out
    after [n] throwing attempts. *)
Lemma generate_loop_spec (n : nat) (m : Model) :
  (exists k, (k < n)%nat /\
             (forall j, (j < k)%nat -> threw (build (attempt j m))) /\
             returned (build (attempt k m)) /\
             generate_loop n m = (Returned, snd (build (attempt k m))))
  \/
  ((forall j, (j < n)%nat -> threw (build (attempt j m))) /\
   generate_loop n m = (Threw failure_message, attempt n m)).
Proof.
  revert m. induction n as [| n IH]; intros m.
  - right. split; [intros j Hj; lia | reflexivity].
  - cbn [Pipeline.generate_loop].
    destruct (build m) as [[| e] m'] eqn:Hb.
    + left. exists 0%nat. cbn [Pipeline.attempt]. rewrite Hb.
      repeat split; [lia | intros j Hj; lia].
    + destruct (IH (reset m')) as [(k & Hk & Hbefore & Hret & Hgen) | (Hall & Hgen)].
      * left. exists (S k). rewrite attempt_shift, Hb. cbn [snd].
        repeat split; try assumption; [lia |].
        intros [| j] Hj.
        -- cbn [Pipeline.attempt]. rewrite Hb. exists e. reflexivity.
        -- rewrite attempt_shift, Hb. apply Hbefore. lia.
      * right. rewrite attempt_shift, Hb. cbn [snd]. split; [| assumption].
        intros [| j] Hj.
        -- cbn [Pipeline.attempt]. rewrite Hb. exists e. reflexivity.
        -- rewrite attempt_shift, Hb. apply Hall. lia.
Qed.

(** ** C8 *)

(** C8. [generate] runs [build] again after every throwing attempt; the
    model an attempt after the first starts from has its patch, wall,
    street and ward fields emptied and carries the generator state the
    failed attempt left (no reseeding); it makes at most [MAX_ATTEMPTS]
    = 20 attempts, returns the model of the first attempt that returns,
    and throws its fatal error only when all twenty attempts threw, in
    which case the object is left in the emptied state. *)
Theorem generate_retries_with_same_rng (m : Model) :
  MAX_ATTEMPTS = 20%nat /\
  (forall k, rng (attempt (S k) m) = rng (snd (build (attempt k m)))) /\
  (forall k, is_reset (attempt (S k) m)) /\
  ((exists k, (k < MAX_ATTEMPTS)%nat /\
              (forall j, (j < k)%nat -> threw (build (attempt j m))) /\
              returned (build (attempt k m)) /\
              generate m = (Returned, snd (build (attempt k m))))
   \/
   ((forall j, (j < MAX_ATTEMPTS)%nat -> threw (build (attempt j m))) /\
    generate m = (Threw failure_message, attempt MAX_ATTEMPTS m) /\
    is_reset (attempt MAX_ATTEMPTS m))).
Proof.
  split; [reflexivity |].
  split; [intros k; reflexivity |].
  split; [intros k; apply reset_is_reset |].
  destruct (generate_loop_spec MAX_ATTEMPTS m) as [H | [Hall Hgen]].
  - left. exact H.
  - right. repeat split; try assumption; apply (reset_is_reset _).
Qed.

(** ** C9 *)

(** A phase is blind to the seed kept in [params] when changing that
    stored number changes nothing but that number in what the phase
    leaves.  (In the source [params] is read by [createWards] alone,
    through [buildWardDistribution], which reads [nPatches] and the
    temple, shanty and capital flags.) *)
Definition seed_blind (f : Phase) : Prop :=
  forall s m, f (restamp s m) = (fst (f m), restamp s (snd (f m))).

Lemma andThen_blind (f : Phase) (k : Phase) (s : Z) (c : completion * Model) :
  seed_blind k ->
  andThen (fst c, restamp s (snd c)) k =
  (fst (andThen c k), restamp s (snd (andThen c k))).
Proof.
  intros Hk. destruct c as [[| e] m]; cbn; [apply Hk | reflexivity].
Qed.

Hypothesis blind_buildPatches : seed_blind buildPatches.
Hypothesis blind_optimizeJunctions : seed_blind optimizeJunctions.
Hypothesis blind_buildWalls : seed_blind buildWalls.
Hypothesis blind_buildStreets : seed_blind buildStreets.
Hypothesis blind_createWards : seed_blind createWards.
Hypothesis blind_buildGeometry : seed_blind buildGeometry.

Lemma build_blind : seed_blind build.
Proof.
  intros s m. unfold Pipeline.build.
  change (set_streets_roads (restamp s m)) with (restamp s (set_streets_roads m)).
  rewrite blind_buildPatches.
  destruct (buildPatches (set_streets_roads m)) as [[| e] m1]; [| reflexivity].
  cbn [fst snd andThen]. rewrite blind_optimizeJunctions.
  destruct (optimizeJunctions m1) as [[| e] m2]; [| reflexivity].
  cbn [fst snd andThen]. rewrite blind_buildWalls.
  destruct (buildWalls m2) as [[| e] m3]; [| reflexivity].
  cbn [fst snd andThen]. rewrite blind_buildStreets.
  destruct (buildStreets m3) as [[| e] m4]; [| reflexivity].
  cbn [fst snd andThen]. rewrite blind_createWards.
  destruct (createWards m4) as [[| e] m5]; [| reflexivity].
  cbn [fst snd andThen]. apply blind_buildGeometry.
Qed.

Lemma generate_loop_blind (n : nat) : seed_blind (generate_loop n).
Proof.
  induction n as [| n IH]; intros s m; [reflexivity |].
  cbn [Pipeline.generate_loop]. rewrite build_blind.
  destruct (build m) as [[| e] m']; cbn [fst snd]; [reflexivity |].
  change (reset (restamp s m')) with (restamp s (reset m')). apply IH.
Qed.

(** C9. A seed [s <= 0] makes the constructor start the generator in
    state 1, so the generator draws exactly what the one built from seed 1
    draws, and two models that differ only in such a seed against seed 1
    generate the same settlement: same completion and same model, apart
    from the seed number kept in [params]. *)
Theorem nonpositive_seed_generates_as_seed_one
        (s now now' : Z) (p : GenerationParams Point) :
  (s <= 0)%Z ->
  SeededRandom.new (Some s) now = 1%Z /\
  SeededRandom.new (Some s) now = SeededRandom.new (Some 1%Z) now' /\
  (forall n, SeededRandom.stream n (SeededRandom.new (Some s) now) =
             SeededRandom.stream n (SeededRandom.new (Some 1%Z) now')) /\
  (forall r, SeededRandom.float (SeededRandom.new (Some s) now) = r ->
             SeededRandom.float (SeededRandom.new (Some 1%Z) now') = r) /\
  let run1 := generate (Model_new Patch CurtainWall Topology Street origin
                                  (with_seed p 1%Z) now') in
  generate (Model_new Patch CurtainWall Topology Street origin
                      (with_seed p s) now) =
  (fst run1, restamp s (snd run1)).
Proof.
  intros Hs.
  pose proof (SeededRandomFacts.new_nonpositive now Hs) as Hnew.
  rewrite Hnew, SeededRandomFacts.new_one.
  repeat split; try reflexivity; try (intros; assumption).
  cbv zeta. unfold Pipeline.generate.
  rewrite <- generate_loop_blind. f_equal.
  unfold Model_new, restamp. cbn. rewrite Hnew. reflexivity.
Qed.

End WithPhases.

(** A run of the retry loop on toy phases: the wall phase throws while the
    generator state is odd, and every phase draws once. *)
Definition toy_draw : Model unit unit unit unit unit ->
                      completion * Model unit unit unit unit unit :=
  fun m => (Returned,
            mkModel (snd (SeededRandom.next (rng m))) (nPatches m)
                    (plazaNeeded m) (citadelNeeded m) (wallsNeeded m)
                    (params m) (topology m) (patches m) (waterbody m)
                    (inner m) (citadel m) (plaza m) (center m) (border m)
                    (wall m) (cityRadius m) (gates m) (arteries m)
                    (streets m) (roads m)).

Definition toy_walls : Model unit unit unit unit unit ->
                       completion * Model unit unit unit unit unit :=
  fun m => if Z.odd (rng m) then (Threw "Bad walled area shape!", m)
           else (Returned, m).

Definition toy_params (s : Z) : GenerationParams unit :=
  mkParams 15 true false true false false false s None None None.

Lemma toy_draw_blind : seed_blind toy_draw.
Proof. intros s m. reflexivity. Qed.

Lemma toy_walls_blind : seed_blind toy_walls.
Proof.
  intros s m. unfold toy_walls. cbn [rng restamp].
  destruct (Z.odd (rng m)); reflexivity.
Qed.

Lemma nonpositive_seed_witness :
  (0 <= 0)%Z /\
  fst (generate toy_draw toy_draw toy_walls toy_draw toy_draw toy_draw
                (Model_new unit unit unit unit tt (toy_params 0) 1700000000000))
  = Returned.
Proof.
  split; [lia |].
  destruct (@nonpositive_seed_generates_as_seed_one
              unit unit unit unit unit tt
              toy_draw toy_draw toy_walls toy_draw toy_draw toy_draw
              toy_draw_blind toy_draw_blind toy_walls_blind toy_draw_blind
              toy_draw_blind toy_draw_blind
              0%Z 1700000000000%Z 5%Z (toy_params 7))
    as (_ & _ & _ & _ & Hrun); [lia |].
  cbv zeta in Hrun.
  change (with_seed (toy_params 7) 0) with (toy_params 0) in Hrun.
  rewrite Hrun. vm_compute. reflexivity.
Defined.

End PipelineFacts.

(* ===================================================================== *)
(** * Properties of the A* search *)
(* ===================================================================== *)

Module GraphSearchFacts.

Import GraphSearch.
Local Open Scope nat_scope.

(** ** C6 *)

(** C6. On the four-node graph with symmetric links A-B (1), A-C (10),
    B-D (1), C-D (1), [aStar(A, D)] returns the three-node path through B,
    goal first: [D; B; A]. *)
Theorem aStar_test_graph :
  aStar test_store test_a test_d None = Path [test_d; test_b; test_a].
Proof. vm_compute. reflexivity. Qed.

(** ** Maps and membership *)

Lemma includes_In (l : list Node) (x : Node) :
  includes l x = true <-> In x l.
Proof.
  unfold includes. rewrite existsb_exists. split.
  - intros (y & Hy & Heq). apply Nat.eqb_eq in Heq. subst. assumption.
  - intros H. exists x. split; [assumption | apply Nat.eqb_refl].
Qed.

Lemma includes_not_In (l : list Node) (x : Node) :
  includes l x = false <-> ~ In x l.
Proof.
  rewrite <- includes_In. destruct (includes l x); split; congruence.
Qed.

Lemma map_get_set {V} (k k' : Node) (v : V) (m : NodeMap V) :
  map_get k (map_set k' v m) = if Nat.eqb k k' then Some v else map_get k m.
Proof.
  induction m as [| [k0 v0] m IH]; cbn.
  - reflexivity.
  - destruct (Nat.eqb_spec k' k0) as [-> | Hne]; cbn.
    + destruct (Nat.eqb_spec k k0); reflexivity.
    + rewrite IH. destruct (Nat.eqb_spec k k0) as [-> | Hne'].
      * destruct (Nat.eqb_spec k0 k'); [congruence | reflexivity].
      * reflexivity.
Qed.

Lemma map_get_set_other {V} (k k' : Node) (v : V) (m : NodeMap V) :
  k <> k' -> map_get k (map_set k' v m) = map_get k m.
Proof.
  intros Hne. rewrite map_get_set.
  destruct (Nat.eqb_spec k k'); [contradiction | reflexivity].
Qed.

Lemma map_get_set_same {V} (k : Node) (v : V) (m : NodeMap V) :
  map_get k (map_set k v m) = Some v.
Proof. rewrite map_get_set, Nat.eqb_refl. reflexivity. Qed.

Lemma links_targets (h : Store) (x y : Node) :
  In y (map fst (links h x)) -> In y (targets h).
Proof.
  unfold links, targets. intros Hy.
  destruct (Nat.lt_ge_cases x (length h)) as [Hlt | Hge].
  - apply in_flat_map. exists (nth x h []). split; [| assumption].
    apply nth_In. assumption.
  - rewrite nth_overflow in Hy by assumption. contradiction.
Qed.

(** Strengthening a filter on a list by one element that really is in
    the list shortens the result. *)
Lemma filter_length_lt {A} (f g : A -> bool) (x : A) (l : list A) :
  (forall y, g y = true -> f y = true) ->
  In x l -> f x = true -> g x = false ->
  length (filter g l) < length (filter f l).
Proof.
  intros Himp Hin Hf Hg.
  assert (Hle : forall l', length (filter g l') <= length (filter f l')).
  { induction l' as [| a l' IH]; cbn; [lia |].
    destruct (g a) eqn:Hga.
    - rewrite (Himp _ Hga). cbn. lia.
    - destruct (f a); cbn; lia. }
  induction l as [| a l IH]; [contradiction |].
  cbn. destruct Hin as [-> | Hin].
  - rewrite Hf, Hg. cbn. specialize (Hle l). lia.
  - specialize (IH Hin). destruct (g a) eqn:Hga.
    + rewrite (Himp _ Hga). cbn. lia.
    + destruct (f a); cbn; lia.
Qed.

Section Search.

Variable h : Store.
Variables start goal : Node.
Variable E : list Node.          (* the exclusion list, [] when absent *)

(** Link targets that are not closed yet: what may still be visited. *)
Definition pending (closed : list Node) : nat :=
  length (filter (fun t => negb (includes closed t))
                 (nodup Nat.eq_dec (targets h))).

Lemma pending_le (closed : list Node) : pending closed <= length (targets h).
Proof.
  unfold pending.
  etransitivity; [apply filter_length_le |].
  apply NoDup_incl_length; [apply NoDup_nodup |].
  intros x Hx. apply nodup_In in Hx. assumption.
Qed.

Lemma pending_pop (closed : list Node) (x : Node) :
  In x (targets h) -> ~ In x closed ->
  pending (closed ++ [x]) < pending closed.
Proof.
  intros Ht Hnc. unfold pending.
  apply filter_length_lt with (x := x).
  - intros y Hy. apply negb_true_iff in Hy. apply includes_not_In in Hy.
    apply negb_true_iff. apply includes_not_In.
    intros Hin. apply Hy. apply in_or_app. left. assumption.
  - apply nodup_In. assumption.
  - apply negb_true_iff. apply includes_not_In. assumption.
  - apply negb_false_iff. apply includes_In. apply in_or_app. right.
    left. reflexivity.
Qed.

(** The loop invariant, for the list [P] of nodes popped so far (in
    order); everything but the closure of [P] under links. *)
Record InvBase (P : list Node) (st : Search) : Prop := {
  inv_closed : closedSet st = E ++ P;
  inv_start : nth_error P 0 = Some start;
  inv_nodup : NoDup (openSet st);
  inv_disj : forall x, In x (openSet st) -> ~ In x (closedSet st);
  inv_targets : forall x, In x (openSet st) -> In x (targets h);
  inv_sound : forall x, In x (openSet st) \/ In x P -> reach h E start x;
  inv_goal : ~ In goal P;
  inv_parent_open : forall x, In x (openSet st) ->
      exists c j, map_get x (cameFrom st) = Some c /\ nth_error P j = Some c;
  inv_parent_closed : forall i x, nth_error P i = Some x ->
      map_get x (cameFrom st) = None \/
      exists c j, j < i /\ nth_error P j = Some c /\
                  map_get x (cameFrom st) = Some c
}.

Definition closed_under_links (P : list Node) (st : Search) : Prop :=
  forall x y, In x P -> In y (map fst (links h x)) ->
              In y (closedSet st) \/ In y (openSet st).

(** Writing [cameFrom] for a node that is not closed keeps the invariant
    when its new predecessor is a popped node. *)
Lemma set_parent_keeps (P : list Node) (cur n : Node) (j : nat)
      (closed opn : list Node) (cf : NodeMap Node) (gs gs' : NodeMap Q) :
  InvBase P (mkSearch closed opn cf gs) ->
  nth_error P j = Some cur ->
  In n opn ->
  InvBase P (mkSearch closed opn (map_set n cur cf) gs').
Proof.
  intros [Hc Hs Hnd Hdj Ht Hsd Hg Hpo Hpc] Hcur Hn. cbn in *.
  constructor; cbn; try assumption.
  - intros x Hx. destruct (Nat.eq_dec x n) as [-> | Hne].
    + exists cur, j. rewrite map_get_set_same. split; [reflexivity | assumption].
    + rewrite map_get_set_other by assumption. apply Hpo. assumption.
  - intros i x Hx.
    assert (Hne : x <> n).
    { intros ->. apply (Hdj n Hn). rewrite Hc. apply in_or_app. right.
      eapply nth_error_In. eassumption. }
    rewrite map_get_set_other by assumption. apply Hpc. assumption.
Qed.

(** Pushing a node that is neither closed nor open, with a popped node
    as its predecessor, keeps the invariant. *)
Lemma push_keeps (P : list Node) (cur n : Node) (j : nat)
      (closed opn : list Node) (cf : NodeMap Node) (gs gs' : NodeMap Q) :
  InvBase P (mkSearch closed opn cf gs) ->
  nth_error P j = Some cur ->
  In n (map fst (links h cur)) ->
  ~ In n closed -> ~ In n opn ->
  InvBase P (mkSearch closed (opn ++ [n]) (map_set n cur cf) gs').
Proof.
  intros [Hc Hs Hnd Hdj Ht Hsd Hg Hpo Hpc] Hcur Hlink Hcl Hop. cbn in *.
  constructor; cbn; try assumption.
  - apply NoDup_app; [assumption | repeat constructor; intros [] |].
    intros x Hx [<- | []]. contradiction.
  - intros x Hx. apply in_app_or in Hx.
    destruct Hx as [Hx | [<- | []]]; [apply Hdj |]; assumption.
  - intros x Hx. apply in_app_or in Hx.
    destruct Hx as [Hx | [<- | []]]; [apply Ht; assumption |].
    apply links_targets with (x := cur). assumption.
  - intros x [Hx | Hx]; [| apply Hsd; right; assumption].
    apply in_app_or in Hx.
    destruct Hx as [Hx | [<- | []]]; [apply Hsd; left; assumption |].
    apply reach_step with (x := cur).
    + apply Hsd. right. eapply nth_error_In. eassumption.
    + assumption.
    + intros HE. apply Hcl. rewrite Hc. apply in_or_app. left. assumption.
  - intros x Hx. destruct (Nat.eq_dec x n) as [-> | Hne].
    + exists cur, j. rewrite map_get_set_same. split; [reflexivity | assumption].
    + rewrite map_get_set_other by assumption. apply Hpo.
      apply in_app_or in Hx. destruct Hx as [Hx | [<- | []]];
        [assumption | contradiction].
  - intros i x Hx.
    assert (Hne : x <> n).
    { intros ->. apply Hcl. rewrite Hc. apply in_or_app. right.
      eapply nth_error_In. eassumption. }
    rewrite map_get_set_other by assumption. apply Hpc. assumption.
Qed.

Lemma relax_inv (P : list Node) (cur : Node) (j : nat) (cs : Q)
      (ls : NodeMap Q) :
  nth_error P j = Some cur ->
  (forall y, In y (map fst ls) -> In y (map fst (links h cur))) ->
  forall st,
    InvBase P st ->
    InvBase P (relax cur cs ls st) /\
    closedSet (relax cur cs ls st) = closedSet st /\
    (forall x, In x (openSet st) -> In x (openSet (relax cur cs ls st))) /\
    (forall y, In y (map fst ls) ->
               In y (closedSet st) \/ In y (openSet (relax cur cs ls st))).
Proof.
  intros Hcur. induction ls as [| [n cost] ls IH]; intros Hls st Hinv.
  - cbn. split; [assumption |]. split; [reflexivity |].
    split; [intros; assumption | intros y []].
  - assert (Hls' : forall y, In y (map fst ls) -> In y (map fst (links h cur))).
    { intros y Hy. apply Hls. right. assumption. }
    assert (Hn : In n (map fst (links h cur))).
    { apply Hls. left. reflexivity. }
    cbn [relax].
    destruct (includes (closedSet st) n) eqn:Hcl.
    + destruct (IH Hls' st Hinv) as (Hi & Hc & Ho & Hy).
      split; [assumption |]. split; [assumption |]. split; [assumption |].
      intros y [<- | Hin]; [| apply Hy; assumption].
      left. apply includes_In. assumption.
    + apply includes_not_In in Hcl.
      destruct (includes (openSet st) n) eqn:Hop; cbn [negb].
      * apply includes_In in Hop.
        destruct (match map_get n (gScore st) with
                  | Some g => Qle_bool g (cs + cost)
                  | None => false
                  end).
        -- destruct (IH Hls' st Hinv) as (Hi & Hc & Ho & Hy).
           split; [assumption |]. split; [assumption |]. split; [assumption |].
           intros y [<- | Hin]; [| apply Hy; assumption].
           right. apply Ho. assumption.
        -- assert (Hstep : InvBase P
                     (mkSearch (closedSet st) (openSet st)
                               (map_set n cur (cameFrom st))
                               (map_set n (cs + cost)%Q (gScore st)))).
           { apply set_parent_keeps with (j := j) (gs := gScore st);
               try assumption. destruct st; assumption. }
           destruct (IH Hls' _ Hstep) as (Hi & Hc & Ho & Hy).
           cbn in Hc, Ho, Hy.
           split; [assumption |]. split; [assumption |]. split; [assumption |].
           intros y [<- | Hin]; [| apply Hy; assumption].
           right. apply Ho. assumption.
      * apply includes_not_In in Hop.
        assert (Hpush : InvBase P
                   (mkSearch (closedSet st) (openSet st ++ [n])
                             (map_set n cur (cameFrom st))
                             (map_set n (cs + cost)%Q (gScore st)))).
        { apply push_keeps with (j := j) (gs := gScore st); try assumption.
          destruct st; assumption. }
        destruct (IH Hls' _ Hpush) as (Hi & Hc & Ho & Hy).
        cbn in Hc, Ho, Hy.
        split; [assumption |]. split; [assumption |].
        split.
        -- intros x Hx. apply Ho. apply in_or_app. left. assumption.
        -- intros y [<- | Hin]; [| apply Hy; assumption].
           right. apply Ho. apply in_or_app. right. left. reflexivity.
Qed.

Lemma buildPath_popped (P : list Node) (st : Search) :
  InvBase P st ->
  forall i x, nth_error P i = Some x ->
  forall f, i <= f -> exists p, buildPath f (cameFrom st) x = Some p.
Proof.
  intros Hinv i. induction i as [i IH] using lt_wf_ind. intros x Hx f Hf.
  destruct (inv_parent_closed Hinv _ Hx) as [Hnone | (c & j & Hj & Hc & Hget)].
  - exists [x]. destruct f; cbn; rewrite Hnone; reflexivity.
  - destruct f as [| f]; [lia |].
    destruct (IH j Hj c Hc f ltac:(lia)) as (p & Hp).
    exists (x :: p). cbn. rewrite Hget, Hp. reflexivity.
Qed.

(** When nothing is left to expand, exactly the reachable nodes have
    been popped. *)
Lemma exhausted_complete (P : list Node) (st : Search) :
  InvBase P st -> closed_under_links P st -> openSet st = [] ->
  forall x, reach h E start x -> In x P.
Proof.
  intros Hinv Hcl Hopen x Hr. induction Hr as [| x y Hr IH Hy HE].
  - eapply nth_error_In. apply (inv_start Hinv).
  - destruct (Hcl x y IH Hy) as [Hc | Ho].
    + rewrite (inv_closed Hinv) in Hc. apply in_app_or in Hc.
      destruct Hc; [contradiction | assumption].
    + rewrite Hopen in Ho. contradiction.
Qed.

(** One iteration that pops [cur] (not the goal) and relaxes its links
    re-establishes the invariant for [P ++ [cur]]. *)
Lemma pop_inv (P : list Node) (cur : Node) (rest : list Node) (cs : Q)
      (closed : list Node) (cf : NodeMap Node) (gs : NodeMap Q) :
  InvBase P (mkSearch closed (cur :: rest) cf gs) ->
  closed_under_links P (mkSearch closed (cur :: rest) cf gs) ->
  cur <> goal ->
  let st' := relax cur cs (links h cur)
                   (mkSearch (closed ++ [cur]) rest cf gs) in
  InvBase (P ++ [cur]) st' /\ closed_under_links (P ++ [cur]) st' /\
  closedSet st' = closed ++ [cur].
Proof.
  intros Hinv Hcl Hne.
  assert (Hinv0 := Hinv).
  destruct Hinv as [Hc Hs Hnd Hdj Ht Hsd Hg Hpo Hpc]. cbn in *.
  assert (HP : P <> []) by (destruct P; [discriminate | congruence]).
  assert (Hbase : InvBase (P ++ [cur]) (mkSearch (closed ++ [cur]) rest cf gs)).
  { constructor; cbn.
    - rewrite Hc, app_assoc. reflexivity.
    - destruct P; [contradiction | assumption].
    - inversion Hnd; assumption.
    - intros x Hx Hin. apply in_app_or in Hin. destruct Hin as [Hin | [<- | []]].
      + apply (Hdj x); [right |]; assumption.
      + inversion Hnd; contradiction.
    - intros x Hx. apply Ht. right. assumption.
    - intros x [Hx | Hx].
      + apply Hsd. left. right. assumption.
      + apply in_app_or in Hx. destruct Hx as [Hx | [<- | []]].
        * apply Hsd. right. assumption.
        * apply Hsd. left. left. reflexivity.
    - intros Hin. apply in_app_or in Hin.
      destruct Hin as [Hin | [Heq | []]]; [contradiction | congruence].
    - intros x Hx. destruct (Hpo x (or_intror Hx)) as (c & j & Hget & Hj).
      exists c, j. split; [assumption |].
      rewrite nth_error_app1; [assumption |].
      apply nth_error_Some. congruence.
    - intros i x Hx.
      destruct (Nat.lt_ge_cases i (length P)) as [Hlt | Hge].
      + rewrite nth_error_app1 in Hx by assumption.
        destruct (Hpc i x Hx) as [Hnone | (c & j & Hj & Hcj & Hget)];
          [left; assumption | right].
        exists c, j. split; [assumption |]. split; [| assumption].
        rewrite nth_error_app1 by lia. assumption.
      + rewrite nth_error_app2 in Hx by assumption.
        destruct (i - length P) as [| k] eqn:Hk;
          [| destruct k; discriminate].
        cbn in Hx. injection Hx as <-.
        destruct (Hpo cur (or_introl eq_refl)) as (c & j & Hget & Hj).
        right. exists c, j.
        assert (j < length P) by (apply nth_error_Some; congruence).
        split; [lia |]. split; [| assumption].
        rewrite nth_error_app1 by assumption. assumption. }
  assert (Hcur : nth_error (P ++ [cur]) (length P) = Some cur).
  { rewrite nth_error_app2 by lia. rewrite Nat.sub_diag. reflexivity. }
  destruct (relax_inv (length P) cs (links h cur) Hcur
                      (fun y Hy => Hy) Hbase) as (Hi & Hcl' & Ho & Hy).
  cbn in Hcl', Ho, Hy. cbv zeta.
  split; [assumption |]. split; [| assumption].
  intros x y Hx Hlink. rewrite Hcl'.
  apply in_app_or in Hx. destruct Hx as [Hx | [<- | []]].
  - destruct (Hcl x y Hx Hlink) as [Hin | [<- | Hin]]; cbn in *.
    + left. apply in_or_app. left. assumption.
    + left. apply in_or_app. right. left. reflexivity.
    + right. apply Ho. assumption.
  - apply Hy. assumption.
Qed.

Lemma loop_spec (fuel : nat) :
  forall P st,
    InvBase P st -> closed_under_links P st ->
    pending (closedSet st) < fuel ->
    match aStar_loop fuel h goal st with
    | OutOfFuel => False
    | Null => ~ reach h E start goal
    | Path p => reach h E start goal
    end.
Proof.
  induction fuel as [| fuel IH]; intros P st Hinv Hcl Hfuel; [lia |].
  cbn [aStar_loop]. destruct st as [closed opn cf gs]. cbn [openSet closedSet cameFrom gScore] in *.
  destruct opn as [| cur rest].
  - intros Hr. apply (inv_goal Hinv).
    apply (exhausted_complete Hinv Hcl eq_refl). assumption.
  - destruct (Nat.eqb_spec cur goal) as [-> | Hne].
    + destruct (inv_parent_open Hinv goal (or_introl eq_refl))
        as (c & j & Hget & Hj). cbn in Hget.
      assert (Hjlt : j < length P) by (apply nth_error_Some; congruence).
      assert (Hlen : length closed = length E + length P).
      { rewrite (inv_closed Hinv : closed = E ++ P). apply length_app. }
      destruct (length closed) as [| f] eqn:Hf; [lia |].
      assert (Hjf : j <= f) by lia. destruct (buildPath_popped Hinv Hj Hjf) as (p & Hp).
      cbn in Hp. cbn [buildPath]. rewrite Hget, Hp.
      apply (inv_sound Hinv). left. left. reflexivity.
    + set (cs := match map_get cur gs with Some g => g | None => 0%Q end).
      destruct (pop_inv cs Hinv Hcl Hne) as (Hinv' & Hcl' & Hclosed).
      apply (IH (P ++ [cur])); try assumption.
      rewrite Hclosed.
      assert (pending (closed ++ [cur]) < pending closed).
      { apply pending_pop.
        - apply (inv_targets Hinv). left. reflexivity.
        - apply (inv_disj Hinv cur). left. reflexivity. }
      lia.
Qed.

Lemma aStar_loop_S (fuel : nat) (st : Search) :
  aStar_loop (S fuel) h goal st =
  match openSet st with
  | [] => Null
  | current :: rest =>
      if Nat.eqb current goal
      then match buildPath (length (closedSet st)) (cameFrom st) current with
           | Some p => Path p
           | None => OutOfFuel
           end
      else
        aStar_loop fuel h goal
          (relax current
                 (match map_get current (gScore st) with
                  | Some g => g
                  | None => 0%Q
                  end)
                 (links h current)
                 (mkSearch (closedSet st ++ [current]) rest
                           (cameFrom st) (gScore st)))
  end.
Proof. reflexivity. Qed.

(** The whole search from its initial state. *)
Lemma aStar_spec :
  match aStar h start goal (Some E) with
  | OutOfFuel => False
  | Null => ~ reach h E start goal
  | Path p => reach h E start goal
  end.
Proof.
  unfold aStar, budget.
  replace (length (targets h) + 2) with (S (S (length (targets h)))) by lia.
  rewrite aStar_loop_S. cbn [openSet closedSet cameFrom gScore].
  destruct (Nat.eqb_spec start goal) as [-> | Hne].
  - destruct (length E); cbn; apply reach_start.
  - set (cs := match map_get start [(start, 0%Q)] with
               | Some g => g | None => 0%Q end).
    assert (Hbase : InvBase [start] (mkSearch (E ++ [start]) [] [] [(start, 0%Q)])).
    { constructor; cbn.
      - reflexivity.
      - reflexivity.
      - constructor.
      - intros x [].
      - intros x [].
      - intros x [[] | [<- | []]]. apply reach_start.
      - intros [Heq | []]. congruence.
      - intros x [].
      - intros i x Hx. left. reflexivity. }
    destruct (relax_inv (P := [start]) 0 cs (links h start) eq_refl
                        (fun y Hy => Hy) Hbase) as (Hi & Hcl' & Ho & Hy).
    cbn in Hcl', Ho, Hy.
    apply (loop_spec (P := [start])); [assumption | |].
    + intros x y [<- | []] Hlink. rewrite Hcl'. apply Hy. assumption.
    + rewrite Hcl'. pose proof (pending_le (E ++ [start])). lia.
Qed.

End Search.

(** ** C7 *)

(** C7. [aStar] always returns; it returns [null] exactly when no path
    leads from [start] to [goal], a path being a chain of links none of
    whose nodes after [start] is on the exclusion list; otherwise it
    returns a path; and for [start = goal] it returns the one-node path,
    whatever the exclusion list. *)
Theorem aStar_null_iff_no_path
        (h : Store) (start goal : Node) (exclude : option (list Node)) :
  let E := match exclude with Some e => e | None => [] end in
  (aStar h start goal exclude = Null <-> ~ reach h E start goal) /\
  (reach h E start goal <-> exists p, aStar h start goal exclude = Path p) /\
  aStar h start goal exclude <> OutOfFuel /\
  aStar h goal goal exclude = Path [goal].
Proof.
  intros E.
  assert (Hsame : aStar h start goal exclude = aStar h start goal (Some E)).
  { destruct exclude; reflexivity. }
  pose proof (aStar_spec h start goal E) as Hspec.
  rewrite <- Hsame in Hspec.
  split; [| split; [| split]].
  - destruct (aStar h start goal exclude) as [| | p];
      [contradiction | tauto |].
    split; [discriminate | intros Hn; contradiction].
  - destruct (aStar h start goal exclude) as [| | p]; [contradiction | |].
    + split; [intros Hr; contradiction | intros (p & Hp); discriminate].
    + split; [intros _; exists p; reflexivity | intros _; assumption].
  - destruct (aStar h start goal exclude); [contradiction | |]; discriminate.
  - unfold aStar, budget.
    replace (length (targets h) + 2) with (S (S (length (targets h)))) by lia.
    rewrite aStar_loop_S. cbn [openSet closedSet cameFrom gScore].
    rewrite Nat.eqb_refl.
    destruct (length (match exclude with Some e => e | None => [] end));
      reflexivity.
Qed.

End GraphSearchFacts.

(* ===================================================================== *)
(** * Properties of gate selection *)
(* ===================================================================== *)

Module WallFacts.

Import WallCommon.
Local Open Scope nat_scope.

(** ** The draw [rng.int(0, n)] *)

Lemma next_nonneg (r : SeededRandom.t) :
  (0 <= r)%Z ->
  (0 <= fst (SeededRandom.next r) < SeededRandom.N)%Z /\
  (0 <= snd (SeededRandom.next r))%Z.
Proof.
  intros Hr. unfold SeededRandom.next. cbn [fst snd].
  assert (0 <= Z.rem (SeededRandom.to_number (r * SeededRandom.G))
                     SeededRandom.N < SeededRandom.N)%Z.
  { apply Z.rem_bound_pos; [| reflexivity].
    apply SeededRandomFacts.to_number_nonneg. unfold SeededRandom.G. lia. }
  lia.
Qed.

Lemma int_in_range (n : Z) (r : SeededRandom.t) :
  (0 <= r)%Z -> (0 < n)%Z ->
  (0 <= fst (SeededRandom.int 0 n r) < n)%Z /\
  (0 <= snd (SeededRandom.int 0 n r))%Z.
Proof.
  intros Hr Hn. unfold SeededRandom.int.
  destruct (next_nonneg Hr) as [Hv Hr'].
  destruct (SeededRandom.next r) as [v r']. cbn [fst snd] in *.
  split; [| assumption].
  set (q := (inject_Z 0 + inject_Z v / inject_Z SeededRandom.N * inject_Z (n - 0))%Q).
  assert (HN : (0 < inject_Z SeededRandom.N)%Q) by reflexivity.
  assert (Hv0 : (0 <= inject_Z v)%Q).
  { change 0%Q with (inject_Z 0). rewrite <- Zle_Qle. lia. }
  assert (HvN : (inject_Z v < inject_Z SeededRandom.N)%Q).
  { rewrite <- Zlt_Qlt. lia. }
  assert (Hf : (0 <= inject_Z v / inject_Z SeededRandom.N)%Q).
  { apply Qle_shift_div_l; [assumption | rewrite Qmult_0_l; assumption]. }
  assert (Hf1 : (inject_Z v / inject_Z SeededRandom.N < 1)%Q).
  { apply Qlt_shift_div_r; [assumption | rewrite Qmult_1_l; assumption]. }
  assert (Hn' : (0 < inject_Z n)%Q).
  { change 0%Q with (inject_Z 0). rewrite <- Zlt_Qlt. lia. }
  assert (Hq : (q == inject_Z v / inject_Z SeededRandom.N * inject_Z n)%Q).
  { unfold q. replace (n - 0)%Z with n by lia.
    change (inject_Z 0) with 0%Q. ring. }
  assert (Hq0 : (0 <= q)%Q).
  { rewrite Hq. apply Qmult_le_0_compat; [assumption | apply Qlt_le_weak; assumption]. }
  assert (Hq1 : (q < inject_Z n)%Q).
  { rewrite Hq. rewrite <- (Qmult_1_l (inject_Z n)) at 2.
    apply Qmult_lt_compat_r; assumption. }
  split.
  - change 0%Z with (Qfloor (inject_Z 0)). apply Qfloor_resp_le. assumption.
  - rewrite Zlt_Qlt. eapply Qle_lt_trans; [apply Qfloor_le | exact Hq1].
Qed.

(** ** Arrays *)

Lemma in_firstn {A} (n : nat) (l : list A) (x : A) :
  In x (firstn n l) -> In x l.
Proof.
  intros H. rewrite <- (firstn_skipn n l). apply in_or_app. left. assumption.
Qed.

Lemma in_skipn {A} (n : nat) (l : list A) (x : A) :
  In x (skipn n l) -> In x l.
Proof.
  intros H. rewrite <- (firstn_skipn n l). apply in_or_app. right. assumption.
Qed.

Lemma in_splice {A} (s c : nat) (l : list A) (x : A) :
  In x (splice s c l) -> In x l.
Proof.
  unfold splice. intros H. apply in_app_or in H.
  destruct H; [eapply in_firstn | eapply in_skipn]; eassumption.
Qed.

Lemma in_pop {A} (l : list A) (x : A) : In x (pop l) -> In x l.
Proof.
  unfold pop. rewrite removelast_firstn_len. apply in_firstn.
Qed.

Lemma in_shift {A} (l : list A) (x : A) : In x (shift l) -> In x l.
Proof. destruct l; cbn; [intros [] | intros H; right; assumption]. Qed.

Lemma length_splice {A} (s c : nat) (l : list A) :
  length (splice s c l) = Nat.min s (length l) + (length l - (s + c)).
Proof. unfold splice. rewrite length_app, length_firstn, length_skipn. reflexivity. Qed.

Lemma length_pop {A} (l : list A) : length (pop l) = length l - 1.
Proof.
  unfold pop. rewrite removelast_firstn_len, length_firstn. lia.
Qed.

Lemma length_shift {A} (l : list A) : length (shift l) = length l - 1.
Proof. destruct l; cbn; lia. Qed.

Section WithWorld.

Variable World : Type.
Variable splitOuter : Point -> World -> World.
Variable smoothGate : Point -> World -> World.

(** ** One selection *)

Lemma selectGate_spec (real : bool) (index : nat) (s : Selection World) :
  index < length (entrances s) ->
  let s' := selectGate splitOuter real index s in
  (exists v, nth_error (entrances s) index = Some v /\
             gates s' = gates s ++ [Some v]) /\
  length (entrances s') < length (entrances s) /\
  (forall x, In x (entrances s') -> In x (entrances s)) /\
  rng s' = rng s.
Proof.
  intros Hidx. cbv zeta. unfold selectGate. cbn [gates entrances rng].
  split; [| split; [| split; [| reflexivity]]].
  - destruct (nth_error (entrances s) index) as [v |] eqn:Hnth.
    + exists v. split; reflexivity.
    + apply nth_error_None in Hnth. lia.
  - destruct (Nat.eqb_spec index 0) as [-> | Hne0].
    + rewrite length_pop, length_splice. lia.
    + destruct (Nat.eqb_spec index (length (entrances s) - 1)).
      * rewrite length_shift, length_splice. lia.
      * rewrite length_splice. lia.
  - intros x.
    destruct (Nat.eqb index 0).
    + intros H. apply in_pop, in_splice in H. assumption.
    + destruct (Nat.eqb index (length (entrances s) - 1)).
      * intros H. apply in_shift, in_splice in H. assumption.
      * apply in_splice.
Qed.

Lemma selectRandom_spec (real : bool) (s : Selection World) :
  (0 <= rng s)%Z -> entrances s <> [] ->
  let s' := selectRandom splitOuter real s in
  (exists v, In v (entrances s) /\ gates s' = gates s ++ [Some v]) /\
  length (entrances s') < length (entrances s) /\
  (forall x, In x (entrances s') -> In x (entrances s)) /\
  (0 <= rng s')%Z.
Proof.
  intros Hr Hne. cbv zeta. unfold selectRandom.
  assert (Hlen : (0 < Z.of_nat (length (entrances s)))%Z).
  { destruct (entrances s); [contradiction | cbn; lia]. }
  destruct (int_in_range Hr Hlen) as [Hi Hr'].
  destruct (SeededRandom.int 0 (Z.of_nat (length (entrances s))) (rng s))
    as [index r]. cbn [fst snd] in *.
  destruct (@selectGate_spec real (Z.to_nat index)
              (mkSelection (gates s) (entrances s) (world s) r))
    as ((v & Hv & Hg) & Hl & Hin & Hrng); [cbn; lia |].
  cbn [gates entrances rng] in *.
  split; [| split; [| split]]; try assumption.
  exists v. split; [eapply nth_error_In; eassumption | assumption].
Qed.

(** What is true of the gates at every point of a selection: each one is
    a vertex taken from the candidates. *)
Definition gates_from (cands : list Point) (gs : list (option Point)) : Prop :=
  Forall (fun g => exists v, g = Some v /\ In v cands) gs.

Lemma gates_from_snoc (cands : list Point) (gs : list (option Point)) (v : Point) :
  gates_from cands gs -> In v cands -> gates_from cands (gs ++ [Some v]).
Proof.
  intros Hgs Hv. apply Forall_app. split; [assumption |].
  constructor; [| constructor]. exists v. split; [reflexivity | assumption].
Qed.

(** ** The original loop *)

Lemma selectLoop_spec (real : bool) (cands : list Point) (fuel : nat) :
  forall s : Selection World,
    (0 <= rng s)%Z -> entrances s <> [] ->
    length (entrances s) <= fuel ->
    gates_from cands (gates s) ->
    (forall x, In x (entrances s) -> In x cands) ->
    exists s', CurtainWallOriginal.selectLoop splitOuter fuel real s = Some s' /\
               gates s' <> [] /\ gates_from cands (gates s') /\
               length (entrances s') < 3.
Proof.
  induction fuel as [| fuel IH]; intros s Hr Hne Hlen Hgs Hsub.
  - destruct (entrances s); [contradiction | cbn in Hlen; lia].
  - cbn [CurtainWallOriginal.selectLoop].
    destruct (@selectRandom_spec real s Hr Hne) as ((v & Hv & Hg) & Hl & Hin & Hr').
    set (s1 := selectRandom splitOuter real s) in *.
    assert (Hgs1 : gates_from cands (gates s1)).
    { rewrite Hg. apply gates_from_snoc; [assumption | apply Hsub; assumption]. }
    destruct (Nat.leb_spec 3 (length (entrances s1))) as [H3 | H3].
    + apply IH; try assumption; try lia.
      * intros Hnil. rewrite Hnil in H3. cbn in H3. lia.
      * intros x Hx. apply Hsub, Hin. assumption.
    + exists s1. split; [reflexivity |]. split; [| split; assumption].
      rewrite Hg. intros Habs. apply app_eq_nil in Habs.
      destruct Habs as [_ Habs]. discriminate.
Qed.

(** The original revision: with at least one candidate, gates are
    selected and the build does not fail; with none, it fails. *)
Lemma original_gate_lower_bound (real : bool) (patches : list Polygon)
      (shape : Polygon) (reserved : list Point) (w : World)
      (r : SeededRandom.t) :
  (0 <= r)%Z ->
  let cands := entrance_candidates patches shape reserved in
  let res := CurtainWallOriginal.buildGates splitOuter smoothGate real
               patches shape reserved w r in
  (cands = [] <-> res = BadWalledAreaShape) /\
  (cands <> [] ->
   exists s, res = Built s /\ gates s <> [] /\ gates_from cands (gates s)).
Proof.
  intros Hr cands res. subst res. unfold CurtainWallOriginal.buildGates.
  fold cands. destruct cands as [| c cs] eqn:Hc.
  - split; [split; reflexivity | intros Hne; contradiction].
  - destruct (@selectLoop_spec real (c :: cs) (length (c :: cs))
                (mkSelection [] (c :: cs) w r))
      as (s' & Hloop & Hg & Hfrom & _); cbn [gates entrances rng];
      try assumption; try discriminate; try lia; try (intros; assumption).
    { constructor. }
    rewrite Hloop. unfold finish.
    destruct (gates s') as [| g gs] eqn:Hgs; [contradiction |].
    split.
    + split; discriminate.
    + intros _. eexists. split; [reflexivity |]. cbn [gates].
      split; [discriminate | assumption].
Qed.

(** ** The revision with road entry points *)

Variable atan2 : Q -> Q -> Q.
Variable PI : Q.
Variable coord : Point -> Q * Q.

Lemma nearest_range (t : Q) (es : list Point) :
  forall i b d,
    CurtainWall.nearest atan2 PI coord t es i b d = b \/
    i <= CurtainWall.nearest atan2 PI coord t es i b d < i + length es.
Proof.
  induction es as [| v es IH]; intros i b d; cbn [CurtainWall.nearest].
  - left. reflexivity.
  - cbv zeta.
    match goal with
    | |- context [if ?c then CurtainWall.nearest _ _ _ _ _ _ i _ else _] =>
        destruct c
    end.
    + destruct (IH (S i) i (Some
                 (if Qlt_le_dec PI (Qabs (atan2 (snd (coord v)) (fst (coord v)) - t))
                  then (2 * PI - Qabs (atan2 (snd (coord v)) (fst (coord v)) - t))%Q
                  else Qabs (atan2 (snd (coord v)) (fst (coord v)) - t))))
        as [-> | H]; right; cbn [length]; lia.
    + destruct (IH (S i) b d) as [-> | H]; [left; reflexivity |].
      right. cbn [length]. lia.
Qed.

Lemma placeAtBearings_spec (real : bool) (cands : list Point)
      (angles : list (Q * nat)) :
  forall s : Selection World,
    gates_from cands (gates s) ->
    (forall x, In x (entrances s) -> In x cands) ->
    let s' := CurtainWall.placeAtBearings splitOuter atan2 PI coord
                real angles s in
    gates_from cands (gates s') /\
    (forall x, In x (entrances s') -> In x cands) /\
    rng s' = rng s /\
    length (entrances s') <= length (entrances s) /\
    (gates s <> [] -> gates s' <> []) /\
    (angles <> [] -> entrances s <> [] -> gates s' <> []).
Proof.
  induction angles as [| [t k] angles IH]; intros s Hgs Hsub;
    cbn [CurtainWall.placeAtBearings]; cbv zeta.
  - split; [assumption |]. split; [assumption |]. split; [reflexivity |].
    split; [lia |]. split; [tauto | intros H; contradiction].
  - destruct (Nat.ltb_spec (length (entrances s)) 1) as [Hlt | Hge].
    + split; [assumption |]. split; [assumption |]. split; [reflexivity |].
      split; [lia |]. split; [tauto |].
      intros _ Hne. destruct (entrances s); [contradiction | cbn in Hlt; lia].
    + set (idx := CurtainWall.nearest atan2 PI coord t (entrances s) 0 0 None).
      assert (Hidx : idx < length (entrances s)).
      { destruct (nearest_range t (entrances s) 0 0 None) as [H | H];
          fold idx in H; lia. }
      destruct (@selectGate_spec real idx s Hidx)
        as ((v & Hv & Hg) & Hl & Hin & Hrng).
      set (s1 := selectGate splitOuter real idx s) in *.
      assert (Hgs1 : gates_from cands (gates s1)).
      { rewrite Hg. apply gates_from_snoc; [assumption |].
        apply Hsub. eapply nth_error_In. eassumption. }
      assert (Hsub1 : forall x, In x (entrances s1) -> In x cands).
      { intros x Hx. apply Hsub, Hin. assumption. }
      assert (Hne1 : gates s1 <> []).
      { rewrite Hg. intros Habs. apply app_eq_nil in Habs.
        destruct Habs as [_ Habs]. discriminate. }
      destruct (IH s1 Hgs1 Hsub1) as (H1 & H2 & H3 & H4 & H5 & _).
      split; [assumption |]. split; [assumption |].
      split; [congruence |]. split; [lia |].
      split; intros; apply H5; assumption.
Qed.

Lemma fillRandom_spec (real : bool) (cands : list Point) (fuel : nat) :
  forall s : Selection World,
    (0 <= rng s)%Z ->
    length (entrances s) <= fuel ->
    gates_from cands (gates s) ->
    (forall x, In x (entrances s) -> In x cands) ->
    exists s', CurtainWall.fillRandom splitOuter fuel real s = Some s' /\
               gates_from cands (gates s') /\
               (gates s <> [] \/ 3 <= length (entrances s) -> gates s' <> []) /\
               (length (entrances s) < 3 -> s' = s).
Proof.
  induction fuel as [| fuel IH]; intros s Hr Hlen Hgs Hsub.
  - exists s. assert (Hz : length (entrances s) = 0) by lia.
    cbn [CurtainWall.fillRandom]. rewrite Hz. cbn.
    split; [reflexivity |]. split; [assumption |].
    split; [intros [H | H]; [assumption | lia] | reflexivity].
  - cbn [CurtainWall.fillRandom].
    destruct (Nat.leb_spec 3 (length (entrances s))) as [H3 | H3].
    + assert (Hne : entrances s <> []).
      { intros Hnil. rewrite Hnil in H3. cbn in H3. lia. }
      destruct (@selectRandom_spec real s Hr Hne)
        as ((v & Hv & Hg) & Hl & Hin & Hr').
      set (s1 := selectRandom splitOuter real s) in *.
      destruct (IH s1) as (s' & Hrun & Hfrom & Hgates & _);
        try assumption; try lia.
      * rewrite Hg. apply gates_from_snoc; [assumption | apply Hsub; assumption].
      * intros x Hx. apply Hsub, Hin. assumption.
      * exists s'. split; [assumption |]. split; [assumption |].
        split; [| lia].
        intros _. apply Hgates. left. rewrite Hg. intros Habs.
        apply app_eq_nil in Habs. destruct Habs as [_ Habs]. discriminate.
    + exists s. split; [reflexivity |]. split; [assumption |].
      split; [intros [H | H]; [assumption | lia] | reflexivity].
Qed.

(** No bearing is supplied: [roadEntryPoints] is absent or empty. *)
Definition no_bearings (roadEntryPoints : option (list (Q * Q))) : bool :=
  match roadEntryPoints with
  | Some (_ :: _) => false
  | _ => true
  end.

Lemma sort_angles_nonempty (l : list (Q * nat)) :
  l <> [] -> CurtainWall.sort_angles l <> [].
Proof.
  unfold CurtainWall.sort_angles.
  assert (Hins : forall a acc, CurtainWall.insert_angle a acc <> []).
  { intros a acc. destruct acc as [| b acc]; cbn; [discriminate |].
    destruct (Qle_bool (fst b) (fst a)); discriminate. }
  assert (Hfold : forall l acc, acc <> [] ->
            fold_left (fun acc a => CurtainWall.insert_angle a acc) l acc <> []).
  { induction l0 as [| a l0 IH]; intros acc Hacc; cbn; [assumption |].
    apply IH. apply Hins. }
  destruct l as [| a l]; [intros H; contradiction | intros _].
  cbn [fold_left]. apply Hfold. apply Hins.
Qed.

(** The revision fails exactly when there is no candidate, or when there
    are fewer than three and no bearing was supplied; otherwise it
    selects at least one gate among the candidates. *)
Lemma revised_gate_outcome (real : bool) (patches : list Polygon)
      (shape : Polygon) (reserved : list Point) (w : World)
      (r : SeededRandom.t) (roadEntryPoints : option (list (Q * Q))) :
  (0 <= r)%Z ->
  let cands := entrance_candidates patches shape reserved in
  let res := CurtainWall.buildGates splitOuter smoothGate atan2 PI coord
               real patches shape reserved w r roadEntryPoints in
  (res = BadWalledAreaShape <->
   cands = [] \/ (length cands < 3 /\ no_bearings roadEntryPoints = true)) /\
  res <> OutOfFuel /\
  (forall s, res = Built s -> gates s <> [] /\ gates_from cands (gates s)).
Proof.
  intros Hr cands res. subst res. unfold CurtainWall.buildGates.
  fold cands. destruct cands as [| c cs] eqn:Hc.
  - split; [split; [intros _; left; reflexivity | reflexivity] |].
    split; [discriminate | intros s Hs; discriminate].
  - set (s0 := mkSelection [] (c :: cs) w r).
    set (s1 := match roadEntryPoints with
               | Some (p :: ps) =>
                   CurtainWall.placeAtBearings splitOuter atan2 PI coord real
                     (CurtainWall.sort_angles
                        (CurtainWall.entry_angles atan2 0 (p :: ps))) s0
               | _ => s0
               end).
    assert (Hs0 : gates_from (c :: cs) (gates s0)) by constructor.
    assert (Hsub0 : forall x, In x (entrances s0) -> In x (c :: cs))
      by (intros x Hx; exact Hx).
    assert (Hs1 : gates_from (c :: cs) (gates s1) /\
                  (forall x, In x (entrances s1) -> In x (c :: cs)) /\
                  rng s1 = r /\
                  length (entrances s1) <= length (c :: cs) /\
                  (no_bearings roadEntryPoints = false -> gates s1 <> []) /\
                  (no_bearings roadEntryPoints = true -> s1 = s0)).
    { subst s1. destruct roadEntryPoints as [[| p ps] |]; cbn [no_bearings];
        try (split; [assumption |]; split; [assumption |];
             split; [reflexivity |]; split; [cbn; lia |];
             split; [discriminate | reflexivity]).
      destruct (@placeAtBearings_spec real (c :: cs)
                  (CurtainWall.sort_angles
                     (CurtainWall.entry_angles atan2 0 (p :: ps))) s0 Hs0 Hsub0)
        as (H1 & H2 & H3 & H4 & _ & H6).
      split; [assumption |]. split; [assumption |]. split; [assumption |].
      split; [assumption |]. split; [| discriminate].
      intros _. apply H6; [| discriminate].
      apply sort_angles_nonempty. destruct p. discriminate. }
    destruct Hs1 as (Hg1 & Hsub1 & Hr1 & Hl1 & Hb1 & Hnb1).
    destruct (@fillRandom_spec real (c :: cs) (length (c :: cs)) s1)
      as (s' & Hrun & Hfrom & Hgates & Hsame); try assumption;
      [rewrite Hr1; assumption |].
    rewrite Hrun. unfold finish.
    destruct (gates s') as [| g gs] eqn:Hgs.
    + split; [| split; [discriminate | intros s Hs; discriminate]].
      split; [intros _ | reflexivity]. right.
      destruct (no_bearings roadEntryPoints) eqn:Hnb.
      * destruct (Nat.lt_ge_cases (length (c :: cs)) 3) as [Hlt | Hge];
          [split; [assumption | reflexivity] |].
        exfalso. apply Hgates; [| reflexivity]. right.
        rewrite (Hnb1 eq_refl). exact Hge.
      * exfalso. apply Hgates; [| reflexivity]. left. apply Hb1. reflexivity.
    + split; [| split; [discriminate |]].
      * split; [discriminate |].
        intros [Habs | [Hlt Hnb]]; [discriminate |].
        exfalso. rewrite (Hnb1 Hnb) in Hsame.
        specialize (Hsame Hlt). rewrite Hsame in Hgs. discriminate.
      * intros s Hs. injection Hs as <-. cbn [gates].
        split; [discriminate | assumption].
Qed.

End WithWorld.

(** ** C2 *)

(** C2, on the revision with road entry points.  A castle wall around one
    four-vertex patch, two of whose vertices are reserved, has two
    entrance candidates; with no bearing supplied the [while] loop does
    not run, no gate is selected, and the build fails with "Bad walled
    area shape!", whereas the original [do ... while] loop selects a gate
    on the same input. *)
Theorem buildGates_few_candidates_selects_no_gate
        (World : Type) (splitOuter smoothGate : Point -> World -> World)
        (atan2 : Q -> Q -> Q) (PI : Q) (coord : Point -> Q * Q) (w : World) :
  let patch := [0; 1; 2; 3] in
  let reserved := [0; 1] in
  let r := SeededRandom.new (Some 42%Z) 0%Z in
  entrance_candidates [patch] patch reserved = [2; 3] /\
  CurtainWall.buildGates splitOuter smoothGate atan2 PI coord
    true [patch] patch reserved w r None = BadWalledAreaShape /\
  exists s,
    CurtainWallOriginal.buildGates splitOuter smoothGate
      true [patch] patch reserved w r = Built s /\
    gates s <> [] /\ gates_from [2; 3] (gates s).
Proof.
  cbv zeta. split; [reflexivity |]. split; [reflexivity |].
  destruct (@original_gate_lower_bound World splitOuter smoothGate true
              [[0; 1; 2; 3]] [0; 1; 2; 3] [0; 1] w
              (SeededRandom.new (Some 42%Z) 0%Z)) as [_ H].
  - cbn. lia.
  - apply H. discriminate.
Qed.

End WallFacts.

(* ===================================================================== *)
(** * The shoelace sum and its splitting *)
(* ===================================================================== *)

Module AreaFacts.

Local Open Scope Q_scope.
Unset Implicit Arguments.

(** One term of [Polygon.square]: [v1.x * v2.y - v2.x * v1.y]. *)
Definition term (a b : Q * Q) : Q := fst a * snd b - fst b * snd a.

(** The [for] loop of [square] on coordinates. *)
Fixpoint area_loop (c2 : Q * Q) (rest : list (Q * Q)) (s : Q) : Q :=
  match rest with
  | [] => s
  | c :: rest' => area_loop c rest' (s + (fst c2 * snd c - fst c * snd c2))
  end.

(** [square] on coordinates. *)
Definition area (cs : list (Q * Q)) : Q :=
  if (length cs <? 3)%nat then 0
  else match nth_error cs (length cs - 1), nth_error cs 0 with
       | Some c1, Some c2 =>
           area_loop c2 (tl cs) (fst c1 * snd c2 - fst c2 * snd c1) * (1 # 2)
       | _, _ => 0
       end.

(** The sum of the terms along an open chain of corners, and around a
    closed one. *)
Fixpoint chain (l : list (Q * Q)) : Q :=
  match l with
  | a :: (b :: _) as t => term a b + chain t
  | _ => 0
  end.

Definition origin : Q * Q := (0, 0).

Definition cyc (l : list (Q * Q)) : Q :=
  chain l + term (last l origin) (hd origin l).

(** [p] lies on the line through [a] and [b]. *)
Definition on_line (a b p : Q * Q) : Prop :=
  (fst b - fst a) * (snd p - snd a) - (snd b - snd a) * (fst p - fst a) == 0.

Lemma area_loop_chain (rest : list (Q * Q)) :
  forall c2 s, area_loop c2 rest s == s + chain (c2 :: rest).
Proof.
  induction rest as [| c rest IH]; intros c2 s.
  - cbn. ring.
  - cbn [area_loop]. rewrite IH.
    change (chain (c2 :: c :: rest)) with (term c2 c + chain (c :: rest)).
    unfold term. ring.
Qed.

Lemma chain_cons (a b : Q * Q) (l : list (Q * Q)) :
  chain (a :: b :: l) = term a b + chain (b :: l).
Proof. reflexivity. Qed.

Lemma chain_app (X Y : list (Q * Q)) :
  X <> [] -> Y <> [] ->
  chain (X ++ Y) == chain X + term (last X origin) (hd origin Y) + chain Y.
Proof.
  intros HX HY. induction X as [| a X IH]; [contradiction |].
  destruct X as [| b X].
  - destruct Y as [| y Y]; [contradiction |].
    cbn [app last hd]. rewrite chain_cons. cbn [chain]. ring.
  - change ((a :: b :: X) ++ Y) with (a :: (b :: X) ++ Y).
    change ((b :: X) ++ Y) with (b :: X ++ Y) at 1.
    rewrite chain_cons.
    change (b :: X ++ Y) with ((b :: X) ++ Y).
    rewrite IH by discriminate.
    rewrite chain_cons.
    change (last (a :: b :: X) origin) with (last (b :: X) origin).
    ring.
Qed.

Lemma last_app_nonempty (X Y : list (Q * Q)) :
  Y <> [] -> last (X ++ Y) origin = last Y origin.
Proof.
  intros HY. induction X as [| a X IH]; [reflexivity |].
  cbn [app]. destruct (X ++ Y) eqn:H.
  - apply app_eq_nil in H. destruct H. contradiction.
  - cbn [last]. exact IH.
Qed.

Lemma cyc_app (X Y : list (Q * Q)) :
  X <> [] -> Y <> [] ->
  cyc (X ++ Y) ==
  chain X + term (last X origin) (hd origin Y) +
  chain Y + term (last Y origin) (hd origin X).
Proof.
  intros HX HY. unfold cyc.
  rewrite (chain_app X Y HX HY), (last_app_nonempty X Y HY).
  destruct X; [contradiction |]. cbn [app hd]. ring.
Qed.

Lemma cyc_rotate (X Y : list (Q * Q)) : cyc (X ++ Y) == cyc (Y ++ X).
Proof.
  destruct X as [| x X]; [rewrite app_nil_r; reflexivity |].
  destruct Y as [| y Y]; [rewrite app_nil_r; reflexivity |].
  rewrite (cyc_app (x :: X) (y :: Y)) by discriminate.
  rewrite (cyc_app (y :: Y) (x :: X)) by discriminate.
  ring.
Qed.

Lemma nth_error_last (l : list (Q * Q)) :
  l <> [] -> nth_error l (length l - 1) = Some (last l origin).
Proof.
  intros Hl. destruct (exists_last Hl) as (l' & a & ->).
  rewrite length_app, last_last. cbn [length].
  rewrite nth_error_app2 by lia.
  replace (length l' + 1 - 1 - length l')%nat with 0%nat by lia. reflexivity.
Qed.

(** [square] is half the closed sum, also below three corners, where the
    closed sum vanishes. *)
Lemma area_cyc (cs : list (Q * Q)) : area cs == cyc cs * (1 # 2).
Proof.
  unfold area. destruct (Nat.ltb_spec (length cs) 3) as [Hlt | Hge].
  - destruct cs as [| a [| b [| c cs]]];
      [| | | exfalso; cbn [length] in Hlt; lia];
      unfold cyc, term; cbn [chain last hd fst snd]; unfold term; ring.
  - assert (Hne : cs <> []) by (intros ->; cbn in Hge; lia).
    rewrite (nth_error_last cs Hne).
    destruct cs as [| c0 cs]; [contradiction |].
    cbn [nth_error tl]. rewrite area_loop_chain.
    unfold cyc, term. cbn [hd]. ring.
Qed.

Lemma on_line_term (a b p : Q * Q) :
  on_line a b p -> term a p + term p b == term a b.
Proof.
  unfold on_line, term. intros H.
  assert (Hd : fst a * snd p - fst p * snd a + (fst p * snd b - fst b * snd p)
               - (fst a * snd b - fst b * snd a)
               == - ((fst b - fst a) * (snd p - snd a) -
                     (snd b - snd a) * (fst p - fst a))) by ring.
  rewrite H in Hd.
  apply Qplus_inj_r with (z := - (fst a * snd b - fst b * snd a)).
  rewrite Qplus_opp_r. exact Hd.
Qed.

(** Cutting the closed chain [X ++ Y] by a chord from [p], on the edge
    from [Y] to [X], to [q], on the edge from [X] to [Y]: the closed sums
    of the two parts add up to the closed sum of the whole. *)
Lemma cyc_split (X Y : list (Q * Q)) (p q : Q * Q) :
  X <> [] -> Y <> [] ->
  on_line (last Y origin) (hd origin X) p ->
  on_line (last X origin) (hd origin Y) q ->
  cyc (p :: X ++ [q]) + cyc (q :: Y ++ [p]) == cyc (X ++ Y).
Proof.
  intros HX HY Hp Hq.
  pose proof (on_line_term _ _ _ Hp) as Ep.
  pose proof (on_line_term _ _ _ Hq) as Eq.
  rewrite (cyc_app X Y HX HY).
  change (p :: X ++ [q]) with ([p] ++ (X ++ [q])).
  change (q :: Y ++ [p]) with ([q] ++ (Y ++ [p])).
  assert (HXq : X ++ [q] <> []) by (destruct X; discriminate).
  assert (HYp : Y ++ [p] <> []) by (destruct Y; discriminate).
  rewrite (cyc_app [p] (X ++ [q])) by (discriminate || assumption).
  rewrite (cyc_app [q] (Y ++ [p])) by (discriminate || assumption).
  rewrite (chain_app X [q]) by (discriminate || assumption).
  rewrite (chain_app Y [p]) by (discriminate || assumption).
  rewrite !last_last.
  assert (HhX : hd origin (X ++ [q]) = hd origin X) by (destruct X; [contradiction | reflexivity]).
  assert (HhY : hd origin (Y ++ [p]) = hd origin Y) by (destruct Y; [contradiction | reflexivity]).
  rewrite HhX, HhY. cbn [chain last hd].
  rewrite <- Ep, <- Eq. unfold term. ring.
Qed.

Set Implicit Arguments.

End AreaFacts.

(* ===================================================================== *)
(** * Properties of [cut] and [createAlleys] *)
(* ===================================================================== *)

Module GeomFacts.

Import Geom AreaFacts.
Local Open Scope Q_scope.
Unset Implicit Arguments.

(** ** Running a computation *)

(** [m] started in [s] returns, with a value and a store that satisfy
    [post]. *)
Definition runs {A} (m : M A) (s : Store) (post : A -> Store -> Prop) : Prop :=
  match m s with
  | Val a s' => post a s'
  | TypeError => False
  | OutOfFuel => False
  end.

Lemma runs_ret {A} (a : A) (s : Store) (post : A -> Store -> Prop) :
  post a s -> runs (ret a) s post.
Proof. intros H. exact H. Qed.

Lemma runs_bind {A B} (m : M A) (k : A -> M B) (s : Store)
      (mid : A -> Store -> Prop) (post : B -> Store -> Prop) :
  runs m s mid ->
  (forall a s1, mid a s1 -> runs (k a) s1 post) ->
  runs (bind m k) s post.
Proof.
  unfold runs, bind. intros Hm Hk.
  destruct (m s) as [a s1 | |]; try contradiction.
  apply (Hk a s1 Hm).
Qed.

Lemma runs_weaken {A} (m : M A) (s : Store) (post post' : A -> Store -> Prop) :
  runs m s post -> (forall a s', post a s' -> post' a s') -> runs m s post'.
Proof.
  unfold runs. intros Hm Himp. destruct (m s); try contradiction.
  apply Himp. assumption.
Qed.

Lemma runs_val {A} (m : M A) (s : Store) (post : A -> Store -> Prop) :
  runs m s post -> exists a s', m s = Val a s' /\ post a s'.
Proof.
  unfold runs. destruct (m s) as [a s' | |]; try contradiction.
  intros H. exists a, s'. split; [reflexivity | assumption].
Qed.

Lemma val_runs {A} (m : M A) (s : Store) (a : A) (s' : Store)
      (post : A -> Store -> Prop) :
  m s = Val a s' -> runs m s post -> post a s'.
Proof. unfold runs. intros ->. trivial. Qed.

(** ** Stores *)

Definition pt (s : Store) (p : Point) : option (Q * Q) :=
  nth_error (points s) p.

Definition poly (s : Store) (P : Polygon) : option (list Point) :=
  nth_error (polygons s) P.

(** [s'] has every object of [s], unchanged, and the same generator
    state; it may have more objects. *)
Definition ext (s s' : Store) : Prop :=
  (exists ps, points s' = points s ++ ps) /\
  (exists qs, polygons s' = polygons s ++ qs) /\
  seed s' = seed s.

Lemma ext_refl (s : Store) : ext s s.
Proof.
  split; [exists []; symmetry; apply app_nil_r |].
  split; [exists []; symmetry; apply app_nil_r | reflexivity].
Qed.

Lemma ext_trans (s1 s2 s3 : Store) : ext s1 s2 -> ext s2 s3 -> ext s1 s3.
Proof.
  intros ((ps & Hp) & (qs & Hq) & Hs) ((ps' & Hp') & (qs' & Hq') & Hs').
  split; [exists (ps ++ ps'); rewrite Hp', Hp, app_assoc; reflexivity |].
  split; [exists (qs ++ qs'); rewrite Hq', Hq, app_assoc; reflexivity |].
  congruence.
Qed.

Lemma ext_pt (s s' : Store) (p : Point) (c : Q * Q) :
  ext s s' -> pt s p = Some c -> pt s' p = Some c.
Proof.
  intros ((ps & Hp) & _) H. unfold pt in *. rewrite Hp.
  rewrite nth_error_app1; [assumption |].
  apply nth_error_Some. congruence.
Qed.

Lemma ext_poly (s s' : Store) (P : Polygon) (vs : list Point) :
  ext s s' -> poly s P = Some vs -> poly s' P = Some vs.
Proof.
  intros (_ & (qs & Hq) & _) H. unfold poly in *. rewrite Hq.
  rewrite nth_error_app1; [assumption |].
  apply nth_error_Some. congruence.
Qed.

Lemma ext_points_length (s s' : Store) :
  ext s s' -> (length (points s) <= length (points s'))%nat.
Proof. intros ((ps & Hp) & _). rewrite Hp, length_app. lia. Qed.

Lemma ext_polygons_length (s s' : Store) :
  ext s s' -> (length (polygons s) <= length (polygons s'))%nat.
Proof. intros (_ & (qs & Hq) & _). rewrite Hq, length_app. lia. Qed.

(** The vertices [vs] are points of [s] with the coordinates [cs]. *)
Definition located (s : Store) (vs : list Point) (cs : list (Q * Q)) : Prop :=
  Forall2 (fun v c => pt s v = Some c) vs cs.

Lemma ext_located (s s' : Store) (vs : list Point) (cs : list (Q * Q)) :
  ext s s' -> located s vs cs -> located s' vs cs.
Proof.
  intros He H. induction H; constructor; [eapply ext_pt; eassumption | assumption].
Qed.

Lemma located_nth (s : Store) (vs : list Point) (cs : list (Q * Q)) (i : nat)
      (v : Point) :
  located s vs cs -> nth_error vs i = Some v ->
  exists c, nth_error cs i = Some c /\ pt s v = Some c.
Proof.
  intros H. revert i. induction H as [| v0 c0 vs cs Hv H IH]; intros i Hi.
  - destruct i; discriminate.
  - destruct i as [| i]; cbn in *.
    + injection Hi as <-. exists c0. split; [reflexivity | assumption].
    + apply IH. assumption.
Qed.

Lemma located_length (s : Store) (vs : list Point) (cs : list (Q * Q)) :
  located s vs cs -> length cs = length vs.
Proof. intros H. symmetry. eapply Forall2_length. eassumption. Qed.

Lemma located_app (s : Store) (vs vs' : list Point) (cs cs' : list (Q * Q)) :
  located s vs cs -> located s vs' cs' -> located s (vs ++ vs') (cs ++ cs').
Proof. intros H H'. apply Forall2_app; assumption. Qed.

Lemma located_firstn (s : Store) (n : nat) (vs : list Point) (cs : list (Q * Q)) :
  located s vs cs -> located s (firstn n vs) (firstn n cs).
Proof.
  intros H. revert n. unfold located.
  induction H as [| v c vs cs Hv H IH]; intros [| n]; cbn; try constructor;
    [assumption | apply IH].
Qed.

Lemma located_skipn (s : Store) (n : nat) (vs : list Point) (cs : list (Q * Q)) :
  located s vs cs -> located s (skipn n vs) (skipn n cs).
Proof.
  intros H. revert n. unfold located.
  induction H as [| v c vs cs Hv H IH]; intros [| n]; cbn; try constructor;
    [assumption | assumption | apply IH].
Qed.

Lemma located_slice (s : Store) (a b : nat) (vs : list Point) (cs : list (Q * Q)) :
  located s vs cs -> located s (slice a b vs) (slice a b cs).
Proof. intros H. apply located_firstn, located_skipn. assumption. Qed.

(** Every vertex of [vs] is a point of [s]. *)
Definition valid_points (s : Store) (vs : list Point) : Prop :=
  Forall (fun v => (v < length (points s))%nat) vs.

Lemma valid_located (s : Store) (vs : list Point) :
  valid_points s vs -> exists cs, located s vs cs.
Proof.
  intros H. induction H as [| v vs Hv H (cs & IH)].
  - exists []. constructor.
  - destruct (nth_error (points s) v) as [c |] eqn:Hc.
    + exists (c :: cs). constructor; assumption.
    + apply nth_error_None in Hc. lia.
Qed.

Lemma located_valid (s : Store) (vs : list Point) (cs : list (Q * Q)) :
  located s vs cs -> valid_points s vs.
Proof.
  intros H. induction H as [| v c vs cs Hv H IH]; constructor; [| assumption].
  apply nth_error_Some. unfold pt in Hv. congruence.
Qed.

(** ** Steps of a computation *)

Lemma step_get_x {B} (p : Point) (c : Q * Q) (k : Q -> M B) (s : Store)
      (post : B -> Store -> Prop) :
  pt s p = Some c -> runs (k (fst c)) s post -> runs (bind (get_x p) k) s post.
Proof. unfold runs, bind, get_x, pt. intros ->. trivial. Qed.

Lemma step_get_y {B} (p : Point) (c : Q * Q) (k : Q -> M B) (s : Store)
      (post : B -> Store -> Prop) :
  pt s p = Some c -> runs (k (snd c)) s post -> runs (bind (get_y p) k) s post.
Proof. unfold runs, bind, get_y, pt. intros ->. trivial. Qed.

Lemma step_the {A B} (o : option A) (a : A) (k : A -> M B) (s : Store)
      (post : B -> Store -> Prop) :
  o = Some a -> runs (k a) s post -> runs (bind (the o) k) s post.
Proof. unfold runs, bind, the. intros ->. trivial. Qed.

Lemma step_get_vertices {B} (P : Polygon) (vs : list Point)
      (k : list Point -> M B) (s : Store) (post : B -> Store -> Prop) :
  poly s P = Some vs -> runs (k vs) s post ->
  runs (bind (get_vertices P) k) s post.
Proof. unfold runs, bind, get_vertices, poly. intros ->. trivial. Qed.

Lemma step_ret {A B} (a : A) (k : A -> M B) (s : Store)
      (post : B -> Store -> Prop) :
  runs (k a) s post -> runs (bind (ret a) k) s post.
Proof. trivial. Qed.

(** The store after [new Point(x, y)]. *)
Definition alloc (s : Store) (c : Q * Q) : Store :=
  mkStore (points s ++ [c]) (polygons s) (seed s).

Lemma step_Point_new {B} (x y : Q) (k : Point -> M B) (s : Store)
      (post : B -> Store -> Prop) :
  runs (k (length (points s))) (alloc s (x, y)) post ->
  runs (bind (Point_new x y) k) s post.
Proof. trivial. Qed.

Lemma ext_alloc (s : Store) (c : Q * Q) : ext s (alloc s c).
Proof.
  split; [exists [c]; reflexivity |].
  split; [exists []; symmetry; apply app_nil_r | reflexivity].
Qed.

Lemma pt_alloc (s : Store) (c : Q * Q) :
  pt (alloc s c) (length (points s)) = Some c.
Proof.
  unfold pt, alloc. cbn. rewrite nth_error_app2 by lia.
  rewrite Nat.sub_diag. reflexivity.
Qed.

(** The store after [new Polygon(vs)]. *)
Definition alloc_poly (s : Store) (vs : list Point) : Store :=
  mkStore (points s) (polygons s ++ [vs]) (seed s).

Lemma ext_alloc_poly (s : Store) (vs : list Point) : ext s (alloc_poly s vs).
Proof.
  split; [exists []; symmetry; apply app_nil_r |].
  split; [exists [vs]; reflexivity | reflexivity].
Qed.

Lemma poly_alloc_poly (s : Store) (vs : list Point) :
  poly (alloc_poly s vs) (length (polygons s)) = Some vs.
Proof.
  unfold poly, alloc_poly. cbn. rewrite nth_error_app2 by lia.
  rewrite Nat.sub_diag. reflexivity.
Qed.

Lemma set_nth_snoc {A} (l : list A) (a b : A) :
  set_nth (length l) b (l ++ [a]) = l ++ [b].
Proof. induction l as [| x l IH]; cbn; [reflexivity | rewrite IH; reflexivity]. Qed.

(** A point was made: the store grew, and the new point is at [c]. *)
Definition made (s : Store) (c : Q * Q) : Point -> Store -> Prop :=
  fun r s' => ext s s' /\ pt s' r = Some c.

Lemma run_Point_new (x y : Q) (s : Store) :
  runs (Point_new x y) s (made s (x, y)).
Proof. split; [apply ext_alloc | apply pt_alloc]. Qed.

Ltac step :=
  lazymatch goal with
  | |- runs (bind (get_x _) _) _ _ => eapply step_get_x; [eassumption |]
  | |- runs (bind (get_y _) _) _ _ => eapply step_get_y; [eassumption |]
  | |- runs (bind (get_vertices _) _) _ _ =>
      eapply step_get_vertices; [eassumption |]
  | |- runs (bind (the (Some _)) _) _ _ => eapply step_the; [reflexivity |]
  | |- runs (bind (the _) _) _ _ => eapply step_the; [eassumption |]
  | |- runs (bind (ret _) _) _ _ => apply step_ret
  end.

Section WithMath.

Variable Math : MathLib.

(** ** Point methods *)

Lemma run_clone (this : Point) (c : Q * Q) (s : Store) :
  pt s this = Some c -> runs (clone this) s (made s (fst c, snd c)).
Proof. intros H. unfold clone. repeat step. apply run_Point_new. Qed.

Lemma run_add (this p : Point) (c cp : Q * Q) (s : Store) :
  pt s this = Some c -> pt s p = Some cp ->
  runs (add this p) s (made s (fst c + fst cp, snd c + snd cp)).
Proof. intros H Hp. unfold add. repeat step. apply run_Point_new. Qed.

Lemma run_subtract (this p : Point) (c cp : Q * Q) (s : Store) :
  pt s this = Some c -> pt s p = Some cp ->
  runs (subtract this p) s (made s (fst c - fst cp, snd c - snd cp)).
Proof. intros H Hp. unfold subtract. repeat step. apply run_Point_new. Qed.

Lemma run_scale (this : Point) (f : Q) (c : Q * Q) (s : Store) :
  pt s this = Some c ->
  runs (scale this f) s (made s (fst c * f, snd c * f)).
Proof. intros H. unfold scale. repeat step. apply run_Point_new. Qed.

Lemma run_rotate90 (this : Point) (c : Q * Q) (s : Store) :
  pt s this = Some c ->
  runs (rotate90 this) s (made s (- snd c, fst c)).
Proof. intros H. unfold rotate90. repeat step. apply run_Point_new. Qed.

Lemma run_distance (a b : Point) (ca cb : Q * Q) (s : Store) :
  pt s a = Some ca -> pt s b = Some cb ->
  runs (distance Math a b) s
       (fun r s' => s' = s /\
          r = Math_sqrt Math ((fst ca - fst cb) * (fst ca - fst cb) +
                              (snd ca - snd cb) * (snd ca - snd cb))).
Proof.
  intros Ha Hb. unfold distance. repeat step. apply runs_ret.
  split; reflexivity.
Qed.

(** The coordinates [norm] gives to its result. *)
Definition normed (len : Q) (c : Q * Q) : Q * Q :=
  let d := Math_sqrt Math (fst c * fst c + snd c * snd c) in
  if Qlt_le_dec 0 d then (fst c / d * len, snd c / d * len) else c.

Lemma run_norm (this : Point) (len : Q) (c : Q * Q) (s : Store) :
  pt s this = Some c ->
  runs (norm Math this len) s (made s (normed len c)).
Proof.
  intros H. unfold pt in H.
  assert (Hlast : forall (l : list (Q * Q)) c',
             nth_error (l ++ [c']) (length l) = Some c').
  { intros l c'. rewrite nth_error_app2 by lia. rewrite Nat.sub_diag. reflexivity. }
  assert (Hext : forall c', ext s (mkStore (points s ++ [c']) (polygons s) (seed s))).
  { intros c'. split; [eexists; reflexivity |].
    split; [exists []; symmetry; apply app_nil_r | reflexivity]. }
  unfold runs, made, norm, clone, normalize, Point_length, normed, bind,
    get_x, get_y, Point_new, put_xy, ret, pt.
  repeat first [ rewrite H | rewrite Hlast
               | progress cbn [points polygons seed fst snd]
               | progress cbv beta iota ].
  destruct (Qlt_le_dec 0 (Math_sqrt Math (fst c * fst c + snd c * snd c))).
  - repeat first [ rewrite H | rewrite Hlast | rewrite set_nth_snoc
                 | progress cbn [points polygons seed fst snd]
                 | progress cbv beta iota ].
    split; [apply Hext | reflexivity].
  - repeat first [ rewrite H | rewrite Hlast
                 | progress cbn [points polygons seed fst snd]
                 | progress cbv beta iota ].
    split; [apply Hext | destruct c; reflexivity].
Qed.

(** ** geom-utils.ts *)

(** The parameters [intersectLines] computes. *)
Definition intersection (x1 y1 dx1 dy1 x2 y2 dx2 dy2 : Q) : option (Q * Q) :=
  let d := dx1 * dy2 - dy1 * dx2 in
  if Qeq_bool d 0 then None
  else
    let t2 := (dy1 * (x2 - x1) - dx1 * (y2 - y1)) / d in
    let t1 := if negb (Qeq_bool dx1 0)
              then (x2 - x1 + dx2 * t2) / dx1
              else (y2 - y1 + dy2 * t2) / dy1 in
    Some (t1, t2).

Lemma run_intersectLines (x1 y1 dx1 dy1 x2 y2 dx2 dy2 : Q) (s : Store) :
  runs (intersectLines x1 y1 dx1 dy1 x2 y2 dx2 dy2) s
       (fun r s' =>
          ext s s' /\
          match intersection x1 y1 dx1 dy1 x2 y2 dx2 dy2, r with
          | None, None => True
          | Some c, Some t => pt s' t = Some c
          | _, _ => False
          end).
Proof.
  unfold intersectLines, intersection.
  destruct (Qeq_bool (dx1 * dy2 - dy1 * dx2) 0).
  - apply runs_ret. split; [apply ext_refl | exact I].
  - apply step_Point_new. apply runs_ret.
    split; [apply ext_alloc | apply pt_alloc].
Qed.

Lemma run_interpolate (p1 p2 : Point) (ratio : Q) (c1 c2 : Q * Q) (s : Store) :
  pt s p1 = Some c1 -> pt s p2 = Some c2 ->
  runs (interpolate p1 p2 ratio) s
       (made s (fst c1 + (fst c2 - fst c1) * ratio,
                snd c1 + (snd c2 - snd c1) * ratio)).
Proof.
  intros H1 H2. unfold interpolate.
  eapply runs_bind; [eapply run_subtract; [exact H2 | exact H1] |].
  intros d s1 [He Hd].
  pose proof (ext_pt _ _ _ _ He H1) as H1'.
  repeat step. cbn [fst snd].
  eapply runs_weaken; [apply run_Point_new |].
  intros r s2 [He2 Hr]. split; [eapply ext_trans; eassumption | assumption].
Qed.

(** ** The scanning loop of [cut] *)

Lemma array_get_nat {A} (l : list A) (i : nat) :
  array_get l (Z.of_nat i) = nth_error l i.
Proof.
  unfold array_get. destruct (Z.ltb_spec (Z.of_nat i) 0); [lia |].
  rewrite Nat2Z.id. reflexivity.
Qed.

Lemma step_vertex {B} (P : Polygon) (vs : list Point) (i : nat)
      (k : option Point -> M B) (s : Store) (post : B -> Store -> Prop) :
  poly s P = Some vs -> runs (k (nth_error vs i)) s post ->
  runs (bind (vertex P (Z.of_nat i)) k) s post.
Proof.
  intros H Hk. unfold poly in H.
  unfold runs, vertex, get_vertices, ret, bind in *. cbv beta.
  rewrite H, array_get_nat. exact Hk.
Qed.

Lemma step_Polygon_length {B} (P : Polygon) (vs : list Point)
      (k : nat -> M B) (s : Store) (post : B -> Store -> Prop) :
  poly s P = Some vs -> runs (k (length vs)) s post ->
  runs (bind (Polygon_length P) k) s post.
Proof.
  intros H Hk. unfold poly in H.
  unfold runs, Polygon_length, get_vertices, ret, bind in *. cbv beta.
  rewrite H. exact Hk.
Qed.

(** Whether the cutting line through [(x1, y1)] with direction
    [(dx1, dy1)] crosses edge [i] of the polygon with corners [cs], and at
    which parameter of the cutting line. *)
Definition crossing (cs : list (Q * Q)) (x1 y1 dx1 dy1 : Q) (i : nat)
  : option Q :=
  match nth_error cs i, nth_error cs ((i + 1) mod length cs) with
  | Some c0, Some c1 =>
      match intersection x1 y1 dx1 dy1 (fst c0) (snd c0)
                         (fst c1 - fst c0) (snd c1 - snd c0) with
      | Some t => if Qle_bool 0 (snd t) && Qle_bool (snd t) 1
                  then Some (fst t) else None
      | None => None
      end
  | _, _ => None
  end.

(** What the scanning loop computes, on coordinates. *)
Fixpoint scan (cs : list (Q * Q)) (x1 y1 dx1 dy1 : Q) (ixs : list nat)
         (st : CutScan) : CutScan :=
  match ixs with
  | [] => st
  | i :: ixs' =>
      scan cs x1 y1 dx1 dy1 ixs'
           (match crossing cs x1 y1 dx1 dy1 i with
            | Some tx => record_crossing i tx st
            | None => st
            end)
  end.

Lemma run_cut_scan (P : Polygon) (vs : list Point) (cs : list (Q * Q))
      (x1 y1 dx1 dy1 : Q) (ixs : list nat) :
  forall (st : CutScan) (s : Store),
    poly s P = Some vs -> located s vs cs ->
    (forall i, In i ixs -> (i < length vs)%nat) ->
    runs (cut_scan P x1 y1 dx1 dy1 (length vs) ixs st) s
         (fun st' s' => ext s s' /\ st' = scan cs x1 y1 dx1 dy1 ixs st).
Proof.
  induction ixs as [| i ixs IH]; intros st s HP Hloc Hix.
  - apply runs_ret. split; [apply ext_refl | reflexivity].
  - assert (Hi : (i < length vs)%nat) by (apply Hix; left; reflexivity).
    assert (Hi' : ((i + 1) mod length vs < length vs)%nat)
      by (apply Nat.mod_upper_bound; lia).
    destruct (nth_error vs i) as [v0 |] eqn:Hv0;
      [| apply nth_error_None in Hv0; lia].
    destruct (nth_error vs ((i + 1) mod length vs)) as [v1 |] eqn:Hv1;
      [| apply nth_error_None in Hv1; lia].
    destruct (located_nth _ _ _ _ _ Hloc Hv0) as (c0 & Hc0 & Hp0).
    destruct (located_nth _ _ _ _ _ Hloc Hv1) as (c1 & Hc1 & Hp1).
    cbn [cut_scan scan].
    eapply step_vertex; [eassumption |].
    eapply step_vertex; [eassumption |].
    rewrite Hv0, Hv1. repeat step.
    unfold crossing. rewrite (located_length _ _ _ Hloc), Hc0, Hc1.
    eapply runs_bind; [apply run_intersectLines |].
    intros t s1 [He Ht].
    eapply runs_bind with
      (mid := fun st1 s2 =>
         s2 = s1 /\
         st1 = match match intersection x1 y1 dx1 dy1 (fst c0) (snd c0)
                                        (fst c1 - fst c0) (snd c1 - snd c0) with
                     | Some t => if Qle_bool 0 (snd t) && Qle_bool (snd t) 1
                                 then Some (fst t) else None
                     | None => None
                     end with
               | Some tx => record_crossing i tx st
               | None => st
               end).
    + destruct (intersection x1 y1 dx1 dy1 (fst c0) (snd c0)
                             (fst c1 - fst c0) (snd c1 - snd c0)) as [c |];
        destruct t as [t |]; try contradiction.
      * step. destruct (Qle_bool 0 (snd c) && Qle_bool (snd c) 1).
        -- step. apply runs_ret. split; reflexivity.
        -- apply runs_ret. split; reflexivity.
      * apply runs_ret. split; reflexivity.
    + intros st1 s2 [-> ->].
      eapply runs_weaken.
      * apply IH; [eapply ext_poly; eassumption
                  | eapply ext_located; eassumption
                  | intros j Hj; apply Hix; right; assumption].
      * intros st' s' [He' Hst]. split; [eapply ext_trans; eassumption |].
        exact Hst.
Qed.

(** ** Pieces of [cut] *)

Lemma run_make_half (vs : list Point) (a b : Point) (s : Store) :
  runs (make_half vs a b) s
       (fun h s' => ext s s' /\ h = length (polygons s) /\
                    poly s' h = Some (a :: vs ++ [b])).
Proof.
  assert (Hlast : forall (l : list (list Point)) x,
             nth_error (l ++ [x]) (length l) = Some x).
  { intros l x. rewrite nth_error_app2 by lia. rewrite Nat.sub_diag. reflexivity. }
  unfold runs, make_half, unshift, push, Polygon_new, get_vertices,
    put_vertices, ret, bind, poly.
  repeat first [ rewrite Hlast | rewrite set_nth_snoc
               | progress cbn [points polygons seed]
               | progress cbv beta iota ].
  split; [| split; reflexivity].
  split; [exists []; symmetry; apply app_nil_r |].
  split; [eexists; reflexivity | reflexivity].
Qed.

Lemma run_vectori (P : Polygon) (vs : list Point) (cs : list (Q * Q))
      (i : nat) (s : Store) :
  poly s P = Some vs -> located s vs cs -> (i < length vs)%nat ->
  exists ca cb,
    nth_error cs (if Nat.eqb i (length cs - 1) then 0%nat else (i + 1)%nat) = Some ca /\
    nth_error cs i = Some cb /\
    runs (vectori P i) s (made s (fst ca - fst cb, snd ca - snd cb)).
Proof.
  intros HP Hloc Hi.
  set (j := if Nat.eqb i (length vs - 1) then 0%nat else (i + 1)%nat).
  assert (Hj : (j < length vs)%nat).
  { subst j. destruct (Nat.eqb_spec i (length vs - 1)); lia. }
  destruct (nth_error vs j) as [a |] eqn:Ha; [| apply nth_error_None in Ha; lia].
  destruct (nth_error vs i) as [b |] eqn:Hb; [| apply nth_error_None in Hb; lia].
  destruct (located_nth _ _ _ _ _ Hloc Ha) as (ca & Hca & Hpa).
  destruct (located_nth _ _ _ _ _ Hloc Hb) as (cb & Hcb & Hpb).
  exists ca, cb. rewrite (located_length _ _ _ Hloc). fold j.
  split; [assumption |]. split; [assumption |].
  unfold vectori. step. fold j. rewrite Ha, Hb. repeat step.
  apply run_subtract; assumption.
Qed.

(** What [peel] needs of the [cut] it calls: on a polygon and two points
    of the store, with a zero gap, it returns a non-empty array and only
    adds objects. *)
Definition cuts_safely
           (rec : Polygon -> Point -> Point -> Q -> M (list Polygon)) : Prop :=
  forall P p1 p2 vs s,
    poly s P = Some vs -> valid_points s vs ->
    (p1 < length (points s))%nat -> (p2 < length (points s))%nat ->
    runs (rec P p1 p2 0) s
         (fun res s' => ext s s' /\ res <> [] /\
                        Forall (fun h => (length (polygons s) <= h)%nat) res).

Lemma index_from_range (v : Point) (l : list Point) (i : Z) :
  (index_from v l i = -1 \/
   i <= index_from v l i < i + Z.of_nat (length l))%Z.
Proof.
  revert i. induction l as [| x l IH]; intros i; cbn [index_from length].
  - left. reflexivity.
  - destruct (Nat.eqb x v); [right; lia |].
    destruct (IH (i + 1)%Z) as [H | H]; [left; assumption | right; lia].
Qed.

Lemma valid_pt (s : Store) (p : Point) :
  (p < length (points s))%nat -> exists c, pt s p = Some c.
Proof.
  intros H. unfold pt. destruct (nth_error (points s) p) as [c |] eqn:Hc.
  - exists c. reflexivity.
  - apply nth_error_None in Hc. lia.
Qed.

Lemma pt_valid (s : Store) (p : Point) (c : Q * Q) :
  pt s p = Some c -> (p < length (points s))%nat.
Proof. unfold pt. intros H. apply nth_error_Some. congruence. Qed.

Lemma ext_valid_points (s s' : Store) (vs : list Point) :
  ext s s' -> valid_points s vs -> valid_points s' vs.
Proof.
  intros He H. eapply Forall_impl; [| exact H].
  intros v Hv. cbv beta in *. pose proof (ext_points_length _ _ He). lia.
Qed.

Lemma run_peel_with (rec : Polygon -> Point -> Point -> Q -> M (list Polygon))
      (P : Polygon) (v1 : Point) (d : Q) (vs : list Point) (s : Store) :
  cuts_safely rec ->
  poly s P = Some vs -> valid_points s vs -> vs <> [] ->
  (v1 < length (points s))%nat ->
  runs (peel_with Math rec P v1 d) s
       (fun h s' => ext s s' /\ (length (polygons s) <= h)%nat).
Proof.
  intros Hrec HP Hvs Hne Hv1.
  destruct (valid_pt _ _ Hv1) as (c1 & Hc1).
  unfold peel_with. step.
  set (i1 := array_indexOf vs v1).
  set (i2 := if (i1 =? Z.of_nat (length vs) - 1)%Z then 0%Z else (i1 + 1)%Z).
  assert (Hi2 : (0 <= i2 < Z.of_nat (length vs))%Z).
  { assert (0 < Z.of_nat (length vs))%Z by (destruct vs; [contradiction | cbn; lia]).
    subst i2. destruct (Z.eqb_spec i1 (Z.of_nat (length vs) - 1)); [lia |].
    destruct (index_from_range v1 vs 0) as [H1 | H1]; fold (array_indexOf vs v1) in H1;
      fold i1 in H1; lia. }
  destruct (array_get vs i2) as [v2 |] eqn:Hv2.
  2:{ unfold array_get in Hv2. destruct (Z.ltb_spec i2 0); [lia |].
      apply nth_error_None in Hv2. lia. }
  assert (Hv2' : (v2 < length (points s))%nat).
  { unfold array_get in Hv2. destruct (Z.ltb_spec i2 0); [lia |].
    apply nth_error_In in Hv2. unfold valid_points in Hvs.
    rewrite Forall_forall in Hvs. apply Hvs. assumption. }
  destruct (valid_pt _ _ Hv2') as (c2 & Hc2).
  step.
  eapply runs_bind; [apply run_subtract; eassumption |].
  intros v sa [Ea Hv].
  eapply runs_bind; [apply run_rotate90; eassumption |].
  intros r sb [Eb Hr].
  eapply runs_bind; [apply run_norm; eassumption |].
  intros n sc [Ec Hn].
  assert (E3 : ext s sc) by (eapply ext_trans; [| eassumption];
                             eapply ext_trans; eassumption).
  eapply runs_bind;
    [apply run_add; [eapply ext_pt; [exact E3 | exact Hc1] | exact Hn] |].
  intros a sd [Ed Hpa].
  assert (E4 : ext s sd) by (eapply ext_trans; eassumption).
  eapply runs_bind;
    [apply run_add; [eapply ext_pt; [exact E4 | exact Hc2]
                    | eapply ext_pt; [exact Ed | exact Hn]] |].
  intros b se [Ee Hpb].
  assert (E5 : ext s se) by (eapply ext_trans; eassumption).
  eapply runs_bind.
  - apply (Hrec P a b vs se).
    + eapply ext_poly; [exact E5 | exact HP].
    + eapply ext_valid_points; [exact E5 | exact Hvs].
    + eapply pt_valid. eapply ext_pt; [exact Ee | exact Hpa].
    + eapply pt_valid. exact Hpb.
  - intros halves sf (Ef & Hhalves & Hfresh). cbv beta in *.
    destruct halves as [| h0 halves]; [contradiction |].
    cbn [nth_error]. unfold runs, the.
    split; [eapply ext_trans; eassumption |].
    inversion Hfresh as [| ? ? Hh0 _]; subst. cbv beta in Hh0.
    pose proof (ext_polygons_length _ _ E5). lia.
Qed.

(** ** What the scan finds *)

(** The crossed edges among [ixs], in order, each with the parameter of
    the crossing on the cutting line. *)
Definition crossed (cs : list (Q * Q)) (x1 y1 dx1 dy1 : Q) (ixs : list nat)
  : list (nat * Q) :=
  flat_map (fun i => match crossing cs x1 y1 dx1 dy1 i with
                     | Some t => [(i, t)]
                     | None => []
                     end) ixs.

Definition record_all (xs : list (nat * Q)) (st : CutScan) : CutScan :=
  fold_left (fun st it => record_crossing (fst it) (snd it) st) xs st.

Lemma scan_crossed (cs : list (Q * Q)) (x1 y1 dx1 dy1 : Q) (ixs : list nat) :
  forall st, scan cs x1 y1 dx1 dy1 ixs st =
             record_all (crossed cs x1 y1 dx1 dy1 ixs) st.
Proof.
  induction ixs as [| i ixs IH]; intros st; [reflexivity |].
  cbn [scan crossed flat_map]. rewrite IH. unfold record_all.
  rewrite fold_left_app.
  destruct (crossing cs x1 y1 dx1 dy1 i); reflexivity.
Qed.

Lemma record_all_cnt (xs : list (nat * Q)) :
  forall st, cnt (record_all xs st) = (cnt st + length xs)%nat.
Proof.
  induction xs as [| x xs IH]; intros st; cbn [record_all fold_left length].
  - lia.
  - fold (record_all xs (record_crossing (fst x) (snd x) st)). rewrite IH.
    unfold record_crossing. destruct (cnt st) as [| [| n]]; cbn [cnt]; lia.
Qed.

Definition scan_start : CutScan := mkScan 0 0 0 0 0.

Lemma crossed_seq_bounds (cs : list (Q * Q)) (x1 y1 dx1 dy1 : Q) (n : nat) :
  forall a e1 t1 e2 t2,
    crossed cs x1 y1 dx1 dy1 (seq a n) = [(e1, t1); (e2, t2)] ->
    (a <= e1 < e2)%nat /\ (e2 < a + n)%nat.
Proof.
  induction n as [| n IH]; intros a e1 t1 e2 t2 H; [discriminate |].
  cbn [seq crossed flat_map] in H.
  destruct (crossing cs x1 y1 dx1 dy1 a) as [t |].
  - cbn [app] in H. injection H as <- <- H.
    fold (crossed cs x1 y1 dx1 dy1 (seq (S a) n)) in H.
    assert (Hin : In (e2, t2) (crossed cs x1 y1 dx1 dy1 (seq (S a) n)))
      by (rewrite H; left; reflexivity).
    unfold crossed in Hin. apply in_flat_map in Hin.
    destruct Hin as (j & Hj & Hin). apply in_seq in Hj.
    destruct (crossing cs x1 y1 dx1 dy1 j); [| contradiction].
    destruct Hin as [Heq | []]. injection Heq as <- _. lia.
  - cbn [app] in H. fold (crossed cs x1 y1 dx1 dy1 (seq (S a) n)) in H.
    destruct (IH (S a) e1 t1 e2 t2 H). lia.
Qed.

Lemma crossed_In (cs : list (Q * Q)) (x1 y1 dx1 dy1 : Q) (ixs : list nat)
      (e : nat) (t : Q) :
  In (e, t) (crossed cs x1 y1 dx1 dy1 ixs) ->
  In e ixs /\ crossing cs x1 y1 dx1 dy1 e = Some t.
Proof.
  unfold crossed. intros H. apply in_flat_map in H.
  destruct H as (j & Hj & Hin).
  destruct (crossing cs x1 y1 dx1 dy1 j) as [t' |] eqn:Hc; [| contradiction].
  destruct Hin as [Heq | []]. injection Heq as <- <-. split; assumption.
Qed.

(** The value of [cnt] when the scanning loop ends: the number of edges
    of the polygon with corners [cs] for which the test of the loop
    holds, for the line through [c1] and [c2]. *)
Definition crossings (cs : list (Q * Q)) (c1 c2 : Q * Q) : nat :=
  length (crossed cs (fst c1) (snd c1) (fst c2 - fst c1) (snd c2 - snd c1)
                  (seq 0 (length cs))).

(** The corners of the two halves, for crossings on edges [e1] and [e2]
    at parameters [t1] and [t2]. *)
Definition cut_point (c1 c2 : Q * Q) (t : Q) : Q * Q :=
  (fst c1 + (fst c2 - fst c1) * t, snd c1 + (snd c2 - snd c1) * t).

Definition half1_corners (cs : list (Q * Q)) (c1 c2 : Q * Q)
           (e1 : nat) (t1 : Q) (e2 : nat) (t2 : Q) : list (Q * Q) :=
  cut_point c1 c2 t1 :: slice (e1 + 1) (e2 + 1) cs ++ [cut_point c1 c2 t2].

Definition half2_corners (cs : list (Q * Q)) (c1 c2 : Q * Q)
           (e1 : nat) (t1 : Q) (e2 : nat) (t2 : Q) : list (Q * Q) :=
  cut_point c1 c2 t2 ::
  (skipn (e2 + 1) cs ++ slice 0 (e1 + 1) cs) ++ [cut_point c1 c2 t1].

(** What [cut] returns and leaves. *)
Definition cut_post (s : Store) (vs : list Point) (cs : list (Q * Q))
           (c1 c2 : Q * Q) (gap : Q) : list Polygon -> Store -> Prop :=
  fun res s' =>
    ext s s' /\
    length res = (if Nat.eqb (crossings cs c1 c2) 2 then 2%nat else 1%nat) /\
    Forall (fun h => (length (polygons s) <= h)%nat) res /\
    (crossings cs c1 c2 <> 2%nat ->
     exists copy, res = [copy] /\ (length (polygons s) <= copy)%nat /\
                  poly s' copy = Some vs) /\
    (forall e1 t1 e2 t2,
        crossed cs (fst c1) (snd c1) (fst c2 - fst c1) (snd c2 - snd c1)
                (seq 0 (length cs)) = [(e1, t1); (e2, t2)] ->
        gap <= 0 ->
        exists h1 h2 vs1 vs2,
          (res = [h1; h2] \/ res = [h2; h1]) /\
          (length (polygons s) <= h1)%nat /\ (length (polygons s) <= h2)%nat /\
          poly s' h1 = Some vs1 /\
          located s' vs1 (half1_corners cs c1 c2 e1 t1 e2 t2) /\
          poly s' h2 = Some vs2 /\
          located s' vs2 (half2_corners cs c1 c2 e1 t1 e2 t2)).

(** ** [cut] *)

Lemma run_cut_body (rec : Polygon -> Point -> Point -> Q -> M (list Polygon))
      (P : Polygon) (p1 p2 : Point) (gap : Q)
      (vs : list Point) (cs : list (Q * Q)) (c1 c2 : Q * Q) (s : Store) :
  poly s P = Some vs -> located s vs cs ->
  pt s p1 = Some c1 -> pt s p2 = Some c2 ->
  (0 < gap -> cuts_safely rec) ->
  runs (cut_body Math rec P p1 p2 gap) s (cut_post s vs cs c1 c2 gap).
Proof.
  intros HP Hloc H1 H2 Hrec.
  pose proof (located_length _ _ _ Hloc) as Hlen.
  unfold cut_body. repeat step.
  eapply step_Polygon_length; [eassumption |].
  eapply runs_bind.
  { apply (run_cut_scan P vs cs); [assumption | assumption |].
    intros i Hi. apply in_seq in Hi. lia. }
  intros sc s1 [E1 Hsc].
  rewrite scan_crossed in Hsc.
  rewrite <- Hlen in Hsc.
  remember (crossed cs (fst c1) (snd c1) (fst c2 - fst c1) (snd c2 - snd c1)
                    (seq 0 (length cs))) as xs eqn:Hxs.
  assert (Hcnt : cnt sc = length xs).
  { rewrite Hsc, record_all_cnt. reflexivity. }
  pose proof (ext_poly _ _ _ _ E1 HP) as HP1.
  destruct (Nat.eqb_spec (cnt sc) 2) as [Htwo | Hnot].
  - (* two crossings *)
    rewrite Hcnt in Htwo.
    destruct xs as [| [e1 t1] [| [e2 t2] [| x3 xs]]]; try discriminate.
    assert (Hsc' : sc = mkScan e1 t1 e2 t2 2) by (rewrite Hsc; reflexivity).
    clear Hsc Hcnt. subst sc. cbn [edge1 edge2 ratio1 ratio2 cnt].
    destruct (crossed_seq_bounds cs (fst c1) (snd c1) (fst c2 - fst c1)
                                 (snd c2 - snd c1) (length cs) 0 e1 t1 e2 t2)
      as [He12 He2]; [symmetry; exact Hxs |].
    eapply runs_bind;
      [apply run_subtract; eapply ext_pt; [exact E1 | exact H2 | exact E1 | exact H1] |].
    intros dir s2 [E2 Hdir].
    eapply runs_bind; [apply run_scale; exact Hdir |].
    intros d1 s3 [E3 Hd1]. cbn [fst snd] in Hd1.
    assert (E13 : ext s s3) by (eapply ext_trans; [| exact E3];
                                eapply ext_trans; eassumption).
    eapply runs_bind;
      [apply run_add; [eapply ext_pt; [exact E13 | exact H1] | exact Hd1] |].
    intros point1 s4 [E4 Hpt1]. cbn [fst snd] in Hpt1.
    assert (E14 : ext s s4) by (eapply ext_trans; eassumption).
    eapply runs_bind;
      [apply run_scale; eapply ext_pt;
       [eapply ext_trans; [exact E3 | exact E4] | exact Hdir] |].
    intros d2 s5 [E5 Hd2]. cbn [fst snd] in Hd2.
    assert (E15 : ext s s5) by (eapply ext_trans; eassumption).
    eapply runs_bind;
      [apply run_add; [eapply ext_pt; [exact E15 | exact H1] | exact Hd2] |].
    intros point2 s6 [E6 Hpt2]. cbn [fst snd] in Hpt2.
    assert (E16 : ext s s6) by (eapply ext_trans; eassumption).
    pose proof (ext_poly _ _ _ _ E16 HP) as HP6.
    step.
    eapply runs_bind; [eapply run_make_half |].
    intros half1 s7 (E7 & Hh1 & Hhalf1).
    assert (E17 : ext s s7) by (eapply ext_trans; eassumption).
    pose proof (ext_poly _ _ _ _ E17 HP) as HP7.
    step.
    eapply runs_bind; [eapply run_make_half |].
    intros half2 s8 (E8 & Hh2 & Hhalf2).
    assert (E18 : ext s s8) by (eapply ext_trans; eassumption).
    (* the corners of the halves *)
    assert (Hpt1' : pt s8 point1 = Some (cut_point c1 c2 t1)).
    { eapply ext_pt; [| exact Hpt1].
      eapply ext_trans; [exact E5 |]. eapply ext_trans; [exact E6 |].
      eapply ext_trans; eassumption. }
    assert (Hpt2' : pt s8 point2 = Some (cut_point c1 c2 t2)).
    { eapply ext_pt; [| exact Hpt2]. eapply ext_trans; eassumption. }
    pose proof (ext_located _ _ _ _ E18 Hloc) as Hloc8.
    assert (Hl1 : located s8 (point1 :: slice (e1 + 1) (e2 + 1) vs ++ [point2])
                          (half1_corners cs c1 c2 e1 t1 e2 t2)).
    { unfold half1_corners. constructor; [exact Hpt1' |].
      apply located_app; [apply located_slice; exact Hloc8 |].
      constructor; [exact Hpt2' | constructor]. }
    assert (Hl2 : located s8
                    (point2 :: (skipn (e2 + 1) vs ++ slice 0 (e1 + 1) vs) ++ [point1])
                    (half2_corners cs c1 c2 e1 t1 e2 t2)).
    { unfold half2_corners. constructor; [exact Hpt2' |].
      apply located_app.
      - apply located_app; [apply located_skipn | apply located_slice]; exact Hloc8.
      - constructor; [exact Hpt1' | constructor]. }
    pose proof (ext_poly _ _ _ _ E8 Hhalf1) as Hhalf1'.
    pose proof (ext_polygons_length _ _ E16) as Hlen6.
    pose proof (ext_polygons_length _ _ E17) as Hlen7.
    (* the gap *)
    pose proof (ext_polygons_length _ _ E18) as Hlen8.
    eapply runs_bind with
      (mid := fun hs s9 => ext s8 s9 /\
                           (length (polygons s) <= fst hs)%nat /\
                           (length (polygons s) <= snd hs)%nat /\
                           (gap <= 0 -> hs = (half1, half2))).
    { destruct (Qlt_le_dec 0 gap) as [Hgap | Hgap].
      - eapply runs_bind.
        + eapply run_peel_with; [exact (Hrec Hgap) | exact Hhalf1' | | |].
          * eapply located_valid. exact Hl1.
          * discriminate.
          * eapply pt_valid. exact Hpt2'.
        + intros h1 s9 [E9 Hf1]. cbv beta in E9.
          eapply runs_bind.
          * eapply run_peel_with; [exact (Hrec Hgap) | | | |].
            -- eapply ext_poly; [exact E9 | exact Hhalf2].
            -- eapply ext_valid_points; [exact E9 |].
               eapply located_valid. exact Hl2.
            -- discriminate.
            -- eapply pt_valid. eapply ext_pt; [exact E9 | exact Hpt1'].
          * intros h2 s10 [E10 Hf2]. cbv beta in E10. apply runs_ret.
            pose proof (ext_polygons_length _ _ E9).
            split; [eapply ext_trans; eassumption |]. cbn [fst snd].
            split; [lia |]. split; [lia |].
            intros Hle. exfalso. apply (Qlt_not_le _ _ Hgap Hle).
      - apply runs_ret. split; [apply ext_refl |]. cbn [fst snd].
        split; [lia |]. split; [lia | reflexivity]. }
    intros hs s9 (E9 & Hfa & Hfb & Hhs).
    assert (E19 : ext s s9) by (eapply ext_trans; eassumption).
    destruct (run_vectori P vs cs e1 s9) as (ca & cb & _ & _ & Hvec);
      [eapply ext_poly; [exact E19 | exact HP]
      | eapply ext_located; [exact E19 | exact Hloc]
      | lia |].
    eapply runs_bind; [exact Hvec |].
    intros v s10 [E10 Hv]. repeat step. cbn [fst snd].
    assert (E110 : ext s s10) by (eapply ext_trans; eassumption).
    assert (Hpost : forall res, (res = [fst hs; snd hs] \/ res = [snd hs; fst hs]) ->
                                cut_post s vs cs c1 c2 gap res s10).
    { intros res Hres.
      assert (Hcr : crossings cs c1 c2 = 2%nat)
        by (unfold crossings; rewrite <- Hxs; reflexivity).
      split; [exact E110 |].
      split; [rewrite Hcr; destruct Hres as [-> | ->]; reflexivity |].
      split; [destruct Hres as [-> | ->]; repeat constructor; assumption |].
      split.
      - intros Hne. exfalso. apply Hne. exact Hcr.
      - intros e1' t1' e2' t2' Heq Hgap. rewrite <- Hxs in Heq.
        injection Heq as <- <- <- <-.
        specialize (Hhs Hgap). subst hs. cbn [fst snd] in Hres.
        exists half1, half2, (point1 :: slice (e1 + 1) (e2 + 1) vs ++ [point2]),
          (point2 :: (skipn (e2 + 1) vs ++ slice 0 (e1 + 1) vs) ++ [point1]).
        assert (E810 : ext s8 s10) by (eapply ext_trans; eassumption).
        split; [exact Hres |].
        split; [lia |]. split; [lia |].
        split; [eapply ext_poly; [exact E810 | exact Hhalf1'] |].
        split; [eapply ext_located; [exact E810 | exact Hl1] |].
        split; [eapply ext_poly; [exact E810 | exact Hhalf2] |].
        eapply ext_located; [exact E810 | exact Hl2]. }
    destruct (Qlt_le_dec 0 (cross (fst c2 - fst c1) (snd c2 - snd c1)
                                  (fst ca - fst cb) (snd ca - snd cb)));
      apply runs_ret; apply Hpost; [left | right]; reflexivity.
  - (* any other number of crossings: the copy *)
    step. unfold runs, bind, Polygon_new, ret.
    pose proof (ext_polygons_length _ _ E1) as Hl.
    assert (Hcr : crossings cs c1 c2 <> 2%nat).
    { unfold crossings. rewrite <- Hxs, <- Hcnt. exact Hnot. }
    split; [eapply ext_trans; [exact E1 | apply ext_alloc_poly] |].
    split; [destruct (Nat.eqb_spec (crossings cs c1 c2) 2);
            [contradiction | reflexivity] |].
    split; [repeat constructor; exact Hl |].
    split.
    + intros _. exists (length (polygons s1)).
      split; [reflexivity |]. split; [exact Hl |]. apply poly_alloc_poly.
    + intros e1 t1 e2 t2 Heq _. exfalso. apply Hnot.
      rewrite Hcnt, Hxs, Heq. reflexivity.
Qed.

Lemma cut_fuel_1_safe : cuts_safely (cut_fuel Math 1).
Proof.
  intros P p1 p2 vs s HP Hvs Hp1 Hp2.
  destruct (valid_located _ _ Hvs) as (cs & Hloc).
  destruct (valid_pt _ _ Hp1) as (c1 & H1).
  destruct (valid_pt _ _ Hp2) as (c2 & H2).
  eapply runs_weaken.
  - apply (run_cut_body (cut_fuel Math 0) P p1 p2 0 vs cs c1 c2 s);
      try assumption.
    intros Habs. exfalso. apply (Qlt_irrefl 0 Habs).
  - intros res s' (He & Hlen & Hfresh & _). cbv beta.
    split; [exact He |]. split; [| exact Hfresh].
    intros ->. destruct (Nat.eqb (crossings cs c1 c2) 2); discriminate.
Qed.

Lemma run_cut (P : Polygon) (p1 p2 : Point) (gap : Q)
      (vs : list Point) (cs : list (Q * Q)) (c1 c2 : Q * Q) (s : Store) :
  poly s P = Some vs -> located s vs cs ->
  pt s p1 = Some c1 -> pt s p2 = Some c2 ->
  runs (cut Math P p1 p2 gap) s (cut_post s vs cs c1 c2 gap).
Proof.
  intros HP Hloc H1 H2.
  apply (run_cut_body (cut_fuel Math 1)); try assumption.
  intros _. apply cut_fuel_1_safe.
Qed.

(** ** [square] *)

Lemma run_square_loop (rest : list Point) :
  forall (crest : list (Q * Q)) (v2 : Point) (c2 : Q * Q) (acc : Q) (s : Store),
    pt s v2 = Some c2 -> located s rest crest ->
    runs (square_loop v2 rest acc) s
         (fun r s' => s' = s /\ r = area_loop c2 crest acc).
Proof.
  induction rest as [| v rest IH]; intros crest v2 c2 acc s H2 Hloc.
  - inversion Hloc; subst. apply runs_ret. split; reflexivity.
  - inversion Hloc as [| ? c ? crest' Hv Hrest]; subst.
    cbn [square_loop area_loop]. repeat step.
    apply IH; assumption.
Qed.

Lemma run_square (P : Polygon) (vs : list Point) (cs : list (Q * Q)) (s : Store) :
  poly s P = Some vs -> located s vs cs ->
  runs (square P) s (fun r s' => s' = s /\ r = area cs).
Proof.
  intros HP Hloc. pose proof (located_length _ _ _ Hloc) as Hlen.
  unfold square, area. step. rewrite Hlen.
  destruct (Nat.ltb_spec (length vs) 3) as [Hlt | Hge].
  - apply runs_ret. split; reflexivity.
  - destruct (nth_error vs (length vs - 1)) as [v1 |] eqn:Hv1;
      [| apply nth_error_None in Hv1; lia].
    destruct (nth_error vs 0) as [v2 |] eqn:Hv2;
      [| apply nth_error_None in Hv2; lia].
    destruct (located_nth _ _ _ _ _ Hloc Hv1) as (c1 & Hc1 & Hp1).
    destruct (located_nth _ _ _ _ _ Hloc Hv2) as (c2 & Hc2 & Hp2).
    rewrite Hc1, Hc2. repeat step.
    eapply runs_bind.
    + apply (run_square_loop (tl vs) (tl cs) v2 c2); [assumption |].
      inversion Hloc; subst; [constructor | assumption].
    + intros r s' [-> ->]. apply runs_ret. split; reflexivity.
Qed.

(** ** The halves of a split *)

Lemma intersection_on_line (x1 y1 dx1 dy1 : Q) (a b : Q * Q) (t : Q * Q) :
  intersection x1 y1 dx1 dy1 (fst a) (snd a) (fst b - fst a) (snd b - snd a)
  = Some t ->
  on_line a b (x1 + dx1 * fst t, y1 + dy1 * fst t).
Proof.
  unfold intersection.
  destruct (Qeq_bool (dx1 * (snd b - snd a) - dy1 * (fst b - fst a)) 0) eqn:Hd;
    [discriminate |].
  apply Qeq_bool_neq in Hd.
  intros Ht. injection Ht as <-. cbn [fst snd].
  set (d := dx1 * (snd b - snd a) - dy1 * (fst b - fst a)) in *.
  set (t2 := (dy1 * (fst a - x1) - dx1 * (snd a - y1)) / d).
  assert (Ht2 : t2 * d == dy1 * (fst a - x1) - dx1 * (snd a - y1)).
  { unfold t2. field. exact Hd. }
  unfold on_line. cbn [fst snd].
  destruct (Qeq_bool dx1 0) eqn:Hdx; cbn [negb].
  - apply Qeq_bool_eq in Hdx.
    assert (Hdy : ~ dy1 == 0).
    { intros Hdy. apply Hd. unfold d. rewrite Hdx, Hdy. ring. }
    assert (Hy : y1 + dy1 * ((snd a - y1 + (snd b - snd a) * t2) / dy1)
                 == snd a + (snd b - snd a) * t2) by (field; exact Hdy).
    assert (Hx : x1 == fst a + (fst b - fst a) * t2).
    { assert (Hm : dy1 * (fst a + (fst b - fst a) * t2 - x1) == 0).
      { transitivity (dy1 * (fst a - x1) - dx1 * (snd a - y1) - t2 * d
                      + dx1 * (snd a - y1 + (snd b - snd a) * t2)).
        - unfold d. ring.
        - rewrite Ht2, Hdx. ring. }
      apply Qmult_integral in Hm. destruct Hm as [Hm | Hm]; [contradiction |].
      apply Qplus_inj_r with (z := - x1). rewrite Qplus_opp_r.
      rewrite <- Hm. ring. }
    rewrite Hy, Hdx. setoid_replace (x1 + 0 * ((snd a - y1 + (snd b - snd a) * t2) / dy1))
      with (fst a + (fst b - fst a) * t2) by (rewrite <- Hx; ring).
    ring.
  - apply Qeq_bool_neq in Hdx.
    assert (Hx : x1 + dx1 * ((fst a - x1 + (fst b - fst a) * t2) / dx1)
                 == fst a + (fst b - fst a) * t2) by (field; exact Hdx).
    assert (Hy : y1 + dy1 * ((fst a - x1 + (fst b - fst a) * t2) / dx1)
                 == snd a + (snd b - snd a) * t2).
    { assert (Hm : dx1 * (y1 + dy1 * ((fst a - x1 + (fst b - fst a) * t2) / dx1)
                          - (snd a + (snd b - snd a) * t2)) == 0).
      { transitivity (dy1 * (fst a - x1) - dx1 * (snd a - y1) - t2 * d).
        - unfold d. field. exact Hdx.
        - rewrite Ht2. ring. }
      apply Qmult_integral in Hm. destruct Hm as [Hm | Hm]; [contradiction |].
      apply Qplus_inj_r with (z := - (snd a + (snd b - snd a) * t2)).
      rewrite Qplus_opp_r. exact Hm. }
    rewrite Hx, Hy. ring.
Qed.

Lemma crossing_on_line (cs : list (Q * Q)) (c1 c2 : Q * Q) (e : nat) (t : Q)
      (a b : Q * Q) :
  crossing cs (fst c1) (snd c1) (fst c2 - fst c1) (snd c2 - snd c1) e = Some t ->
  nth_error cs e = Some a ->
  nth_error cs ((e + 1) mod length cs) = Some b ->
  on_line a b (cut_point c1 c2 t).
Proof.
  unfold crossing. intros H Ha Hb. rewrite Ha, Hb in H.
  destruct (intersection (fst c1) (snd c1) (fst c2 - fst c1) (snd c2 - snd c1)
                         (fst a) (snd a) (fst b - fst a) (snd b - snd a))
    as [t' |] eqn:Hi; [| discriminate].
  destruct (Qle_bool 0 (snd t') && Qle_bool (snd t') 1); [| discriminate].
  injection H as <-. unfold cut_point.
  apply (intersection_on_line _ _ _ _ a b t' Hi).
Qed.

Lemma nth_error_slice {A} (a b : nat) (l : list A) (i : nat) :
  (i < b - a)%nat -> nth_error (slice a b l) i = nth_error l (a + i).
Proof.
  intros Hi. unfold slice. rewrite nth_error_firstn.
  destruct (Nat.ltb_spec i (b - a)); [apply nth_error_skipn | lia].
Qed.

Lemma length_slice {A} (a b : nat) (l : list A) :
  (b <= length l)%nat -> length (slice a b l) = (b - a)%nat.
Proof.
  intros Hb. unfold slice. rewrite length_firstn, length_skipn. lia.
Qed.

Lemma slice_parts {A} (a b : nat) (l : list A) :
  (a <= b)%nat -> slice 0 a l ++ slice a b l ++ skipn b l = l.
Proof.
  intros Hab. unfold slice. rewrite skipn_0, Nat.sub_0_r.
  rewrite <- (firstn_skipn a l) at 4. f_equal.
  rewrite <- (firstn_skipn (b - a) (skipn a l)) at 2. f_equal.
  rewrite skipn_skipn. f_equal. lia.
Qed.

Lemma hd_nth_error (l : list (Q * Q)) (x : Q * Q) :
  nth_error l 0 = Some x -> hd origin l = x.
Proof. destruct l; cbn; [discriminate | congruence]. Qed.

Lemma last_nth_error (l : list (Q * Q)) (x : Q * Q) :
  l <> [] -> nth_error l (length l - 1) = Some x -> last l origin = x.
Proof.
  intros Hne H. rewrite (nth_error_last l Hne) in H. congruence.
Qed.

(** The signed areas of the two halves of a split add up to the signed
    area of the polygon. *)
Lemma halves_area (cs : list (Q * Q)) (c1 c2 : Q * Q)
      (e1 : nat) (t1 : Q) (e2 : nat) (t2 : Q) :
  crossed cs (fst c1) (snd c1) (fst c2 - fst c1) (snd c2 - snd c1)
          (seq 0 (length cs)) = [(e1, t1); (e2, t2)] ->
  area (half1_corners cs c1 c2 e1 t1 e2 t2) +
  area (half2_corners cs c1 c2 e1 t1 e2 t2) == area cs.
Proof.
  intros Hx.
  destruct (crossed_seq_bounds _ _ _ _ _ _ _ _ _ _ _ Hx) as [[_ H12] H2].
  cbn [Nat.add] in H2.
  destruct (crossed_In cs (fst c1) (snd c1) (fst c2 - fst c1) (snd c2 - snd c1)
                       (seq 0 (length cs)) e1 t1) as [_ Hc1];
    [rewrite Hx; left; reflexivity |].
  destruct (crossed_In cs (fst c1) (snd c1) (fst c2 - fst c1) (snd c2 - snd c1)
                       (seq 0 (length cs)) e2 t2) as [_ Hc2];
    [rewrite Hx; right; left; reflexivity |].
  set (X := slice (e1 + 1) (e2 + 1) cs).
  set (L0 := slice 0 (e1 + 1) cs).
  set (L2 := skipn (e2 + 1) cs).
  assert (HlenX : length X = (e2 - e1)%nat)
    by (unfold X; rewrite length_slice by lia; lia).
  assert (HlenL0 : length L0 = (e1 + 1)%nat)
    by (unfold L0; rewrite length_slice by lia; lia).
  assert (HX : X <> []) by (intros E; rewrite E in HlenX; cbn in HlenX; lia).
  assert (HL0 : L0 <> []) by (intros E; rewrite E in HlenL0; cbn in HlenL0; lia).
  assert (HY : L2 ++ L0 <> []).
  { intros E. apply app_eq_nil in E. destruct E. contradiction. }
  (* the corners around the two crossed edges *)
  destruct (nth_error cs e1) as [a1 |] eqn:Ha1; [| apply nth_error_None in Ha1; lia].
  destruct (nth_error cs (e1 + 1)) as [b1 |] eqn:Hb1;
    [| apply nth_error_None in Hb1; lia].
  destruct (nth_error cs e2) as [a2 |] eqn:Ha2; [| apply nth_error_None in Ha2; lia].
  assert (Hm2 : ((e2 + 1) mod length cs < length cs)%nat)
    by (apply Nat.mod_upper_bound; lia).
  destruct (nth_error cs ((e2 + 1) mod length cs)) as [b2 |] eqn:Hb2;
    [| apply nth_error_None in Hb2; lia].
  assert (HhX : hd origin X = b1).
  { apply hd_nth_error. unfold X. rewrite nth_error_slice by lia.
    rewrite Nat.add_0_r. exact Hb1. }
  assert (HlX : last X origin = a2).
  { apply last_nth_error; [exact HX |]. rewrite HlenX. unfold X.
    rewrite nth_error_slice by lia.
    replace (e1 + 1 + (e2 - e1 - 1))%nat with e2 by lia. exact Ha2. }
  assert (HlY : last (L2 ++ L0) origin = a1).
  { rewrite (last_app_nonempty L2 L0 HL0).
    apply last_nth_error; [exact HL0 |]. rewrite HlenL0. unfold L0.
    rewrite nth_error_slice by lia.
    replace (0 + (e1 + 1 - 1))%nat with e1 by lia. exact Ha1. }
  assert (HhY : hd origin (L2 ++ L0) = b2).
  { destruct (Nat.eq_dec (e2 + 1) (length cs)) as [Heq | Hneq].
    - unfold L2. rewrite skipn_all2 by lia. cbn [app].
      apply hd_nth_error. unfold L0. rewrite nth_error_slice by lia.
      rewrite Heq, Nat.Div0.mod_same in Hb2. exact Hb2.
    - rewrite Nat.mod_small in Hb2 by lia.
      destruct L2 as [| x L2'] eqn:EL2.
      + exfalso. assert (length L2 = 0%nat) by (rewrite EL2; reflexivity).
        unfold L2 in H. rewrite length_skipn in H. lia.
      + cbn [app hd]. assert (Hh : nth_error L2 0 = Some x) by (rewrite EL2; reflexivity).
        unfold L2 in Hh. rewrite nth_error_skipn, Nat.add_0_r in Hh. congruence. }
  assert (Hmod1 : ((e1 + 1) mod length cs)%nat = (e1 + 1)%nat)
    by (apply Nat.mod_small; lia).
  pose proof (crossing_on_line cs c1 c2 e1 t1 a1 b1 Hc1 Ha1) as Hon1.
  rewrite Hmod1 in Hon1. specialize (Hon1 Hb1).
  pose proof (crossing_on_line cs c1 c2 e2 t2 a2 b2 Hc2 Ha2 Hb2) as Hon2.
  rewrite !area_cyc. unfold half1_corners, half2_corners. fold X L0 L2.
  rewrite <- Qmult_plus_distr_l.
  rewrite (cyc_split X (L2 ++ L0) (cut_point c1 c2 t1) (cut_point c1 c2 t2));
    try assumption; [| rewrite HlY, HhX; exact Hon1 | rewrite HlX, HhY; exact Hon2].
  rewrite app_assoc, (cyc_rotate (X ++ L2) L0).
  unfold L0, X, L2. rewrite (slice_parts (e1 + 1) (e2 + 1) cs) by lia.
  reflexivity.
Qed.

(** ** C4 *)

Lemma Qabs_same_sign (A B T : Q) :
  A + B == T ->
  (0 <= A /\ 0 <= B) \/ (A <= 0 /\ B <= 0) ->
  Qabs A + Qabs B == Qabs T.
Proof.
  intros Hsum [[HA HB] | [HA HB]].
  - assert (HT : 0 <= T).
    { rewrite <- Hsum. pose proof (Qplus_le_compat 0 A 0 B HA HB) as H.
      rewrite Qplus_0_l in H. exact H. }
    rewrite (Qabs_pos A HA), (Qabs_pos B HB), (Qabs_pos T HT). exact Hsum.
  - assert (HT : T <= 0).
    { rewrite <- Hsum. pose proof (Qplus_le_compat A 0 B 0 HA HB) as H.
      rewrite Qplus_0_l in H. exact H. }
    rewrite (Qabs_neg A HA), (Qabs_neg B HB), (Qabs_neg T HT).
    rewrite <- Hsum. ring.
Qed.

(** C4, as amended.  When [cut] with a zero gap returns two polygons,
    their signed areas add up exactly to the signed area of the receiver;
    hence their absolute areas add up to its absolute area whenever the two
    signed areas do not have opposite signs. *)
Theorem cut_conserves_signed_area
        (P : Polygon) (p1 p2 : Point) (vs : list Point) (s : Store)
        (a b : Polygon) (s' : Store) :
  poly s P = Some vs -> valid_points s vs ->
  (p1 < length (points s))%nat -> (p2 < length (points s))%nat ->
  cut Math P p1 p2 0 s = Val [a; b] s' ->
  exists A B T,
    square a s' = Val A s' /\ square b s' = Val B s' /\
    square P s = Val T s /\
    A + B == T /\
    ((0 <= A /\ 0 <= B) \/ (A <= 0 /\ B <= 0) -> Qabs A + Qabs B == Qabs T).
Proof.
  intros HP Hvs Hp1 Hp2 Hrun.
  destruct (valid_located _ _ Hvs) as (cs & Hloc).
  destruct (valid_pt _ _ Hp1) as (c1 & H1).
  destruct (valid_pt _ _ Hp2) as (c2 & H2).
  pose proof (val_runs _ _ _ _ _ Hrun
                (run_cut P p1 p2 0 vs cs c1 c2 s HP Hloc H1 H2))
    as (He & Hlen & _ & _ & Hsplit).
  assert (Hcr : crossings cs c1 c2 = 2%nat).
  { destruct (Nat.eqb_spec (crossings cs c1 c2) 2); [assumption | discriminate]. }
  unfold crossings in Hcr.
  destruct (crossed cs (fst c1) (snd c1) (fst c2 - fst c1) (snd c2 - snd c1)
                    (seq 0 (length cs)))
    as [| [e1 t1] [| [e2 t2] [| x xs]]] eqn:Hx; try discriminate.
  destruct (Hsplit e1 t1 e2 t2 eq_refl (Qle_refl 0))
    as (h1 & h2 & vs1 & vs2 & Hres & _ & _ & Hh1 & Hl1 & Hh2 & Hl2).
  pose proof (halves_area cs c1 c2 e1 t1 e2 t2 Hx) as Harea.
  destruct (runs_val _ _ _ (run_square h1 vs1 _ s' Hh1 Hl1)) as (A1 & sa & HA1 & -> & ->).
  destruct (runs_val _ _ _ (run_square h2 vs2 _ s' Hh2 Hl2)) as (A2 & sb & HA2 & -> & ->).
  destruct (runs_val _ _ _ (run_square P vs cs s HP Hloc)) as (T & st & HT & -> & ->).
  destruct Hres as [Hres | Hres]; injection Hres as -> ->.
  - exists (area (half1_corners cs c1 c2 e1 t1 e2 t2)),
      (area (half2_corners cs c1 c2 e1 t1 e2 t2)), (area cs).
    split; [exact HA1 |]. split; [exact HA2 |]. split; [exact HT |].
    split; [exact Harea |]. apply Qabs_same_sign. exact Harea.
  - exists (area (half2_corners cs c1 c2 e1 t1 e2 t2)),
      (area (half1_corners cs c1 c2 e1 t1 e2 t2)), (area cs).
    assert (Harea' : area (half2_corners cs c1 c2 e1 t1 e2 t2) +
                     area (half1_corners cs c1 c2 e1 t1 e2 t2) == area cs)
      by (rewrite Qplus_comm; exact Harea).
    split; [exact HA2 |]. split; [exact HA1 |]. split; [exact HT |].
    split; [exact Harea' |]. apply Qabs_same_sign. exact Harea'.
Qed.

(** ** The edges the cutting line meets *)















(** ** C5 *)


(** ** C10 *)

(** C10. [cut] returns and leaves the receiver as it was: the same vertex
    list, every point of the store at its coordinates, every other polygon
    untouched; what it returns are polygon objects that did not exist
    before. *)
Theorem cut_leaves_receiver_unchanged
        (P : Polygon) (p1 p2 : Point) (gap : Q) (vs : list Point) (s : Store) :
  poly s P = Some vs -> valid_points s vs ->
  (p1 < length (points s))%nat -> (p2 < length (points s))%nat ->
  exists res s',
    cut Math P p1 p2 gap s = Val res s' /\
    poly s' P = Some vs /\
    (forall p c, pt s p = Some c -> pt s' p = Some c) /\
    (forall R ws, poly s R = Some ws -> poly s' R = Some ws) /\
    Forall (fun h => (length (polygons s) <= h)%nat) res.
Proof.
  intros HP Hvs Hp1 Hp2.
  destruct (valid_located _ _ Hvs) as (cs & Hloc).
  destruct (valid_pt _ _ Hp1) as (c1 & H1).
  destruct (valid_pt _ _ Hp2) as (c2 & H2).
  destruct (runs_val _ _ _ (run_cut P p1 p2 gap vs cs c1 c2 s HP Hloc H1 H2))
    as (res & s' & Hrun & He & _ & Hfresh & _).
  exists res, s'. split; [exact Hrun |].
  split; [eapply ext_poly; eassumption |].
  split; [intros p c Hp; eapply ext_pt; eassumption |].
  split; [intros R ws HR; eapply ext_poly; eassumption | exact Hfresh].
Qed.

End WithMath.

(** The square of tests/polygon.test.ts, [Polygon.rect(4, 4)], and the two
    points of its cutting line, (-5, 0) and (5, 0). *)
Definition rect_store : Store :=
  mkStore [(-2, -2); (2, -2); (2, 2); (-2, 2); (-5, 0); (5, 0)]
          [[0; 1; 2; 3]%nat] 1%Z.



(** A self-crossing quadrilateral, (0,0) (2,2) (2,0) (0,2), and two points
    of the line x = 1. *)
Definition bowtie_store : Store :=
  mkStore [(0, 0); (2, 2); (2, 0); (0, 2); (1, 0); (1, 1)]
          [[0; 1; 2; 3]%nat] 1%Z.

(** C4 as stated fails: the line x = 1 cuts the self-crossing
    quadrilateral, whose signed area is 0, into two triangles of signed
    areas -1 and 1. *)
Lemma cut_bowtie_absolute_areas_differ :
  exists a b s' A B T,
    cut testMath 0%nat 4%nat 5%nat 0 bowtie_store = Val [a; b] s' /\
    square a s' = Val A s' /\ square b s' = Val B s' /\
    square 0%nat bowtie_store = Val T bowtie_store /\
    ~ (Qabs A + Qabs B == Qabs T).
Proof.
  do 6 eexists.
  split; [vm_compute; reflexivity |].
  split; [vm_compute; reflexivity |].
  split; [vm_compute; reflexivity |].
  split; [vm_compute; reflexivity |].
  vm_compute. discriminate.
Qed.

(** The store reached by cutting the rectangle of [rect_store] along the
    line y = 0. *)
Definition rect_cut_store : Store :=
  Eval vm_compute in
    match cut testMath 0%nat 4%nat 5%nat 0 rect_store with
    | Val _ s' => s'
    | _ => rect_store
    end.

Lemma cut_conserves_signed_area_witness :
  exists A B T,
    square 1%nat rect_cut_store = Val A rect_cut_store /\
    square 2%nat rect_cut_store = Val B rect_cut_store /\
    square 0%nat rect_store = Val T rect_store /\
    A + B == T /\
    ((0 <= A /\ 0 <= B) \/ (A <= 0 /\ B <= 0) -> Qabs A + Qabs B == Qabs T).
Proof.
  apply (cut_conserves_signed_area testMath 0%nat 4%nat 5%nat
           [0; 1; 2; 3]%nat rect_store 1%nat 2%nat rect_cut_store);
    [reflexivity | repeat constructor; cbn; lia | cbn; lia | cbn; lia
    | vm_compute; reflexivity].
Defined.



Lemma cut_leaves_receiver_witness :
  exists res s',
    cut testMath 0%nat 4%nat 5%nat 1 rect_store = Val res s' /\
    poly s' 0%nat = Some [0; 1; 2; 3]%nat.
Proof.
  destruct (cut_leaves_receiver_unchanged testMath 0%nat 4%nat 5%nat 1
              [0; 1; 2; 3]%nat rect_store)
    as (res & s' & Hrun & Hpoly & _);
    [reflexivity | repeat constructor; cbn; lia | cbn; lia | cbn; lia |].
  exists res, s'. split; assumption.
Defined.

Set Implicit Arguments.

End GeomFacts.

(* ===================================================================== *)
(** * [createAlleys] on a polygon that [bisect] does not split *)
(* ===================================================================== *)

Module AlleyFacts.

Import Geom AreaFacts GeomFacts.
Local Open Scope Q_scope.
Unset Implicit Arguments.

(** ** Computations that run out of fuel *)

(** [m] started in [s] needs more nested calls than the fuel allows. *)
Definition exhausts {A} (m : M A) (s : Store) : Prop := m s = OutOfFuel.

Lemma exhausts_bind {A B} (m : M A) (k : A -> M B) (s : Store)
      (mid : A -> Store -> Prop) :
  runs m s mid ->
  (forall a s1, mid a s1 -> exhausts (k a) s1) ->
  exhausts (bind m k) s.
Proof.
  unfold runs, exhausts, bind. intros Hm Hk.
  destruct (m s) as [a s1 | |]; try contradiction.
  apply (Hk a s1 Hm).
Qed.

Lemma exhausts_left {A B} (m : M A) (k : A -> M B) (s : Store) :
  exhausts m s -> exhausts (bind m k) s.
Proof. unfold exhausts, bind. intros ->. reflexivity. Qed.

Lemma exhausts_the {A B} (a : A) (k : A -> M B) (s : Store) :
  exhausts (k a) s -> exhausts (bind (the (Some a)) k) s.
Proof. trivial. Qed.

(** ** Stores across draws of the generator *)

(** [s'] has every point and polygon of [s], unchanged; the generator may
    have advanced. *)
Definition grew (s s' : Store) : Prop :=
  (exists ps, points s' = points s ++ ps) /\
  (exists qs, polygons s' = polygons s ++ qs).

Lemma ext_grew (s s' : Store) : ext s s' -> grew s s'.
Proof. intros (Hp & Hq & _). split; assumption. Qed.

Lemma grew_refl (s : Store) : grew s s.
Proof. apply ext_grew, ext_refl. Qed.

Lemma grew_trans (s1 s2 s3 : Store) : grew s1 s2 -> grew s2 s3 -> grew s1 s3.
Proof.
  intros ((ps & Hp) & (qs & Hq)) ((ps' & Hp') & (qs' & Hq')).
  split; [exists (ps ++ ps'); rewrite Hp', Hp, app_assoc; reflexivity |].
  exists (qs ++ qs'). rewrite Hq', Hq, app_assoc. reflexivity.
Qed.

Lemma grew_pt (s s' : Store) (p : Point) (c : Q * Q) :
  grew s s' -> pt s p = Some c -> pt s' p = Some c.
Proof.
  intros ((ps & Hp) & _) H. unfold pt in *. rewrite Hp.
  rewrite nth_error_app1; [assumption |].
  apply nth_error_Some. congruence.
Qed.

Lemma grew_poly (s s' : Store) (P : Polygon) (vs : list Point) :
  grew s s' -> poly s P = Some vs -> poly s' P = Some vs.
Proof.
  intros (_ & (qs & Hq)) H. unfold poly in *. rewrite Hq.
  rewrite nth_error_app1; [assumption |].
  apply nth_error_Some. congruence.
Qed.

Lemma grew_located (s s' : Store) (vs : list Point) (cs : list (Q * Q)) :
  grew s s' -> located s vs cs -> located s' vs cs.
Proof.
  intros Hg H. induction H; constructor; [eapply grew_pt; eassumption | assumption].
Qed.

Lemma run_rng_float (s : Store) :
  runs rng_float s (fun _ s' => grew s s').
Proof.
  unfold runs, rng_float. destruct (SeededRandom.float (seed s)) as [f r].
  split; [exists [] | exists []]; cbn [points polygons]; symmetry; apply app_nil_r.
Qed.

(** ** Lines through a corner *)

Lemma Qeq_bool_false (x y : Q) : ~ x == y -> Qeq_bool x y = false.
Proof.
  intros H. destruct (Qeq_bool x y) eqn:E; [| reflexivity].
  apply Qeq_bool_eq in E. contradiction.
Qed.

(** The cutting line meets edge [i] when the parameter of the meeting
    point on the edge is between 0 and 1, both included. *)
Lemma crossing_hit (cs : list (Q * Q)) (x1 y1 dx1 dy1 : Q) (i : nat)
      (c0 c1 : Q * Q) :
  nth_error cs i = Some c0 ->
  nth_error cs ((i + 1) mod length cs) = Some c1 ->
  ~ dx1 * (snd c1 - snd c0) - dy1 * (fst c1 - fst c0) == 0 ->
  0 <= (dy1 * (fst c0 - x1) - dx1 * (snd c0 - y1)) /
       (dx1 * (snd c1 - snd c0) - dy1 * (fst c1 - fst c0)) ->
  (dy1 * (fst c0 - x1) - dx1 * (snd c0 - y1)) /
  (dx1 * (snd c1 - snd c0) - dy1 * (fst c1 - fst c0)) <= 1 ->
  exists t, crossing cs x1 y1 dx1 dy1 i = Some t.
Proof.
  intros H0 H1 Hd Hlo Hhi. unfold crossing, intersection.
  rewrite H0, H1. rewrite (Qeq_bool_false _ _ Hd). cbn [snd fst].
  apply Qle_bool_iff in Hlo. apply Qle_bool_iff in Hhi.
  rewrite Hlo, Hhi. cbn [andb]. eexists. reflexivity.
Qed.

(** The triangle (0,0) (4,0) (2,1): its longest edge is the first, and the
    perpendicular through the middle of that edge passes through the
    opposite corner. *)
Definition triangle : list (Q * Q) := [(0, 0); (4, 0); (2, 1)].

Lemma triangle_area : area triangle == 2.
Proof. vm_compute. reflexivity. Qed.

(** A vertical line through x = 2 meets all three edges of the triangle:
    the first in its middle, the other two at the corner (2,1). *)
Lemma triangle_crossings (c1 c2 : Q * Q) :
  fst c1 == 2 -> fst c2 - fst c1 == 0 -> ~ snd c2 - snd c1 == 0 ->
  crossings triangle c1 c2 = 3%nat.
Proof.
  destruct c1 as [x1 y1], c2 as [x2 y2]. unfold crossings. cbn [fst snd].
  generalize (x2 - x1) (y2 - y1). intros dx1 dy1 Hx Hdx Hdy.
  assert (H0 : exists t, crossing triangle x1 y1 dx1 dy1 0 = Some t).
  { eapply crossing_hit; [reflexivity | reflexivity | | |]; cbn [fst snd].
    - intros H. apply Hdy. lra.
    - assert (E : (dy1 * (0 - x1) - dx1 * (0 - y1)) /
                  (dx1 * (0 - 0) - dy1 * (4 - 0)) == 1 # 2).
      { rewrite Hx, Hdx. field. intros H. apply Hdy. lra. }
      rewrite E. discriminate.
    - assert (E : (dy1 * (0 - x1) - dx1 * (0 - y1)) /
                  (dx1 * (0 - 0) - dy1 * (4 - 0)) == 1 # 2).
      { rewrite Hx, Hdx. field. intros H. apply Hdy. lra. }
      rewrite E. discriminate. }
  assert (H1 : exists t, crossing triangle x1 y1 dx1 dy1 1 = Some t).
  { eapply crossing_hit; [reflexivity | reflexivity | | |]; cbn [fst snd].
    - intros H. apply Hdy. lra.
    - assert (E : (dy1 * (4 - x1) - dx1 * (0 - y1)) /
                  (dx1 * (1 - 0) - dy1 * (2 - 4)) == 1).
      { rewrite Hx, Hdx. field. intros H. apply Hdy. lra. }
      rewrite E. discriminate.
    - assert (E : (dy1 * (4 - x1) - dx1 * (0 - y1)) /
                  (dx1 * (1 - 0) - dy1 * (2 - 4)) == 1).
      { rewrite Hx, Hdx. field. intros H. apply Hdy. lra. }
      rewrite E. discriminate. }
  assert (H2 : exists t, crossing triangle x1 y1 dx1 dy1 2 = Some t).
  { eapply crossing_hit; [reflexivity | reflexivity | | |]; cbn [fst snd].
    - intros H. apply Hdy. lra.
    - assert (E : (dy1 * (2 - x1) - dx1 * (1 - y1)) /
                  (dx1 * (0 - 1) - dy1 * (0 - 2)) == 0).
      { rewrite Hx, Hdx. field. intros H. apply Hdy. lra. }
      rewrite E. discriminate.
    - assert (E : (dy1 * (2 - x1) - dx1 * (1 - y1)) /
                  (dx1 * (0 - 1) - dy1 * (0 - 2)) == 0).
      { rewrite Hx, Hdx. field. intros H. apply Hdy. lra. }
      rewrite E. discriminate. }
  destruct H0 as (t0 & H0), H1 as (t1 & H1), H2 as (t2 & H2).
  unfold crossed. cbn [triangle length seq flat_map].
  fold triangle. rewrite H0, H1, H2. reflexivity.
Qed.

(** ** The steps of [createAlleys] on the triangle *)

Section WithMath.

Variable Math : MathLib.

(** What the code needs of [Math.sqrt], [Math.cos], [Math.sin] and
    [Math.pow] on this input. *)
Hypothesis sqrt_nonneg : forall x, 0 <= Math_sqrt Math x.
Hypothesis sqrt_monotone :
  forall x y, x <= y -> Math_sqrt Math x <= Math_sqrt Math y.
Hypothesis cos_zero : forall x, x == 0 -> Math_cos Math x == 1.
Hypothesis sin_zero : forall x, x == 0 -> Math_sin Math x == 0.
Hypothesis pow_zero : forall b x, x == 0 -> Math_pow Math b x == 1.

Lemma run_longer (p0 p1 : Point) (c0 c1 : Q * Q) (acc : option Point * Q)
      (s : Store) :
  pt s p0 = Some c0 -> pt s p1 = Some c1 ->
  runs (longer Math p0 p1 acc) s
       (fun r s' =>
          s' = s /\
          r = (if Qlt_le_dec (snd acc)
                    (Math_sqrt Math ((fst c0 - fst c1) * (fst c0 - fst c1) +
                                     (snd c0 - snd c1) * (snd c0 - snd c1)))
               then (Some p0,
                     Math_sqrt Math ((fst c0 - fst c1) * (fst c0 - fst c1) +
                                     (snd c0 - snd c1) * (snd c0 - snd c1)))
               else acc)).
Proof.
  intros H0 H1. unfold longer.
  eapply runs_bind; [eapply (run_distance Math); eassumption |].
  intros len s1 [-> ->].
  destruct (Qlt_le_dec _ _); apply runs_ret; split; reflexivity.
Qed.

Lemma located_triangle (s : Store) (a b c : Point) :
  located s [a; b; c] triangle ->
  pt s a = Some (0, 0) /\ pt s b = Some (4, 0) /\ pt s c = Some (2, 1).
Proof.
  unfold located, triangle. intros H.
  inversion H as [| ? ? ? ? Ha H1]; subst.
  inversion H1 as [| ? ? ? ? Hb H2]; subst.
  inversion H2 as [| ? ? ? ? Hc H3]; subst.
  repeat split; assumption.
Qed.

(** The search for the longest edge stops on the first one. *)
Lemma longest_edge (P : Polygon) (a b c : Point) (s : Store) :
  poly s P = Some [a; b; c] -> located s [a; b; c] triangle ->
  runs (forEdge P (longer Math) (None, -1)) s
       (fun r s' => s' = s /\ fst r = Some a).
Proof.
  intros HP Hloc. destruct (located_triangle _ _ _ _ Hloc) as (Ha & Hb & Hc).
  unfold forEdge. eapply step_Polygon_length; [exact HP |].
  cbn [length seq forEdge_loop].
  change ((0 + 1) mod 3)%nat with 1%nat.
  change ((1 + 1) mod 3)%nat with 2%nat.
  change ((2 + 1) mod 3)%nat with 0%nat.
  eapply step_vertex; [exact HP |]. eapply step_vertex; [exact HP |].
  cbn [nth_error]. do 2 step.
  eapply runs_bind; [eapply run_longer; [exact Ha | exact Hb] |].
  intros r1 s1 [-> ->].
  eapply step_vertex; [exact HP |]. eapply step_vertex; [exact HP |].
  cbn [nth_error]. do 2 step.
  eapply runs_bind; [eapply run_longer; [exact Hb | exact Hc] |].
  intros r2 s2 [-> ->].
  eapply step_vertex; [exact HP |]. eapply step_vertex; [exact HP |].
  cbn [nth_error]. do 2 step.
  eapply runs_bind; [eapply run_longer; [exact Hc | exact Ha] |].
  intros r3 s3 [-> ->].
  apply runs_ret. split; [reflexivity |]. cbn [fst snd].
  set (e0 := (0 - 4) * (0 - 4) + (0 - 0) * (0 - 0)).
  set (e1 := (4 - 2) * (4 - 2) + (0 - 1) * (0 - 1)).
  set (e2 := (2 - 0) * (2 - 0) + (1 - 0) * (1 - 0)).
  pose proof (sqrt_nonneg e0) as H0.
  assert (H1 : Math_sqrt Math e1 <= Math_sqrt Math e0)
    by (apply sqrt_monotone; vm_compute; discriminate).
  assert (H2 : Math_sqrt Math e2 <= Math_sqrt Math e0)
    by (apply sqrt_monotone; vm_compute; discriminate).
  destruct (Qlt_le_dec (-1) (Math_sqrt Math e0)) as [L0 | L0];
    [| exfalso; lra].
  cbn [snd].
  destruct (Qlt_le_dec (Math_sqrt Math e0) (Math_sqrt Math e1)) as [L1 | L1];
    [exfalso; lra |].
  cbn [snd].
  destruct (Qlt_le_dec (Math_sqrt Math e0) (Math_sqrt Math e2)) as [L2 | L2];
    [exfalso; lra |].
  reflexivity.
Qed.

Lemma run_next_first (P : Polygon) (a b c : Point) (s : Store) :
  poly s P = Some [a; b; c] ->
  runs (next P a) s (fun r s' => s' = s /\ r = Some b).
Proof.
  intros HP. unfold next. step. cbn [length]. apply runs_ret.
  split; [reflexivity |].
  unfold array_indexOf. cbn [index_from]. rewrite Nat.eqb_refl. reflexivity.
Qed.

(** On the triangle, at half of the longest edge and with no angle,
    [bisect] returns one polygon: a copy of its input. *)
Lemma run_bisect_triangle (P : Polygon) (a b c : Point) (ratio angle gap : Q)
      (s : Store) :
  poly s P = Some [a; b; c] -> located s [a; b; c] triangle ->
  ratio == 1 # 2 -> angle == 0 ->
  runs (bisect Math P a ratio angle gap) s
       (fun res s' =>
          ext s s' /\
          exists copy, res = [copy] /\ poly s' copy = Some [a; b; c]).
Proof.
  intros HP Hloc Hr Hang.
  destruct (located_triangle _ _ _ _ Hloc) as (Ha & Hb & Hc).
  unfold bisect.
  eapply runs_bind; [exact (run_next_first P a b c s HP) |].
  intros r s0 [-> ->]. step.
  eapply runs_bind; [eapply run_interpolate; [exact Ha | exact Hb] |].
  intros p1 s1 [He1 Hp1].
  eapply runs_bind;
    [eapply run_subtract; [eapply ext_pt; [exact He1 | exact Hb]
                          | eapply ext_pt; [exact He1 | exact Ha]] |].
  intros d s2 [He2 Hd].
  pose proof (ext_pt _ _ _ _ He2 Hp1) as Hp1'.
  cbv zeta. do 4 step. cbn [fst snd].
  apply step_Point_new.
  match goal with
  | |- runs _ (alloc s2 ?c) _ => set (c2 := c)
  end.
  assert (He : ext s (alloc s2 c2)).
  { eapply ext_trans; [exact He1 |].
    eapply ext_trans; [exact He2 | apply ext_alloc]. }
  eapply runs_weaken.
  - eapply (run_cut Math);
      [ eapply ext_poly; [exact He | exact HP]
      | eapply ext_located; [exact He | exact Hloc]
      | eapply ext_pt; [apply ext_alloc | exact Hp1']
      | apply pt_alloc ].
  - intros res s3 (He3 & _ & _ & Hcopy & _).
    split; [eapply ext_trans; eassumption |].
    destruct Hcopy as (copy & -> & _ & Hpoly).
    + rewrite triangle_crossings; [discriminate | | |]; subst c2; cbn [fst snd].
      * rewrite Hr. lra.
      * rewrite (cos_zero _ Hang), (sin_zero _ Hang). lra.
      * rewrite (cos_zero _ Hang), (sin_zero _ Hang). intros H. lra.
    + exists copy. split; [reflexivity | exact Hpoly].
Qed.

(** ** C3 *)

(** C3.  [createAlleys] does not terminate on every polygon of positive
    area: on the triangle (0,0) (4,0) (2,1) with [gridChaos = 0],
    [sizeChaos = 0] and [minSq <= 2], [bisect] cuts through the corner
    (2,1), [cut] counts three crossings and returns a copy of its input,
    whose area is not below [minSq], and [createAlleys] calls itself on that
    copy, of the same area.  No depth of recursion is enough, whatever the
    generator draws. *)
Theorem createAlleys_unsplit_triangle_never_returns (fuel : nat) :
  forall (P : Polygon) (a b c : Point) (minSq emptyProb : Q) (split : bool)
         (s : Store),
    minSq <= 2 ->
    poly s P = Some [a; b; c] -> located s [a; b; c] triangle ->
    createAlleys Math fuel P minSq 0 0 emptyProb split s = OutOfFuel.
Proof.
  induction fuel as [| fuel IH]; intros P a b c minSq emptyProb split s Hmin HP Hloc;
    [reflexivity |].
  cbn [createAlleys].
  change (exhausts (createAlleys_body Math (createAlleys Math fuel) P minSq 0 0
                                      emptyProb split) s).
  unfold createAlleys_body.
  eapply exhausts_bind; [eapply longest_edge; eassumption |].
  intros [v len] s0 [-> Hv]. cbn [fst] in Hv. subst v. cbv beta zeta. cbn [fst].
  eapply exhausts_bind; [apply run_rng_float |].
  intros f s1 Hg1. cbv beta.
  pose proof (grew_poly _ _ _ _ Hg1 HP) as HP1.
  pose proof (grew_located _ _ _ _ Hg1 Hloc) as Hloc1.
  eapply exhausts_bind; [eapply (run_square P); eassumption |].
  intros sq s1' [-> ->]. cbv beta.
  eapply exhausts_bind; [apply run_rng_float |].
  intros f' s2 Hg2. cbv beta.
  pose proof (grew_poly _ _ _ _ Hg2 HP1) as HP2.
  pose proof (grew_located _ _ _ _ Hg2 Hloc1) as Hloc2.
  apply exhausts_the.
  eapply exhausts_bind.
  { eapply run_bisect_triangle; [exact HP2 | exact Hloc2 | |].
    - field.
    - ring. }
  intros halves s3 (He3 & copy & -> & Hcopy). cbv beta.
  pose proof (ext_located _ _ _ _ He3 Hloc2) as Hloc3.
  cbn [alleys_over].
  eapply exhausts_bind; [eapply (run_square copy); eassumption |].
  intros sq s3' [-> ->]. cbv beta.
  eapply exhausts_bind; [apply run_rng_float |].
  intros f3 s4 Hg4. cbv beta.
  pose proof (grew_poly _ _ _ _ Hg4 Hcopy) as Hcopy4.
  pose proof (grew_located _ _ _ _ Hg4 Hloc3) as Hloc4.
  apply exhausts_left.
  destruct (Qlt_le_dec (area triangle)
                       (minSq * Math_pow Math 2 (4 * 0 * (f3 - (1 # 2)))))
    as [Hlt | Hle].
  - exfalso. rewrite pow_zero in Hlt by ring. rewrite triangle_area in Hlt. lra.
  - eapply exhausts_bind; [eapply (run_square copy); eassumption |].
    intros sq' s4' [-> ->]. cbv beta.
    eapply exhausts_bind; [apply run_rng_float |].
    intros f4 s5 Hg5. cbv beta.
    eapply exhausts_bind; [apply run_rng_float |].
    intros f5 s6 Hg6. cbv beta.
    apply exhausts_left. unfold exhausts.
    apply (IH copy a b c); [exact Hmin | |].
    + eapply grew_poly; [exact Hg6 |]. eapply grew_poly; [exact Hg5 | exact Hcopy4].
    + eapply grew_located; [exact Hg6 |].
      eapply grew_located; [exact Hg5 | exact Hloc4].
Qed.

End WithMath.

(** ** An instance *)

Lemma sqrt_floor_nonneg (x : Q) : 0 <= sqrt_floor x.
Proof.
  unfold sqrt_floor. change 0 with (inject_Z 0). rewrite <- Zle_Qle.
  apply Z.sqrt_nonneg.
Qed.

Lemma sqrt_floor_monotone (x y : Q) : x <= y -> sqrt_floor x <= sqrt_floor y.
Proof.
  intros H. unfold sqrt_floor. rewrite <- Zle_Qle.
  apply Z.sqrt_le_mono, Qfloor_resp_le. exact H.
Qed.

Lemma testMath_cos_zero (x : Q) : x == 0 -> Math_cos testMath x == 1.
Proof. intros H. cbn [Math_cos testMath]. rewrite H. reflexivity. Qed.

Lemma testMath_sin_zero (x : Q) : x == 0 -> Math_sin testMath x == 0.
Proof. intros H. exact H. Qed.

Lemma testMath_pow_zero (b x : Q) : x == 0 -> Math_pow testMath b x == 1.
Proof. intros H. cbn [Math_pow testMath]. rewrite H. ring. Qed.

(** The triangle as the only polygon of a store. *)
Definition triangle_store : Store :=
  mkStore triangle [[0; 1; 2]%nat] 1%Z.

Lemma createAlleys_unsplit_triangle_witness :
  createAlleys testMath 1000 0%nat 1 0 0 (4 # 100) true triangle_store
  = OutOfFuel.
Proof.
  apply (createAlleys_unsplit_triangle_never_returns
           testMath sqrt_floor_nonneg sqrt_floor_monotone
           testMath_cos_zero testMath_sin_zero testMath_pow_zero
           1000 0%nat 0%nat 1%nat 2%nat 1 (4 # 100) true triangle_store).
  - discriminate.
  - reflexivity.
  - repeat constructor.
Defined.

Set Implicit Arguments.

End AlleyFacts.

(* ===================================================================== *)
(** * The draws of [SeededRandom] *)
(* ===================================================================== *)

Module RandomFacts.

Import SeededRandom.
Local Open Scope Z_scope.

(** The states the generator moves among once started from a seed in
    [1 .. N-1]. *)
Definition valid (r : t) : Prop := 1 <= r < N.

Lemma G_N_coprime : Z.gcd N G = 1.
Proof. vm_compute. reflexivity. Qed.

Lemma next_valid (r : t) :
  valid r -> 1 <= fst (next r) < N /\ snd (next r) = fst (next r).
Proof.
  unfold valid. intros Hr.
  rewrite SeededRandomFacts.next_exact by lia.
  cbn [fst snd]. split; [| reflexivity].
  assert (HN : 0 < N) by reflexivity.
  assert (HG : 0 < G) by reflexivity.
  rewrite Z.rem_mod_nonneg by (unfold N in *; nia).
  pose proof (Z.mod_pos_bound (r * G) N HN) as Hb.
  assert (Hnz : (r * G) mod N <> 0).
  { intros H0. apply Z.mod_divide in H0; [| unfold N; lia].
    rewrite Z.mul_comm in H0.
    apply Z.gauss in H0; [| exact G_N_coprime].
    apply Z.divide_pos_le in H0; lia. }
  lia.
Qed.

Lemma float_valid (r : t) :
  valid r ->
  (0 < fst (float r) /\ fst (float r) < 1)%Q /\ valid (snd (float r)).
Proof.
  intros Hr. destruct (next_valid Hr) as [Hv Hs].
  unfold float. destruct (next r) as [v r']. cbn [fst snd] in *. subst r'.
  assert (HN : (0 < inject_Z N)%Q) by reflexivity.
  split; [| exact Hv]. split.
  - apply Qlt_shift_div_l; [exact HN |]. rewrite Qmult_0_l.
    change 0%Q with (inject_Z 0). rewrite <- Zlt_Qlt. lia.
  - apply Qlt_shift_div_r; [exact HN |]. rewrite Qmult_1_l.
    rewrite <- Zlt_Qlt. lia.
Qed.

Lemma normal_valid (r : t) :
  valid r ->
  (0 < fst (normal r) /\ fst (normal r) < 1)%Q /\ valid (snd (normal r)).
Proof.
  intros Hr. unfold normal.
  destruct (float_valid Hr) as [[Ha0 Ha1] Hr1].
  destruct (float r) as [a r1]. cbn [fst snd] in *.
  destruct (float_valid Hr1) as [[Hb0 Hb1] Hr2].
  destruct (float r1) as [b r2]. cbn [fst snd] in *.
  destruct (float_valid Hr2) as [[Hc0 Hc1] Hr3].
  destruct (float r2) as [c r3]. cbn [fst snd] in *.
  split; [| exact Hr3]. split.
  - apply Qlt_shift_div_l; [reflexivity | lra].
  - apply Qlt_shift_div_r; [reflexivity | lra].
Qed.

(** ** [next] *)

(** X1.  From a state in [1 .. N-1] the generator never reaches 0 and never
    leaves the range: the value drawn, which is the new state, is again
    in [1 .. N-1]. *)
Theorem next_never_leaves_range (r : t) (n : nat) :
  valid r -> Forall (fun v => 1 <= v < N) (stream n r).
Proof.
  revert r. induction n as [| n IH]; intros r Hr; cbn [stream]; [constructor |].
  destruct (next_valid Hr) as [Hv Hs].
  destruct (next r) as [v r']. cbn [fst snd] in *. subst r'.
  constructor; [exact Hv | apply IH; exact Hv].
Qed.

Lemma next_never_leaves_range_witness :
  Forall (fun v => 1 <= v < N) (stream 5 (new (Some 42) 0)).
Proof. apply next_never_leaves_range. unfold valid, N. cbn. lia. Defined.

(** ** [float] and [normal] *)

(** X2.  From a state in [1 .. N-1], [float()] and [normal()] return numbers
    strictly between 0 and 1 (0 itself is never returned), and leave the
    state in the range. *)
Theorem float_and_normal_strictly_inside_unit (r : t) :
  valid r ->
  (0 < fst (float r) < 1)%Q /\ valid (snd (float r)) /\
  (0 < fst (normal r) < 1)%Q /\ valid (snd (normal r)).
Proof.
  intros Hr. destruct (float_valid Hr) as [Hf Hs].
  destruct (normal_valid Hr) as [Hn Hs'].
  split; [exact Hf |]. split; [exact Hs |]. split; [exact Hn | exact Hs'].
Qed.

Lemma float_and_normal_witness :
  (0 < fst (float 1%Z) < 1)%Q /\ valid (snd (float 1)) /\
  (0 < fst (normal 1%Z) < 1)%Q /\ valid (snd (normal 1)).
Proof.
  apply float_and_normal_strictly_inside_unit. unfold valid, N. lia.
Defined.

(** ** [int] *)

(** X3.  For integers [min < max] and a state in [1 .. N-1], [int(min, max)]
    is an integer of [min .. max-1]. *)
Theorem int_within_bounds (min max : Z) (r : t) :
  valid r -> min < max ->
  min <= fst (int min max r) < max /\ valid (snd (int min max r)).
Proof.
  intros Hr Hlt. unfold int.
  destruct (float_valid Hr) as [[Hf0 Hf1] Hs]. unfold float in Hf0, Hf1, Hs.
  destruct (next r) as [v r']. cbn [fst snd] in *.
  split; [| exact Hs].
  set (f := (inject_Z v / inject_Z N)%Q) in *.
  assert (Hd : (0 < inject_Z (max - min))%Q).
  { change 0%Q with (inject_Z 0). rewrite <- Zlt_Qlt. lia. }
  assert (Hlo : (inject_Z min <= inject_Z min + f * inject_Z (max - min))%Q).
  { assert (0 <= f * inject_Z (max - min))%Q
      by (apply Qmult_le_0_compat; apply Qlt_le_weak; assumption).
    lra. }
  assert (Hhi : (inject_Z min + f * inject_Z (max - min) < inject_Z max)%Q).
  { assert (Hm : (f * inject_Z (max - min) < 1 * inject_Z (max - min))%Q)
      by (apply Qmult_lt_compat_r; assumption).
    unfold Zminus in Hm. rewrite inject_Z_plus, inject_Z_opp in Hm.
    unfold Zminus. rewrite inject_Z_plus, inject_Z_opp. lra. }
  split.
  - rewrite <- (Qfloor_Z min) at 1. apply Qfloor_resp_le. exact Hlo.
  - rewrite Zlt_Qlt. eapply Qle_lt_trans; [apply Qfloor_le | exact Hhi].
Qed.

Lemma int_within_bounds_witness :
  3 <= fst (int 3 10 42) < 10 /\ valid (snd (int 3 10 42)).
Proof. apply int_within_bounds; unfold valid, N; lia. Defined.

(** ** [fuzzy] *)

(** X4.  [fuzzy(0)] is 0.5 and draws nothing; for [f > 0] and a state in
    [1 .. N-1], [fuzzy(f)] lies strictly between [(1 - f) / 2] and
    [(1 + f) / 2]. *)
Theorem fuzzy_centered (f : Q) (r : t) :
  valid r ->
  (f == 0 -> fuzzy f r = (1 # 2, r))%Q /\
  (0 < f ->
   (1 - f) / 2 < fst (fuzzy f r) /\ fst (fuzzy f r) < (1 + f) / 2)%Q.
Proof.
  intros Hr. unfold fuzzy. split.
  - intros H0. apply Qeq_bool_iff in H0. rewrite H0. reflexivity.
  - intros Hf.
    assert (Hb : Qeq_bool f 0 = false).
    { destruct (Qeq_bool f 0) eqn:E; [| reflexivity].
      apply Qeq_bool_eq in E. lra. }
    rewrite Hb. destruct (normal_valid Hr) as [[Hn0 Hn1] _].
    destruct (normal r) as [n r']. cbn [fst snd] in *.
    assert (H1 : (0 < f * n)%Q) by (apply Qmult_lt_0_compat; assumption).
    assert (H2 : (f * n < f * 1)%Q).
    { rewrite (Qmult_comm f n), (Qmult_comm f 1).
      apply Qmult_lt_compat_r; assumption. }
    split.
    + apply Qlt_shift_div_r; [reflexivity |].
      assert (E : (((1 - f) / 2 + f * n) * 2 == 1 - f + 2 * (f * n))%Q) by field.
      rewrite E. lra.
    + apply Qlt_shift_div_l; [reflexivity |].
      assert (E : (((1 - f) / 2 + f * n) * 2 == 1 - f + 2 * (f * n))%Q) by field.
      rewrite E. lra.
Qed.

Lemma fuzzy_centered_witness :
  ((0 == 0 -> fuzzy 0 7%Z = (1 # 2, 7%Z)) /\
   (0 < 1 ->
    (1 - 1) / 2 < fst (fuzzy 1 7%Z) /\ fst (fuzzy 1 7%Z) < (1 + 1) / 2))%Q.
Proof.
  split.
  - apply (fuzzy_centered 0 (r := 7)). unfold valid, N. lia.
  - apply (fuzzy_centered 1 (r := 7)). unfold valid, N. lia.
Defined.

(** ** [bool] *)

(** X5.  From a state in [1 .. N-1], [bool(chance)] is always true for
    [chance >= 1] and always false for [chance <= 0]; in both cases it
    still consumes one draw. *)
Theorem bool_certain_and_impossible (chance : Q) (r : t) :
  valid r ->
  snd (bool chance r) = snd (next r) /\
  (1 <= chance -> fst (bool chance r) = true)%Q /\
  (chance <= 0 -> fst (bool chance r) = false)%Q.
Proof.
  intros Hr. unfold bool.
  destruct (float_valid Hr) as [[Hf0 Hf1] _]. unfold float in *.
  destruct (next r) as [v r']. cbn [fst snd] in *.
  split; [reflexivity |]. split.
  - intros Hc.
    assert (Hlt : (inject_Z v / inject_Z N < chance)%Q) by lra.
    apply Qlt_alt in Hlt. unfold Qcompare in *. rewrite Hlt. reflexivity.
  - intros Hc.
    assert (Hgt : (chance < inject_Z v / inject_Z N)%Q) by lra.
    apply Qgt_alt in Hgt. unfold Qcompare in *. rewrite Hgt. reflexivity.
Qed.

Lemma bool_certain_and_impossible_witness :
  snd (bool 1 5) = snd (next 5) /\
  (1 <= 1 -> fst (bool 1 5%Z) = true)%Q /\
  (1 <= 0 -> fst (bool 1 5%Z) = false)%Q.
Proof. apply bool_certain_and_impossible. unfold valid, N. lia. Defined.

(** ** Seeds that are multiples of [N] *)

(** X6.  The constructor keeps a positive seed as it is, also when it is a
    multiple of [N] (small enough for the first product to be exact):
    the first draw is then 0, and so is every later one ([float()]
    returns 0 for ever). *)
Theorem multiple_of_N_seed_draws_zeros (k now : Z) (n : nat) :
  1 <= k -> k * N * G < 2 ^ 53 ->
  stream n (new (Some (k * N)) now) = repeat 0 n.
Proof.
  intros Hk Hsmall.
  assert (Hnew : new (Some (k * N)) now = k * N).
  { unfold new. destruct (Z.leb_spec (k * N) 0) as [H | H]; [| reflexivity].
    unfold N in H. lia. }
  rewrite Hnew.
  assert (Hzero : forall m, stream m 0 = repeat 0 m).
  { induction m as [| m IH]; [reflexivity |].
    cbn [stream repeat]. unfold next. cbn [Z.mul].
    rewrite SeededRandomFacts.to_number_exact by reflexivity.
    rewrite Z.rem_0_l by (unfold N; lia).
    rewrite IH. reflexivity. }
  destruct n as [| n]; [reflexivity |].
  cbn [stream repeat]. unfold next.
  rewrite SeededRandomFacts.to_number_exact
    by (rewrite Z.abs_eq; [exact Hsmall | unfold N, G; lia]).
  replace (k * N * G) with (k * G * N) by ring.
  rewrite Z.rem_mul by (unfold N; lia).
  rewrite Hzero. reflexivity.
Qed.

Lemma multiple_of_N_seed_witness :
  stream 4 (new (Some (1 * N)) 0) = repeat 0 4%nat.
Proof. apply multiple_of_N_seed_draws_zeros; [lia | vm_compute; reflexivity]. Defined.

End RandomFacts.

(* ===================================================================== *)
(** * Properties of the number and array helpers *)
(* ===================================================================== *)

Module UtilsFacts.

Import ArrayUtils.
Unset Implicit Arguments.

Section Elements.

Variable A : Type.
Variable eq_dec : forall x y : A, {x = y} + {x <> y}.

(** ** [indexOf] *)

Lemma indexOf_from_absent (a : list A) (el : A) (i : Z) :
  (0 <= i)%Z ->
  (indexOf_from eq_dec a el i = -1 <-> ~ In el a)%Z /\
  (indexOf_from eq_dec a el i = -1 \/ i <= indexOf_from eq_dec a el i)%Z.
Proof.
  revert i. induction a as [| x a IH]; intros i Hi; cbn [indexOf_from].
  - split; [| left; reflexivity]. split; [intros _ [] | reflexivity].
  - destruct (eq_dec x el) as [-> | Hne].
    + split; [| right; lia]. split; [lia |].
      intros H. exfalso. apply H. left. reflexivity.
    + destruct (IH (i + 1)%Z ltac:(lia)) as [Hiff Hge].
      split; [| lia]. rewrite Hiff. split.
      * intros H [Heq | Hin]; [congruence | contradiction].
      * intros H Hin. apply H. right. assumption.
Qed.

Lemma indexOf_absent (a : list A) (el : A) :
  (indexOf eq_dec a el =? -1)%Z = true <-> ~ In el a.
Proof.
  unfold indexOf. rewrite Z.eqb_eq.
  apply (indexOf_from_absent a el 0%Z). lia.
Qed.

(** ** [shuffle] *)

Lemma splice_insert_perm (start : Z) (e : A) (a : list A) :
  Permutation (e :: a) (splice_insert start e a).
Proof.
  unfold splice_insert.
  set (pos := Z.to_nat _).
  rewrite <- (firstn_skipn pos a) at 1.
  apply Permutation_middle.
Qed.

Lemma shuffle_loop_perm (a : list A) :
  forall result r,
    Permutation (a ++ result) (fst (shuffle_loop a result r)) /\
    snd (shuffle_loop a result r) =
    Nat.iter (length a) (fun r => snd (SeededRandom.next r)) r.
Proof.
  induction a as [| e a IH]; intros result r; cbn [shuffle_loop].
  - split; [apply Permutation_refl | reflexivity].
  - unfold SeededRandom.float.
    destruct (SeededRandom.next r) as [v r'] eqn:Hnext.
    match goal with
    | |- context [shuffle_loop a ?res r'] =>
        destruct (IH res r') as [Hp Hs]; set (res' := res) in *
    end.
    split.
    + eapply Permutation_trans; [| exact Hp].
      cbn [app]. eapply Permutation_trans; [apply Permutation_middle |].
      apply Permutation_app_head. apply splice_insert_perm.
    + rewrite Hs. cbn [length]. rewrite Nat.iter_succ_r.
      rewrite Hnext. reflexivity.
Qed.

(** X7.  [shuffle] returns a permutation of its argument, whatever the state
    of the generator, and consumes one draw per element. *)
Theorem shuffle_is_permutation (a : list A) (r : SeededRandom.t) :
  Permutation a (fst (shuffle a r)) /\
  snd (shuffle a r) =
  Nat.iter (length a) (fun r => snd (SeededRandom.next r)) r.
Proof.
  unfold shuffle. destruct (shuffle_loop_perm a [] r) as [Hp Hs].
  rewrite app_nil_r in Hp. split; assumption.
Qed.

(** ** [randomElement] *)

(** X8.  On a non-empty array and a generator state of [1 .. N-1],
    [randomElement] returns an element of the array (never
    [undefined]). *)
Theorem randomElement_is_element (a : list A) (r : SeededRandom.t) :
  RandomFacts.valid r -> a <> [] ->
  exists x, fst (randomElement a r) = Some x /\ In x a.
Proof.
  intros Hr Ha. unfold randomElement.
  destruct (RandomFacts.float_valid Hr) as [[Hf0 Hf1] _].
  destruct (SeededRandom.float r) as [f r']. cbn [fst snd] in *.
  set (len := Z.of_nat (length a)).
  assert (Hlen : (0 < len)%Z) by (destruct a; [contradiction | cbn; lia]).
  assert (HlenQ : (0 < inject_Z len)%Q).
  { change 0%Q with (inject_Z 0). rewrite <- Zlt_Qlt. exact Hlen. }
  assert (Hlo : (0 <= Qfloor (f * inject_Z len))%Z).
  { change 0%Z with (Qfloor (inject_Z 0)). apply Qfloor_resp_le.
    change (inject_Z 0) with 0%Q.
    apply Qmult_le_0_compat; apply Qlt_le_weak; assumption. }
  assert (Hhi : (Qfloor (f * inject_Z len) < len)%Z).
  { rewrite Zlt_Qlt. eapply Qle_lt_trans; [apply Qfloor_le |].
    rewrite <- (Qmult_1_l (inject_Z len)) at 2.
    apply Qmult_lt_compat_r; assumption. }
  unfold at_index.
  destruct (Z.ltb_spec (Qfloor (f * inject_Z len)) 0) as [H | _]; [lia |].
  destruct (nth_error a (Z.to_nat (Qfloor (f * inject_Z len)))) as [x |] eqn:Hx.
  - exists x. split; [reflexivity |]. eapply nth_error_In. exact Hx.
  - apply nth_error_None in Hx. unfold len in *. lia.
Qed.

(** ** [minBy] and [maxBy] *)

(** The loop of [minBy] over [rest], when [x] at index [i] is the first
    least element of the part [pre] already seen. *)
Lemma minBy_loop_spec (fn : option A -> ends Q) (f : A -> Q) (rest : list A) :
  forall (pre : list A) (x : A) (i : nat),
    (forall y, In y rest -> fn (Some y) = Returns (f y)) ->
    nth_error pre i = Some x ->
    (forall y, In y pre -> f x <= f y)%Q ->
    (forall j y, (j < i)%nat -> nth_error pre j = Some y -> f x < f y)%Q ->
    exists i' x',
      nth_error (pre ++ rest) i' = Some x' /\
      minBy_loop fn rest (Some x) (f x) = Returns (Some x') /\
      (forall y, In y (pre ++ rest) -> f x' <= f y)%Q /\
      (forall j y, (j < i')%nat -> nth_error (pre ++ rest) j = Some y ->
                   f x' < f y)%Q.
Proof.
  induction rest as [| z rest IH]; intros pre x i Hfn Hx Hmin Hfirst.
  - exists i, x. rewrite app_nil_r. repeat split; assumption.
  - cbn [minBy_loop]. rewrite (Hfn z) by (left; reflexivity).
    assert (Hfn' : forall y, In y rest -> fn (Some y) = Returns (f y))
      by (intros y Hy; apply Hfn; right; exact Hy).
    assert (Happ : pre ++ z :: rest = (pre ++ [z]) ++ rest)
      by (rewrite <- app_assoc; reflexivity).
    rewrite Happ.
    destruct (Qlt_le_dec (f z) (f x)) as [Hlt | Hle].
    + apply (IH (pre ++ [z]) z (length pre) Hfn').
      * rewrite nth_error_app2 by lia. rewrite Nat.sub_diag. reflexivity.
      * intros y Hy. apply in_app_or in Hy.
        destruct Hy as [Hy | [<- | []]]; [| apply Qle_refl].
        specialize (Hmin y Hy). lra.
      * intros j y Hj Hy. rewrite nth_error_app1 in Hy by exact Hj.
        apply nth_error_In in Hy. specialize (Hmin y Hy). lra.
    + apply (IH (pre ++ [z]) x i Hfn').
      * rewrite nth_error_app1; [exact Hx |].
        apply nth_error_Some. congruence.
      * intros y Hy. apply in_app_or in Hy.
        destruct Hy as [Hy | [<- | []]]; [apply Hmin; exact Hy | exact Hle].
      * intros j y Hj Hy.
        assert (Hi : (i < length pre)%nat) by (apply nth_error_Some; congruence).
        rewrite nth_error_app1 in Hy by lia. apply (Hfirst j y Hj Hy).
Qed.

(** The loop calls [fn] on every element it is given. *)
Lemma minBy_loop_throws (fn : option A -> ends Q) (rest : list A) (y : A) :
  In y rest -> fn (Some y) = Throws ->
  forall result min, minBy_loop fn rest result min = Throws.
Proof.
  intros Hin Hy. induction rest as [| z rest IH]; [contradiction |].
  intros result min. cbn [minBy_loop].
  destruct (fn (Some z)) as [m |] eqn:Hz; [| reflexivity].
  destruct Hin as [-> | Hin]; [congruence |].
  destruct (Qlt_le_dec m min); apply IH; exact Hin.
Qed.

(** X9.  [minBy] calls [fn] on [a[0]] first, which is [undefined] when the
    array is empty: on an empty array it throws if the callback throws on
    [undefined], as a callback that reads its argument does, and returns
    [undefined] only if the callback returns there.  It throws whenever
    the callback throws on an element of the array.  On a non-empty
    array on which the callback returns, it returns the first of the
    elements on which the callback's number is least. *)
Theorem minBy_first_least (a : list A) (fn : option A -> ends Q) :
  minBy [] fn = match fn None with
                | Returns _ => Returns None
                | Throws => Throws
                end /\
  (forall f : A -> Q, minBy [] (reading f) = Throws) /\
  (forall y, In y a -> fn (Some y) = Throws -> minBy a fn = Throws) /\
  (forall f : A -> Q,
      a <> [] ->
      (forall y, In y a -> fn (Some y) = Returns (f y)) ->
      exists i x,
        nth_error a i = Some x /\ minBy a fn = Returns (Some x) /\
        (forall y, In y a -> f x <= f y)%Q /\
        (forall j y, (j < i)%nat -> nth_error a j = Some y -> f x < f y)%Q).
Proof.
  split; [| split; [| split]].
  - unfold minBy. cbn [nth_error skipn]. destruct (fn None); reflexivity.
  - intros f. reflexivity.
  - intros y Hin Hy. destruct a as [| x0 rest]; [contradiction |].
    unfold minBy. cbn [nth_error skipn].
    destruct (fn (Some x0)) as [m |] eqn:H0; [| reflexivity].
    destruct Hin as [-> | Hin]; [congruence |].
    apply (minBy_loop_throws fn rest y Hin Hy).
  - intros f Ha Hfn. destruct a as [| x0 rest]; [contradiction |].
    unfold minBy. cbn [nth_error skipn].
    rewrite (Hfn x0) by (left; reflexivity).
    apply (minBy_loop_spec fn f rest [x0] x0 0%nat).
    + intros y Hy. apply Hfn. right. exact Hy.
    + reflexivity.
    + intros y [<- | []]. apply Qle_refl.
    + intros j y Hj. lia.
Qed.

(** The loop of [maxBy] over [rest], when [x] at index [i] is the first
    greatest element of the part [pre] already seen. *)
Lemma maxBy_loop_spec (fn : option A -> ends Q) (f : A -> Q) (rest : list A) :
  forall (pre : list A) (x : A) (i : nat),
    (forall y, In y rest -> fn (Some y) = Returns (f y)) ->
    nth_error pre i = Some x ->
    (forall y, In y pre -> f y <= f x)%Q ->
    (forall j y, (j < i)%nat -> nth_error pre j = Some y -> f y < f x)%Q ->
    exists i' x',
      nth_error (pre ++ rest) i' = Some x' /\
      maxBy_loop fn rest (Some x) (f x) = Returns (Some x') /\
      (forall y, In y (pre ++ rest) -> f y <= f x')%Q /\
      (forall j y, (j < i')%nat -> nth_error (pre ++ rest) j = Some y ->
                   f y < f x')%Q.
Proof.
  induction rest as [| z rest IH]; intros pre x i Hfn Hx Hmax Hfirst.
  - exists i, x. rewrite app_nil_r. repeat split; assumption.
  - cbn [maxBy_loop]. rewrite (Hfn z) by (left; reflexivity).
    assert (Hfn' : forall y, In y rest -> fn (Some y) = Returns (f y))
      by (intros y Hy; apply Hfn; right; exact Hy).
    assert (Happ : pre ++ z :: rest = (pre ++ [z]) ++ rest)
      by (rewrite <- app_assoc; reflexivity).
    rewrite Happ.
    destruct (Qlt_le_dec (f x) (f z)) as [Hlt | Hle].
    + apply (IH (pre ++ [z]) z (length pre) Hfn').
      * rewrite nth_error_app2 by lia. rewrite Nat.sub_diag. reflexivity.
      * intros y Hy. apply in_app_or in Hy.
        destruct Hy as [Hy | [<- | []]]; [| apply Qle_refl].
        specialize (Hmax y Hy). lra.
      * intros j y Hj Hy. rewrite nth_error_app1 in Hy by exact Hj.
        apply nth_error_In in Hy. specialize (Hmax y Hy). lra.
    + apply (IH (pre ++ [z]) x i Hfn').
      * rewrite nth_error_app1; [exact Hx |].
        apply nth_error_Some. congruence.
      * intros y Hy. apply in_app_or in Hy.
        destruct Hy as [Hy | [<- | []]]; [apply Hmax; exact Hy | exact Hle].
      * intros j y Hj Hy.
        assert (Hi : (i < length pre)%nat) by (apply nth_error_Some; congruence).
        rewrite nth_error_app1 in Hy by lia. apply (Hfirst j y Hj Hy).
Qed.

(** The loop calls [fn] on every element it is given. *)
Lemma maxBy_loop_throws (fn : option A -> ends Q) (rest : list A) (y : A) :
  In y rest -> fn (Some y) = Throws ->
  forall result min, maxBy_loop fn rest result min = Throws.
Proof.
  intros Hin Hy. induction rest as [| z rest IH]; [contradiction |].
  intros result min. cbn [maxBy_loop].
  destruct (fn (Some z)) as [m |] eqn:Hz; [| reflexivity].
  destruct Hin as [-> | Hin]; [congruence |].
  destruct (Qlt_le_dec min m); apply IH; exact Hin.
Qed.

(** X10.  [maxBy] calls [fn] on [a[0]] first, which is [undefined] when the
    array is empty: on an empty array it throws if the callback throws on
    [undefined], as a callback that reads its argument does, and returns
    [undefined] only if the callback returns there.  It throws whenever
    the callback throws on an element of the array.  On a non-empty
    array on which the callback returns, it returns the first of the
    elements on which the callback's number is greatest. *)
Theorem maxBy_first_greatest (a : list A) (fn : option A -> ends Q) :
  maxBy [] fn = match fn None with
                | Returns _ => Returns None
                | Throws => Throws
                end /\
  (forall f : A -> Q, maxBy [] (reading f) = Throws) /\
  (forall y, In y a -> fn (Some y) = Throws -> maxBy a fn = Throws) /\
  (forall f : A -> Q,
      a <> [] ->
      (forall y, In y a -> fn (Some y) = Returns (f y)) ->
      exists i x,
        nth_error a i = Some x /\ maxBy a fn = Returns (Some x) /\
        (forall y, In y a -> f y <= f x)%Q /\
        (forall j y, (j < i)%nat -> nth_error a j = Some y -> f y < f x)%Q).
Proof.
  split; [| split; [| split]].
  - unfold maxBy. cbn [nth_error skipn]. destruct (fn None); reflexivity.
  - intros f. reflexivity.
  - intros y Hin Hy. destruct a as [| x0 rest]; [contradiction |].
    unfold maxBy. cbn [nth_error skipn].
    destruct (fn (Some x0)) as [m |] eqn:H0; [| reflexivity].
    destruct Hin as [-> | Hin]; [congruence |].
    apply (maxBy_loop_throws fn rest y Hin Hy).
  - intros f Ha Hfn. destruct a as [| x0 rest]; [contradiction |].
    unfold maxBy. cbn [nth_error skipn].
    rewrite (Hfn x0) by (left; reflexivity).
    apply (maxBy_loop_spec fn f rest [x0] x0 0%nat).
    + intros y Hy. apply Hfn. right. exact Hy.
    + reflexivity.
    + intros y [<- | []]. apply Qle_refl.
    + intros j y Hj. lia.
Qed.

(** ** [addUnique] *)

(** X11.  [addUnique] leaves the array holding [el]; it adds nothing but [el],
    keeps an array without duplicates free of them, and a second call
    changes nothing. *)
Theorem addUnique_keeps_elements_unique (a : list A) (el : A) :
  In el (addUnique eq_dec a el) /\
  (forall x, In x (addUnique eq_dec a el) <-> In x a \/ x = el) /\
  (NoDup a -> NoDup (addUnique eq_dec a el)) /\
  addUnique eq_dec (addUnique eq_dec a el) el = addUnique eq_dec a el.
Proof.
  unfold addUnique.
  destruct (indexOf eq_dec a el =? -1)%Z eqn:Hidx.
  - pose proof (proj1 (indexOf_absent a el) Hidx) as Hnin.
    assert (Hin : In el (a ++ [el])) by (apply in_or_app; right; left; reflexivity).
    split; [exact Hin |]. split; [| split].
    + intros x. rewrite in_app_iff. cbn. intuition congruence.
    + intros Hnd. apply NoDup_app; [exact Hnd | repeat constructor; intros [] |].
      intros x Hx [<- | []]. contradiction.
    + destruct (indexOf eq_dec (a ++ [el]) el =? -1)%Z eqn:Hidx'; [| reflexivity].
      apply indexOf_absent in Hidx'. contradiction.
  - assert (Hin : In el a).
    { destruct (in_dec eq_dec el a) as [H | H]; [exact H |].
      apply indexOf_absent in H. congruence. }
    split; [exact Hin |]. split; [| split].
    + intros x. intuition congruence.
    + trivial.
    + rewrite Hidx. reflexivity.
Qed.

End Elements.

Lemma randomElement_is_element_witness :
  exists x, fst (randomElement [10; 20; 30]%Z 42%Z) = Some x /\
            In x [10; 20; 30]%Z.
Proof.
  apply randomElement_is_element;
    [unfold RandomFacts.valid, SeededRandom.N; lia | discriminate].
Defined.

Lemma minBy_first_least_witness :
  exists i x,
    nth_error [3; 1; 2; 1]%Q i = Some x /\
    minBy [3; 1; 2; 1]%Q (reading (fun q => q)) = Returns (Some x) /\
    (forall y, In y [3; 1; 2; 1]%Q -> x <= y)%Q /\
    (forall j y, (j < i)%nat -> nth_error [3; 1; 2; 1]%Q j = Some y -> x < y)%Q.
Proof.
  apply (proj2 (proj2 (proj2
           (minBy_first_least Q [3; 1; 2; 1]%Q (reading (fun q => q)))))
           (fun q => q)).
  - discriminate.
  - intros y _. reflexivity.
Defined.

Lemma maxBy_first_greatest_witness :
  exists i x,
    nth_error [1; 3; 2; 3]%Q i = Some x /\
    maxBy [1; 3; 2; 3]%Q (reading (fun q => q)) = Returns (Some x) /\
    (forall y, In y [1; 3; 2; 3]%Q -> y <= x)%Q /\
    (forall j y, (j < i)%nat -> nth_error [1; 3; 2; 3]%Q j = Some y -> y < x)%Q.
Proof.
  apply (proj2 (proj2 (proj2
           (maxBy_first_greatest Q [1; 3; 2; 3]%Q (reading (fun q => q)))))
           (fun q => q)).
  - discriminate.
  - intros y _. reflexivity.
Defined.

Set Implicit Arguments.

End UtilsFacts.

(* ===================================================================== *)
(** * Properties of the input mapping *)
(* ===================================================================== *)

Module AzgaarFacts.

Import MathUtils AzgaarInput.
Unset Implicit Arguments.

(** ** [Math.round] *)

Lemma Math_round_monotone (x y : Q) :
  (x <= y)%Q -> (Math_round x <= Math_round y)%Z.
Proof. intros H. unfold Math_round. apply Qfloor_resp_le. lra. Qed.

Lemma Math_round_ge (x : Q) (k : Z) :
  (inject_Z k <= x)%Q -> (k <= Math_round x)%Z.
Proof.
  intros H. unfold Math_round. rewrite <- (Qfloor_Z k).
  apply Qfloor_resp_le. lra.
Qed.

Lemma Math_round_le (x : Q) (k : Z) :
  (x <= inject_Z k)%Q -> (Math_round x <= k)%Z.
Proof.
  intros H. unfold Math_round.
  pose proof (Qfloor_le (x + (1 # 2))) as Hf.
  assert (Hlt : (inject_Z (Qfloor (x + (1 # 2))) < inject_Z (k + 1))%Q).
  { rewrite inject_Z_plus. change (inject_Z 1) with 1%Q. lra. }
  rewrite <- Zlt_Qlt in Hlt. lia.
Qed.

Lemma frac_bounds (n d m : Q) :
  (0 < d -> 0 <= m -> 0 <= n -> n <= d ->
   0 <= n / d * m /\ n / d * m <= m)%Q.
Proof.
  intros Hd Hm Hn Hnd.
  assert (H0 : (0 <= n / d)%Q).
  { apply Qle_shift_div_l; [exact Hd | lra]. }
  assert (H1 : (n / d <= 1)%Q).
  { apply Qle_shift_div_r; [exact Hd | lra]. }
  split.
  - apply Qmult_le_0_compat; assumption.
  - rewrite <- (Qmult_1_l m) at 2. apply Qmult_le_compat_r; assumption.
Qed.

Lemma frac_nonneg (n d m : Q) :
  (0 < d -> 0 <= m -> 0 <= n -> 0 <= n / d * m)%Q.
Proof.
  intros Hd Hm Hn. apply Qmult_le_0_compat; [| exact Hm].
  apply Qle_shift_div_l; [exact Hd | lra].
Qed.

Lemma frac_monotone (n n' d m : Q) :
  (0 < d -> 0 <= m -> n <= n' -> n / d * m <= n' / d * m)%Q.
Proof.
  intros Hd Hm Hn. apply Qmult_le_compat_r; [| exact Hm].
  unfold Qdiv. apply Qmult_le_compat_r; [exact Hn |].
  apply Qlt_le_weak, Qinv_lt_0_compat. exact Hd.
Qed.

(** ** [populationToPatches] *)

(** X12.  For a population that is not negative the number of patches lies in
    [3 .. 50], and a larger population never gives fewer patches. *)
Theorem populationToPatches_bounded_monotone (p q : Q) :
  (0 <= p)%Q -> (p <= q)%Q ->
  (3 <= populationToPatches p)%Z /\
  (populationToPatches p <= populationToPatches q)%Z /\
  (populationToPatches q <= 50)%Z.
Proof.
  intros Hp Hpq.
  assert (B1 : forall x, (0 <= x)%Q -> (x < 100)%Q ->
                 (3 <= 3 + Math_round (x / 100 * 1) <= 4)%Z).
  { intros x H0 H1.
    pose proof (Math_round_ge (x / 100 * 1) 0) as Hlo.
    pose proof (Math_round_le (x / 100 * 1) 1) as Hhi.
    change (inject_Z 0) with 0%Q in Hlo. change (inject_Z 1) with 1%Q in Hhi.
    destruct (frac_bounds x 100 1) as [? ?];
      [reflexivity | discriminate | lra | lra |].
    specialize (Hlo ltac:(assumption)). specialize (Hhi ltac:(assumption)). lia. }
  assert (B2 : forall x, (100 <= x)%Q -> (x < 1000)%Q ->
                 (5 <= 5 + Math_round ((x - 100) / 900 * 4) <= 9)%Z).
  { intros x H0 H1.
    pose proof (Math_round_ge ((x - 100) / 900 * 4) 0) as Hlo.
    pose proof (Math_round_le ((x - 100) / 900 * 4) 4) as Hhi.
    change (inject_Z 0) with 0%Q in Hlo. change (inject_Z 4) with 4%Q in Hhi.
    destruct (frac_bounds (x - 100) 900 4) as [? ?];
      [reflexivity | discriminate | lra | lra |].
    specialize (Hlo ltac:(assumption)). specialize (Hhi ltac:(assumption)). lia. }
  assert (B3 : forall x, (1000 <= x)%Q -> (x < 5000)%Q ->
                 (10 <= 10 + Math_round ((x - 1000) / 4000 * 4) <= 14)%Z).
  { intros x H0 H1.
    pose proof (Math_round_ge ((x - 1000) / 4000 * 4) 0) as Hlo.
    pose proof (Math_round_le ((x - 1000) / 4000 * 4) 4) as Hhi.
    change (inject_Z 0) with 0%Q in Hlo. change (inject_Z 4) with 4%Q in Hhi.
    destruct (frac_bounds (x - 1000) 4000 4) as [? ?];
      [reflexivity | discriminate | lra | lra |].
    specialize (Hlo ltac:(assumption)). specialize (Hhi ltac:(assumption)). lia. }
  assert (B4 : forall x, (5000 <= x)%Q -> (x < 20000)%Q ->
                 (15 <= 15 + Math_round ((x - 5000) / 15000 * 9) <= 24)%Z).
  { intros x H0 H1.
    pose proof (Math_round_ge ((x - 5000) / 15000 * 9) 0) as Hlo.
    pose proof (Math_round_le ((x - 5000) / 15000 * 9) 9) as Hhi.
    change (inject_Z 0) with 0%Q in Hlo. change (inject_Z 9) with 9%Q in Hhi.
    destruct (frac_bounds (x - 5000) 15000 9) as [? ?];
      [reflexivity | discriminate | lra | lra |].
    specialize (Hlo ltac:(assumption)). specialize (Hhi ltac:(assumption)). lia. }
  assert (B5 : forall x, (20000 <= x)%Q -> (x < 100000)%Q ->
                 (25 <= 25 + Math_round ((x - 20000) / 80000 * 15) <= 40)%Z).
  { intros x H0 H1.
    pose proof (Math_round_ge ((x - 20000) / 80000 * 15) 0) as Hlo.
    pose proof (Math_round_le ((x - 20000) / 80000 * 15) 15) as Hhi.
    change (inject_Z 0) with 0%Q in Hlo. change (inject_Z 15) with 15%Q in Hhi.
    destruct (frac_bounds (x - 20000) 80000 15) as [? ?];
      [reflexivity | discriminate | lra | lra |].
    specialize (Hlo ltac:(assumption)). specialize (Hhi ltac:(assumption)). lia. }
  assert (B6 : forall x, (100000 <= x)%Q ->
                 (40 <= 40 + Z.min 10 (Math_round ((x - 100000) / 200000 * 10))
                  <= 50)%Z).
  { intros x H0.
    pose proof (Math_round_ge ((x - 100000) / 200000 * 10) 0) as Hlo.
    change (inject_Z 0) with 0%Q in Hlo.
    pose proof (frac_nonneg (x - 100000) 200000 10 ltac:(reflexivity)
                            ltac:(discriminate) ltac:(lra)).
    specialize (Hlo ltac:(assumption)). lia. }
  unfold populationToPatches.
  destruct (Qlt_le_dec p 100) as [P1 | P1].
  { pose proof (B1 p Hp P1) as B1p.
    destruct (Qlt_le_dec q 100) as [Q1 | Q1].
    { assert (Hq0 : (0 <= q)%Q) by lra. pose proof (B1 q Hq0 Q1) as B1q.
      pose proof (Math_round_monotone (p / 100 * 1) (q / 100 * 1)
                  (frac_monotone (p) (q) 100 1 ltac:(reflexivity) ltac:(discriminate) ltac:(lra))). lia. }
    destruct (Qlt_le_dec q 1000) as [Q2 | Q2]; [specialize (B2 q Q1 Q2); lia |].
    destruct (Qlt_le_dec q 5000) as [Q3 | Q3]; [specialize (B3 q Q2 Q3); lia |].
    destruct (Qlt_le_dec q 20000) as [Q4 | Q4]; [specialize (B4 q Q3 Q4); lia |].
    destruct (Qlt_le_dec q 100000) as [Q5 | Q5]; [specialize (B5 q Q4 Q5); lia |].
    specialize (B6 q Q5). lia. }
  destruct (Qlt_le_dec q 100) as [Q1 | Q1]; [exfalso; lra |].
  destruct (Qlt_le_dec p 1000) as [P2 | P2].
  { specialize (B2 p P1 P2) as B2p.
    destruct (Qlt_le_dec q 1000) as [Q2 | Q2].
    { specialize (B2 q Q1 Q2) as B2q.
      pose proof (Math_round_monotone ((p - 100) / 900 * 4) ((q - 100) / 900 * 4)
                  (frac_monotone ((p - 100)) ((q - 100)) 900 4 ltac:(reflexivity) ltac:(discriminate) ltac:(lra))). lia. }
    destruct (Qlt_le_dec q 5000) as [Q3 | Q3]; [specialize (B3 q Q2 Q3); lia |].
    destruct (Qlt_le_dec q 20000) as [Q4 | Q4]; [specialize (B4 q Q3 Q4); lia |].
    destruct (Qlt_le_dec q 100000) as [Q5 | Q5]; [specialize (B5 q Q4 Q5); lia |].
    specialize (B6 q Q5). lia. }
  destruct (Qlt_le_dec q 1000) as [Q2 | Q2]; [exfalso; lra |].
  destruct (Qlt_le_dec p 5000) as [P3 | P3].
  { specialize (B3 p P2 P3) as B3p.
    destruct (Qlt_le_dec q 5000) as [Q3 | Q3].
    { specialize (B3 q Q2 Q3) as B3q.
      pose proof (Math_round_monotone ((p - 1000) / 4000 * 4) ((q - 1000) / 4000 * 4)
                  (frac_monotone ((p - 1000)) ((q - 1000)) 4000 4 ltac:(reflexivity) ltac:(discriminate) ltac:(lra))). lia. }
    destruct (Qlt_le_dec q 20000) as [Q4 | Q4]; [specialize (B4 q Q3 Q4); lia |].
    destruct (Qlt_le_dec q 100000) as [Q5 | Q5]; [specialize (B5 q Q4 Q5); lia |].
    specialize (B6 q Q5). lia. }
  destruct (Qlt_le_dec q 5000) as [Q3 | Q3]; [exfalso; lra |].
  destruct (Qlt_le_dec p 20000) as [P4 | P4].
  { specialize (B4 p P3 P4) as B4p.
    destruct (Qlt_le_dec q 20000) as [Q4 | Q4].
    { specialize (B4 q Q3 Q4) as B4q.
      pose proof (Math_round_monotone ((p - 5000) / 15000 * 9) ((q - 5000) / 15000 * 9)
                  (frac_monotone ((p - 5000)) ((q - 5000)) 15000 9 ltac:(reflexivity) ltac:(discriminate) ltac:(lra))). lia. }
    destruct (Qlt_le_dec q 100000) as [Q5 | Q5]; [specialize (B5 q Q4 Q5); lia |].
    specialize (B6 q Q5). lia. }
  destruct (Qlt_le_dec q 20000) as [Q4 | Q4]; [exfalso; lra |].
  destruct (Qlt_le_dec p 100000) as [P5 | P5].
  { specialize (B5 p P4 P5) as B5p.
    destruct (Qlt_le_dec q 100000) as [Q5 | Q5].
    { specialize (B5 q Q4 Q5) as B5q.
      pose proof (Math_round_monotone ((p - 20000) / 80000 * 15) ((q - 20000) / 80000 * 15)
                  (frac_monotone ((p - 20000)) ((q - 20000)) 80000 15 ltac:(reflexivity) ltac:(discriminate) ltac:(lra))). lia. }
    specialize (B6 q Q5). lia. }
  destruct (Qlt_le_dec q 100000) as [Q5 | Q5]; [exfalso; lra |].
  specialize (B6 p P5) as B6p. specialize (B6 q Q5) as B6q.
  pose proof (Math_round_monotone ((p - 100000) / 200000 * 10) ((q - 100000) / 200000 * 10)
                  (frac_monotone ((p - 100000)) ((q - 100000)) 200000 10 ltac:(reflexivity) ltac:(discriminate) ltac:(lra))). lia.
Qed.

Lemma populationToPatches_witness :
  (3 <= populationToPatches 950)%Z /\
  (populationToPatches 950 <= populationToPatches 4000)%Z /\
  (populationToPatches 4000 <= 50)%Z.
Proof. apply populationToPatches_bounded_monotone; discriminate. Defined.

(** ** [hashString] *)

Local Open Scope Z_scope.

Lemma to_int32_shift (x : Z) : exists k, to_int32 x = x + k * 2 ^ 31.
Proof.
  unfold to_int32.
  assert (E : x mod 2 ^ 32 = x + (- (x / 2 ^ 32) * 2) * 2 ^ 31).
  { rewrite Z.mod_eq by lia. change (2 ^ 32) with (2 * 2 ^ 31). ring. }
  destruct (x mod 2 ^ 32 <? 2 ^ 31).
  - eexists. exact E.
  - exists (- (x / 2 ^ 32) * 2 - 2). rewrite E.
    change (2 ^ 32) with (2 * 2 ^ 31). ring.
Qed.

Lemma to_int32_small (x : Z) : 0 <= x < 2 ^ 31 -> to_int32 x = x.
Proof.
  intros H. unfold to_int32. rewrite Z.mod_small by lia.
  destruct (Z.ltb_spec x (2 ^ 31)); lia.
Qed.

Lemma hash_step (hash c : Z) :
  and32 (shl32 hash 5 + hash + c) 2147483647 = (hash * 33 + c) mod 2 ^ 31.
Proof.
  unfold and32.
  change (to_int32 2147483647) with (Z.ones 31).
  rewrite Z.land_ones by lia.
  rewrite to_int32_small by (apply Z.mod_pos_bound; lia).
  unfold shl32. change (5 mod 32) with 5. rewrite Z.shiftl_mul_pow2 by lia.
  destruct (to_int32_shift hash) as (k1 & E1). rewrite E1.
  destruct (to_int32_shift ((hash + k1 * 2 ^ 31) * 2 ^ 5)) as (k2 & E2).
  rewrite E2.
  destruct (to_int32_shift ((hash + k1 * 2 ^ 31) * 2 ^ 5 + k2 * 2 ^ 31 + hash + c))
    as (k3 & E3).
  rewrite E3.
  replace ((hash + k1 * 2 ^ 31) * 2 ^ 5 + k2 * 2 ^ 31 + hash + c + k3 * 2 ^ 31)
    with (hash * 33 + c + (k1 * 2 ^ 5 + k2 + k3) * 2 ^ 31)
    by (change (2 ^ 5) with 32; ring).
  apply Z_mod_plus_full.
Qed.

(** X13.  [hashString] computes the hash [h <- (33 * h + c) mod 2^31] from 5381
    over the code units (the 32-bit shift and the mask lose nothing
    else), replaces a final 0 by 1, and so returns a seed of
    [1 .. 2^31 - 1]. *)
Theorem hashString_is_djb2 (codes : list Z) :
  hashString codes =
  (let h := fold_left (fun h c => (h * 33 + c) mod 2 ^ 31) codes 5381 in
   if h =? 0 then 1 else h) /\
  1 <= hashString codes <= 2 ^ 31 - 1.
Proof.
  assert (Hloop : forall cs h,
             hash_loop cs h = fold_left (fun h c => (h * 33 + c) mod 2 ^ 31) cs h).
  { induction cs as [| c cs IH]; intros h; cbn [hash_loop fold_left];
      [reflexivity |]. rewrite hash_step. apply IH. }
  assert (Hrange : forall cs h, 0 <= h < 2 ^ 31 ->
             0 <= fold_left (fun h c => (h * 33 + c) mod 2 ^ 31) cs h < 2 ^ 31).
  { induction cs as [| c cs IH]; intros h Hh; cbn [fold_left]; [exact Hh |].
    apply IH. apply Z.mod_pos_bound. lia. }
  unfold hashString. rewrite Hloop. split; [reflexivity |].
  specialize (Hrange codes 5381 ltac:(lia)). cbv zeta.
  destruct (Z.eqb_spec (fold_left (fun h c => (h * 33 + c) mod 2 ^ 31) codes 5381) 0);
    lia.
Qed.

Set Implicit Arguments.

End AzgaarFacts.

(* ===================================================================== *)
(** * The path [aStar] returns *)
(* ===================================================================== *)

Module GraphPathFacts.

Import GraphSearch GraphSearchFacts.
Local Open Scope nat_scope.
Unset Implicit Arguments.

(** Every node of [p] but the last is linked from the node after it. *)
Fixpoint follows (h : Store) (p : list Node) : Prop :=
  match p with
  | y :: ((x :: _) as t) => In y (map fst (links h x)) /\ follows h t
  | _ => True
  end.

(** Every node of [p] but the last has the node after it as its
    [cameFrom] entry. *)
Fixpoint linked_by (cf : NodeMap Node) (p : list Node) : Prop :=
  match p with
  | y :: ((x :: _) as t) => map_get y cf = Some x /\ linked_by cf t
  | _ => True
  end.

Lemma last_default {A} (l : list A) (d d' : A) :
  l <> [] -> last l d = last l d'.
Proof.
  induction l as [| a l IH]; intros Hne; [contradiction |].
  destruct l as [| b l]; [reflexivity |].
  cbn [last] in *. apply IH. discriminate.
Qed.

Lemma buildPath_chain (cf : NodeMap Node) (f : nat) :
  forall x p,
    buildPath f cf x = Some p ->
    hd_error p = Some x /\ linked_by cf p /\ map_get (last p x) cf = None.
Proof.
  induction f as [| f IH]; intros x p Hp.
  - cbn in Hp. destruct (map_get x cf) eqn:Hx; [discriminate |].
    injection Hp as <-. cbn. auto.
  - cbn [buildPath] in Hp. destruct (map_get x cf) as [prev |] eqn:Hx.
    + destruct (buildPath f cf prev) as [q |] eqn:Hq; [| discriminate].
      injection Hp as <-. destruct (IH prev q Hq) as (Hhd & Hl & Hlast).
      destruct q as [| z q]; [discriminate |].
      cbn in Hhd. injection Hhd as ->.
      split; [reflexivity |]. split; [split; assumption |].
      change (last (x :: prev :: q) x) with (last (prev :: q) x).
      rewrite (last_default (prev :: q) x prev) by discriminate. exact Hlast.
    + injection Hp as <-. cbn. auto.
Qed.

Lemma map_get_set_keeps {V} (x n : Node) (v : V) (m : NodeMap V) :
  map_get x m <> None -> map_get x (map_set n v m) <> None.
Proof.
  intros H. rewrite map_get_set. destruct (Nat.eqb x n); [discriminate | exact H].
Qed.

Section Search.

Variable h : Store.
Variables start goal : Node.
Variable E : list Node.

(** What [cameFrom] holds when the nodes of [P] have been expanded: an
    entry leads along a link from an expanded node to a node that is not
    excluded; [start] has no entry; every other expanded node has one. *)
Record InvPath (P : list Node) (st : Search) : Prop := {
  ip_links : forall y c, map_get y (cameFrom st) = Some c ->
      In y (map fst (links h c)) /\ ~ In y E /\ In c P;
  ip_start : map_get start (cameFrom st) = None;
  ip_parent : forall x, In x P -> x <> start ->
      map_get x (cameFrom st) <> None
}.

Lemma relax_path (P : list Node) (cur : Node) (cs : Q) (ls : NodeMap Q) :
  In cur P -> In start P ->
  (forall y, In y (map fst ls) -> In y (map fst (links h cur))) ->
  forall st,
    closedSet st = E ++ P ->
    InvPath P st ->
    InvPath P (relax cur cs ls st).
Proof.
  intros Hcur Hstart. induction ls as [| [n cost] ls IH]; intros Hls st Hc Hinv;
    [exact Hinv |].
  assert (Hls' : forall y, In y (map fst ls) -> In y (map fst (links h cur))).
  { intros y Hy. apply Hls. right. exact Hy. }
  assert (Hn : In n (map fst (links h cur))) by (apply Hls; left; reflexivity).
  assert (Hset : includes (closedSet st) n = false ->
                 forall opn gs,
                   InvPath P (mkSearch (closedSet st) opn
                                       (map_set n cur (cameFrom st)) gs)).
  { intros Hcl opn gs. apply includes_not_In in Hcl. rewrite Hc in Hcl.
    assert (HnE : ~ In n E) by (intros H; apply Hcl, in_or_app; left; exact H).
    assert (HnP : ~ In n P) by (intros H; apply Hcl, in_or_app; right; exact H).
    destruct Hinv as [Hl Hs Hp]. constructor; cbn [cameFrom].
    - intros y c Hy. rewrite map_get_set in Hy.
      destruct (Nat.eqb_spec y n) as [-> | Hne].
      + injection Hy as <-. repeat split; assumption.
      + apply Hl. exact Hy.
    - rewrite map_get_set_other; [exact Hs |].
      intros <-. contradiction.
    - intros x Hx Hxs. apply map_get_set_keeps. apply Hp; assumption. }
  cbn [relax].
  destruct (includes (closedSet st) n) eqn:Hcl; [apply IH; assumption |].
  destruct (includes (openSet st) n); cbn [negb].
  - destruct (match map_get n (gScore st) with
              | Some g => Qle_bool g (cs + cost)
              | None => false
              end); [apply IH; assumption |].
    apply IH; [exact Hls' | exact Hc | apply Hset; reflexivity].
  - apply IH; [exact Hls' | exact Hc | apply Hset; reflexivity].
Qed.

(** What the path returned satisfies. *)
Definition good_path (p : list Node) : Prop :=
  hd_error p = Some goal /\ last p goal = start /\ follows h p /\
  (forall y, In y (removelast p) -> ~ In y E).

Lemma linked_good (P : list Node) (st : Search) (p : list Node) :
  InvPath P st ->
  linked_by (cameFrom st) p ->
  follows h p /\ (forall y, In y (removelast p) -> ~ In y E) /\
  (forall d, (2 <= length p)%nat -> In (last p d) P).
Proof.
  intros Hinv. induction p as [| y p IH]; intros Hl.
  - cbn. repeat split; try tauto. intros d Hd. cbn in Hd. lia.
  - destruct p as [| x p].
    + cbn. repeat split; try tauto. intros d Hd. cbn in Hd. lia.
    + destruct Hl as [Hy Hl]. destruct (IH Hl) as (Hf & HE & Hlast).
      destruct (ip_links _ _ Hinv y x Hy) as (Hlink & HyE & HxP).
      split; [split; assumption |]. split.
      * intros z Hz. change (removelast (y :: x :: p)) with (y :: removelast (x :: p)) in Hz.
        destruct Hz as [<- | Hz]; [exact HyE | apply HE; exact Hz].
      * intros d _. change (last (y :: x :: p) d) with (last (x :: p) d).
        destruct p as [| w p]; [exact HxP |].
        apply Hlast. cbn. lia.
Qed.

Lemma loop_path (fuel : nat) :
  forall P st,
    InvBase h start goal E P st -> closed_under_links h P st ->
    InvPath P st ->
    forall p, aStar_loop fuel h goal st = Path p -> good_path p.
Proof.
  induction fuel as [| fuel IH]; intros P st Hinv Hcl Hpath p Hp;
    [discriminate |].
  rewrite aStar_loop_S in Hp.
  destruct st as [closed opn cf gs]. cbn [openSet closedSet cameFrom gScore] in *.
  destruct opn as [| cur rest]; [discriminate |].
  destruct (Nat.eqb_spec cur goal) as [-> | Hne].
  - destruct (buildPath (length closed) cf goal) as [q |] eqn:Hq; [| discriminate].
    injection Hp as ->.
    destruct (buildPath_chain cf _ _ _ Hq) as (Hhd & Hl & Hlast).
    destruct (linked_good P _ p Hpath Hl) as (Hf & HE & HlastP).
    split; [exact Hhd |]. split; [| split; assumption].
    destruct (inv_parent_open Hinv goal (or_introl eq_refl))
      as (c & j & Hget & Hj). cbn [cameFrom] in Hget.
    destruct p as [| y p]; [discriminate |].
    cbn in Hhd. injection Hhd as ->.
    destruct p as [| x p].
    + cbn in Hlast. congruence.
    + specialize (HlastP goal ltac:(cbn; lia)).
      destruct (Nat.eq_dec (last (goal :: x :: p) goal) start) as [Heq | Hns];
        [exact Heq |].
      exfalso. apply (ip_parent _ _ Hpath _ HlastP Hns). exact Hlast.
  - set (cs := match map_get cur gs with Some g => g | None => 0%Q end) in *.
    destruct (pop_inv cs Hinv Hcl Hne) as (Hinv' & Hcl' & Hclosed).
    apply (IH (P ++ [cur]) _ Hinv' Hcl'); [| exact Hp].
    assert (Hstart : In start P).
    { eapply nth_error_In. apply (inv_start Hinv). }
    apply relax_path.
    + apply in_or_app. right. left. reflexivity.
    + apply in_or_app. left. exact Hstart.
    + intros y Hy. exact Hy.
    + cbn [closedSet]. rewrite (inv_closed Hinv : closed = E ++ P).
      rewrite app_assoc. reflexivity.
    + destruct Hpath as [Hl Hs Hpar]. cbn [cameFrom] in *.
      constructor; cbn [cameFrom].
      * intros y c Hy. destruct (Hl y c Hy) as (H1 & H2 & H3).
        repeat split; try assumption. apply in_or_app. left. exact H3.
      * exact Hs.
      * intros x Hx Hxs. apply in_app_or in Hx.
        destruct Hx as [Hx | [<- | []]]; [apply Hpar; assumption |].
        destruct (inv_parent_open Hinv cur (or_introl eq_refl))
          as (c & j & Hget & _). cbn [cameFrom] in Hget. congruence.
Qed.

Lemma aStar_path_good (p : list Node) :
  aStar h start goal (Some E) = Path p -> good_path p.
Proof.
  unfold aStar, budget.
  replace (length (targets h) + 2) with (S (S (length (targets h)))) by lia.
  rewrite aStar_loop_S. cbn [openSet closedSet cameFrom gScore].
  destruct (Nat.eqb_spec start goal) as [Heq | Hne].
  - intros Hp.
    assert (p = [goal]) as ->.
    { destruct (length E); cbn in Hp; congruence. }
    split; [reflexivity |]. split; [cbn; symmetry; exact Heq |].
    split; [exact I |].
    intros y Hy. cbn in Hy. contradiction.
  - set (cs := match map_get start [(start, 0%Q)] with
               | Some g => g | None => 0%Q end).
    assert (Hbase : InvBase h start goal E [start]
                            (mkSearch (E ++ [start]) [] [] [(start, 0%Q)])).
    { constructor; cbn.
      - reflexivity.
      - reflexivity.
      - constructor.
      - intros x [].
      - intros x [].
      - intros x [[] | [<- | []]]. apply reach_start.
      - intros [Heq | []]. congruence.
      - intros x [].
      - intros i x Hx. left. reflexivity. }
    assert (Hpath0 : InvPath [start]
                             (mkSearch (E ++ [start]) [] [] [(start, 0%Q)])).
    { constructor; cbn.
      - intros y c Hy. discriminate.
      - reflexivity.
      - intros x [<- | []] Hx. congruence. }
    destruct (relax_inv (P := [start]) 0 cs (links h start) eq_refl
                        (fun y Hy => Hy) Hbase) as (Hi & Hcl' & Ho & Hy).
    cbn in Hcl', Ho, Hy.
    apply (loop_path _ [start]).
    + exact Hi.
    + intros x y [<- | []] Hlink. rewrite Hcl'. apply Hy. exact Hlink.
    + apply relax_path.
      * left. reflexivity.
      * left. reflexivity.
      * intros y H. exact H.
      * reflexivity.
      * exact Hpath0.
Qed.

End Search.

(** X14.  When [aStar] returns a path, the path lists the goal first and the
    start last, every node in it is linked from the node listed after it,
    and no node but possibly the start is on the exclusion list. *)
Theorem aStar_path_follows_links
        (h : Store) (start goal : Node) (exclude : option (list Node))
        (p : list Node) :
  aStar h start goal exclude = Path p ->
  hd_error p = Some goal /\ last p goal = start /\ follows h p /\
  (forall y, In y (removelast p) ->
             ~ In y (match exclude with Some e => e | None => [] end)).
Proof.
  intros Hp. apply (aStar_path_good h start goal).
  destruct exclude; exact Hp.
Qed.

Lemma aStar_path_follows_links_witness :
  hd_error [test_d; test_b; test_a] = Some test_d /\
  last [test_d; test_b; test_a] test_d = test_a /\
  follows test_store [test_d; test_b; test_a] /\
  (forall y, In y (removelast [test_d; test_b; test_a]) -> ~ In y []).
Proof.
  apply (aStar_path_follows_links test_store test_a test_d None).
  vm_compute. reflexivity.
Defined.

Set Implicit Arguments.

End GraphPathFacts.

(* ===================================================================== *)
(** * Linking, unlinking and removing nodes *)
(* ===================================================================== *)

Module GraphOpsFacts.

Import GraphSearch GraphSearchFacts GraphOps.
Local Open Scope nat_scope.
Unset Implicit Arguments.

(** ** The store *)

Lemma length_set_links (h : Store) (n : Node) (l : NodeMap Q) :
  length (set_links h n l) = length h.
Proof.
  revert n. induction h as [| x h IH]; intros [| n]; cbn; try reflexivity.
  rewrite IH. reflexivity.
Qed.

Lemma links_set_links_same (h : Store) (n : Node) (l : NodeMap Q) :
  n < length h -> links (set_links h n l) n = l.
Proof.
  unfold links. revert n. induction h as [| x h IH]; intros [| n] Hn; cbn in *;
    try lia; [reflexivity |].
  apply IH. lia.
Qed.

Lemma links_set_links_other (h : Store) (n m : Node) (l : NodeMap Q) :
  n <> m -> links (set_links h n l) m = links h m.
Proof.
  unfold links. revert n m. induction h as [| x h IH]; intros [| n] [| m] Hne;
    cbn; try reflexivity; try congruence.
  apply IH. congruence.
Qed.

Lemma links_unallocated (h : Store) (n : Node) :
  length h <= n -> links h n = [].
Proof. intros H. unfold links. apply nth_overflow. exact H. Qed.

Lemma set_links_unallocated (h : Store) (n : Node) (l : NodeMap Q) :
  length h <= n -> set_links h n l = h.
Proof.
  revert n. induction h as [| x h IH]; intros [| n] Hn; cbn in *;
    try reflexivity; try lia.
  rewrite IH by lia. reflexivity.
Qed.

Lemma set_links_same (h : Store) (n : Node) :
  set_links h n (links h n) = h.
Proof.
  unfold links. revert n. induction h as [| x h IH]; intros [| n]; cbn;
    try reflexivity.
  rewrite IH. reflexivity.
Qed.

Lemma set_links_twice (h : Store) (n : Node) (l l' : NodeMap Q) :
  set_links (set_links h n l) n l' = set_links h n l'.
Proof.
  revert n. induction h as [| x h IH]; intros [| n]; cbn; try reflexivity.
  rewrite IH. reflexivity.
Qed.

Lemma set_links_swap (h : Store) (n m : Node) (l l' : NodeMap Q) :
  n <> m ->
  set_links (set_links h n l) m l' = set_links (set_links h m l') n l.
Proof.
  revert n m. induction h as [| x h IH]; intros [| n] [| m] Hne; cbn;
    try reflexivity; try congruence.
  rewrite IH by congruence. reflexivity.
Qed.

(** ** Maps *)

Lemma map_get_none {V} (k : Node) (m : NodeMap V) :
  map_get k m = None <-> ~ In k (map fst m).
Proof.
  induction m as [| [k' v] m IH]; cbn.
  - tauto.
  - destruct (Nat.eqb_spec k k') as [-> | Hne].
    + split; [discriminate | intros H; exfalso; apply H; left; reflexivity].
    + rewrite IH. split.
      * intros H [Heq | Hin]; [congruence | contradiction].
      * intros H Hin. apply H. right. exact Hin.
Qed.

Lemma map_delete_set_new {V} (k : Node) (v : V) (m : NodeMap V) :
  map_get k m = None -> map_delete k (map_set k v m) = m.
Proof.
  induction m as [| [k' v'] m IH]; cbn.
  - rewrite Nat.eqb_refl. reflexivity.
  - destruct (Nat.eqb_spec k k') as [-> | Hne]; [discriminate |].
    intros H. cbn. destruct (Nat.eqb_spec k k'); [contradiction |].
    rewrite IH by exact H. reflexivity.
Qed.

Lemma map_delete_absent {V} (k : Node) (m : NodeMap V) :
  map_get k m = None -> map_delete k m = m.
Proof.
  induction m as [| [k' v'] m IH]; cbn; [reflexivity |].
  destruct (Nat.eqb_spec k k') as [-> | Hne]; [discriminate |].
  intros H. rewrite IH by exact H. reflexivity.
Qed.

Lemma map_delete_keys {V} (k : Node) (m : NodeMap V) :
  forall y, In y (map fst (map_delete k m)) -> In y (map fst m).
Proof.
  induction m as [| [k' v'] m IH]; cbn; [tauto |].
  intros y. destruct (Nat.eqb k k'); cbn; [tauto |].
  intros [H | H]; [left; exact H | right; apply IH; exact H].
Qed.

Lemma map_delete_nodup {V} (k : Node) (m : NodeMap V) :
  NoDup (map fst m) -> NoDup (map fst (map_delete k m)).
Proof.
  induction m as [| [k' v'] m IH]; cbn; [trivial |].
  intros Hnd. inversion Hnd as [| ? ? Hnin Hnd']; subst.
  destruct (Nat.eqb k k'); [exact Hnd' |].
  cbn. constructor; [| apply IH; exact Hnd'].
  intros H. apply Hnin. eapply map_delete_keys. exact H.
Qed.

Lemma map_get_delete {V} (y k : Node) (m : NodeMap V) :
  NoDup (map fst m) ->
  map_get y (map_delete k m) = if Nat.eqb y k then None else map_get y m.
Proof.
  induction m as [| [k' v'] m IH]; cbn; intros Hnd.
  - destruct (Nat.eqb y k); reflexivity.
  - inversion Hnd as [| ? ? Hnin Hnd']; subst.
    destruct (Nat.eqb_spec k k') as [-> | Hne].
    + destruct (Nat.eqb_spec y k') as [-> | Hne'].
      * apply map_get_none. exact Hnin.
      * reflexivity.
    + cbn. rewrite IH by exact Hnd'.
      destruct (Nat.eqb_spec y k') as [-> | Hne'].
      * destruct (Nat.eqb_spec k' k); [congruence | reflexivity].
      * reflexivity.
Qed.

(** ** [link] and [unlink] *)

(** X15.  A symmetrical [link] between two allocated nodes records the price
    in both directions and touches no other node; when the two were not
    linked before, the symmetrical [unlink] restores the store as it
    was. *)
Theorem link_both_ways_undone_by_unlink
        (this node : Node) (price : Q) (h : Store) :
  this < length h -> node < length h ->
  let h' := link this node price true h in
  map_get node (links h' this) = Some price /\
  map_get this (links h' node) = Some price /\
  (forall x, x <> this -> x <> node -> links h' x = links h x) /\
  (map_get node (links h this) = None ->
   map_get this (links h node) = None ->
   unlink this node true h' = h).
Proof.
  intros Ht Hn. cbv zeta. unfold link.
  set (h1 := set_links h this (map_set node price (links h this))).
  assert (Hlen1 : length h1 = length h) by apply length_set_links.
  assert (H1this : links h1 this = map_set node price (links h this))
    by (apply links_set_links_same; exact Ht).
  split; [| split; [| split]].
  - destruct (Nat.eq_dec this node) as [<- | Hne].
    + rewrite links_set_links_same by lia. apply map_get_set_same.
    + rewrite links_set_links_other by congruence.
      rewrite H1this. apply map_get_set_same.
  - rewrite links_set_links_same by lia. apply map_get_set_same.
  - intros x Hx1 Hx2. rewrite links_set_links_other by congruence.
    unfold h1. apply links_set_links_other. congruence.
  - intros Hg1 Hg2. unfold unlink.
    destruct (Nat.eq_dec this node) as [<- | Hne].
    + assert (E : map_set this price (map_set this price (links h this)) =
                  map_set this price (links h this)).
      { clear. induction (links h this) as [| [k v] m IH]; cbn.
        - rewrite Nat.eqb_refl. reflexivity.
        - destruct (Nat.eqb_spec this k) as [-> | Hne]; cbn.
          + rewrite Nat.eqb_refl. reflexivity.
          + destruct (Nat.eqb_spec this k); [contradiction |].
            rewrite IH. reflexivity. }
      assert (EX : set_links h1 this (map_set this price (links h1 this)) = h1).
      { rewrite H1this, E. unfold h1. rewrite set_links_twice. reflexivity. }
      rewrite EX, H1this. rewrite map_delete_set_new by exact Hg1.
      assert (E3 : set_links h1 this (links h this) = h).
      { unfold h1. rewrite set_links_twice. apply set_links_same. }
      rewrite E3. rewrite map_delete_absent by exact Hg1. apply set_links_same.
    + assert (H1node : links h1 node = links h node).
      { unfold h1. apply links_set_links_other. exact Hne. }
      rewrite H1node.
      set (h2 := set_links h1 node (map_set this price (links h node))).
      assert (H2this : links h2 this = map_set node price (links h this)).
      { unfold h2. rewrite links_set_links_other by congruence. exact H1this. }
      rewrite H2this. rewrite map_delete_set_new by exact Hg1.
      assert (E3 : set_links h2 this (links h this) =
                   set_links h node (map_set this price (links h node))).
      { unfold h2. rewrite set_links_swap by congruence.
        unfold h1. rewrite set_links_twice, set_links_same. reflexivity. }
      rewrite E3. rewrite links_set_links_same by exact Hn.
      rewrite map_delete_set_new by exact Hg2.
      rewrite set_links_twice. apply set_links_same.
Qed.

Lemma link_both_ways_witness :
  let h' := link 0 1 (5 # 1) true [[]; []] in
  map_get 1 (links h' 0) = Some (5 # 1)%Q /\
  map_get 0 (links h' 1) = Some (5 # 1)%Q /\
  (forall x, x <> 0 -> x <> 1 -> links h' x = links [[]; []] x) /\
  (map_get 1 (links [[]; []] 0) = None ->
   map_get 0 (links [[]; []] 1) = None ->
   unlink 0 1 true h' = [[]; []]).
Proof.
  apply (link_both_ways_undone_by_unlink 0 1 (5 # 1)%Q [[]; []]); cbn; lia.
Defined.

(** ** [unlinkAll] and [remove] *)

(** Every [links] map has each key once, as a [Map] does. *)
Definition uniq (h : Store) : Prop :=
  forall x, NoDup (map fst (links h x)).

Lemma links_set_links (h : Store) (n m : Node) (l : NodeMap Q) :
  (length h <= n -> l = []) ->
  links (set_links h n l) m = if Nat.eqb m n then l else links h m.
Proof.
  intros Hl. destruct (Nat.eqb_spec m n) as [-> | Hne].
  - destruct (Nat.lt_ge_cases n (length h)) as [Hlt | Hge].
    + apply links_set_links_same. exact Hlt.
    + rewrite set_links_unallocated by exact Hge.
      rewrite (Hl Hge). apply links_unallocated. exact Hge.
  - apply links_set_links_other. congruence.
Qed.

Lemma unlink_get (this k : Node) (h : Store) :
  uniq h ->
  uniq (unlink this k true h) /\
  forall x y,
    map_get y (links (unlink this k true h) x) =
    if (Nat.eqb x this && Nat.eqb y k) || (Nat.eqb x k && Nat.eqb y this)
    then None else map_get y (links h x).
Proof.
  intros Hu. unfold unlink.
  set (h1 := set_links h this (map_delete k (links h this))).
  assert (L1 : forall x, links h1 x =
                         if Nat.eqb x this then map_delete k (links h this)
                         else links h x).
  { intros x. unfold h1. apply links_set_links.
    intros Hge. rewrite (links_unallocated h this Hge). reflexivity. }
  assert (U1 : uniq h1).
  { intros x. rewrite L1. destruct (Nat.eqb x this);
      [apply map_delete_nodup |]; apply Hu. }
  assert (L2 : forall x,
             links (set_links h1 k (map_delete this (links h1 k))) x =
             if Nat.eqb x k then map_delete this (links h1 k) else links h1 x).
  { intros x. apply links_set_links.
    intros Hge. rewrite (links_unallocated h1 k Hge). reflexivity. }
  split.
  - intros x. rewrite L2. destruct (Nat.eqb x k);
      [apply map_delete_nodup |]; apply U1.
  - intros x y. rewrite L2.
    destruct (Nat.eqb_spec x k) as [-> | Hxk].
    + rewrite map_get_delete by apply U1. rewrite L1.
      destruct (Nat.eqb_spec k this) as [-> | Hkt].
      * rewrite map_get_delete by apply Hu.
        destruct (Nat.eqb y this); reflexivity.
      * destruct (Nat.eqb y this); reflexivity.
    + rewrite L1. destruct (Nat.eqb_spec x this) as [-> | Hxt].
      * rewrite map_get_delete by apply Hu.
        destruct (Nat.eqb y k); reflexivity.
      * reflexivity.
Qed.

Lemma unlink_each_get (this : Node) (ks : list Node) :
  forall h,
    uniq h ->
    forall x y,
      map_get y (links (fold_left (fun h k => unlink this k true h) ks h) x) =
      if (Nat.eqb x this && includes ks y) || (includes ks x && Nat.eqb y this)
      then None else map_get y (links h x).
Proof.
  induction ks as [| k ks IH]; intros h Hu x y; cbn [fold_left].
  - cbn. rewrite andb_false_r. reflexivity.
  - destruct (unlink_get this k h Hu) as [Hu' Hget].
    rewrite (IH _ Hu'). rewrite Hget. unfold includes. cbn [existsb].
    fold (includes ks y). fold (includes ks x).
    destruct (Nat.eqb x this), (Nat.eqb y k), (Nat.eqb x k), (Nat.eqb y this),
      (includes ks y), (includes ks x); reflexivity.
Qed.

Lemma map_all_none {V} (m : NodeMap V) :
  (forall y, map_get y m = None) -> m = [].
Proof.
  destruct m as [| [k v] m]; [reflexivity |].
  intros H. specialize (H k). cbn in H. rewrite Nat.eqb_refl in H. discriminate.
Qed.

(** [remove_first] takes out the entry after the longest prefix free of
    [node], and nothing when there is none. *)
Lemma remove_first_split (node : Node) (before after : list Node) :
  ~ In node before ->
  remove_first node (before ++ node :: after) = before ++ after.
Proof.
  induction before as [| a before IH]; intros Hb; cbn [remove_first app].
  - rewrite Nat.eqb_refl. reflexivity.
  - destruct (Nat.eqb_spec a node) as [-> | Hne].
    + exfalso. apply Hb. left. reflexivity.
    + rewrite IH; [reflexivity |]. intros Hin. apply Hb. right. exact Hin.
Qed.

Lemma remove_first_absent (node : Node) (l : list Node) :
  ~ In node l -> remove_first node l = l.
Proof.
  induction l as [| a l IH]; intros Hl; cbn [remove_first]; [reflexivity |].
  destruct (Nat.eqb_spec a node) as [-> | Hne].
  - exfalso. apply Hl. left. reflexivity.
  - rewrite IH; [reflexivity |]. intros Hin. apply Hl. right. exact Hin.
Qed.

(** X16.  [remove(node)] on a store whose links are symmetrical: afterwards the
    node has no links and no node links to it, the links among the other
    nodes are as before, and the [nodes] array has lost exactly the first
    occurrence of the node, the other entries keeping their order (it is
    unchanged when the node does not occur). *)
Theorem remove_unlinks_node (g : Graph) (node : Node) (h : Store) :
  uniq h ->
  (forall x, In node (map fst (links h x)) -> In x (map fst (links h node))) ->
  links (snd (remove g node h)) node = [] /\
  (forall x, ~ In node (map fst (links (snd (remove g node h)) x))) /\
  (forall x y, x <> node -> y <> node ->
               map_get y (links (snd (remove g node h)) x) =
               map_get y (links h x)) /\
  (forall before after,
      nodes g = before ++ node :: after -> ~ In node before ->
      nodes (fst (remove g node h)) = before ++ after) /\
  (~ In node (nodes g) -> nodes (fst (remove g node h)) = nodes g).
Proof.
  intros Hu Hsym. unfold remove. cbn [fst snd nodes]. unfold unlinkAll.
  set (ks := map fst (links h node)).
  pose proof (unlink_each_get node ks h Hu) as Hget.
  split; [| split; [| split; [| split]]].
  - apply map_all_none. intros y. rewrite Hget, Nat.eqb_refl. cbn [andb].
    destruct (includes ks y) eqn:Hy; [reflexivity |].
    apply includes_not_In in Hy.
    destruct (includes ks node && Nat.eqb y node); [reflexivity |].
    apply map_get_none. exact Hy.
  - intros x. apply map_get_none. rewrite Hget, Nat.eqb_refl, andb_true_r.
    destruct (includes ks x) eqn:Hx; [rewrite orb_true_r; reflexivity |].
    rewrite orb_false_r.
    destruct (Nat.eqb x node && includes ks node); [reflexivity |].
    apply map_get_none. intros Hin. apply includes_not_In in Hx.
    apply Hx. apply Hsym. exact Hin.
  - intros x y Hx Hy. rewrite Hget.
    destruct (Nat.eqb_spec x node); [contradiction |].
    destruct (Nat.eqb_spec y node); [contradiction |].
    rewrite andb_false_r. reflexivity.
  - intros before after Hn Hb. rewrite Hn. apply remove_first_split. exact Hb.
  - apply remove_first_absent.
Qed.

Lemma remove_unlinks_node_witness :
  links (snd (remove (mkGraph [0; 1; 2; 3]) test_b test_store)) test_b = [] /\
  (forall x, ~ In test_b
               (map fst (links (snd (remove (mkGraph [0; 1; 2; 3]) test_b
                                            test_store)) x))) /\
  (forall x y, x <> test_b -> y <> test_b ->
               map_get y (links (snd (remove (mkGraph [0; 1; 2; 3]) test_b
                                             test_store)) x) =
               map_get y (links test_store x)) /\
  (forall before after,
      [0; 1; 2; 3] = before ++ test_b :: after -> ~ In test_b before ->
      nodes (fst (remove (mkGraph [0; 1; 2; 3]) test_b test_store)) =
      before ++ after) /\
  (~ In test_b [0; 1; 2; 3] ->
   nodes (fst (remove (mkGraph [0; 1; 2; 3]) test_b test_store)) =
   [0; 1; 2; 3]).
Proof.
  apply (remove_unlinks_node (mkGraph [0; 1; 2; 3]) test_b test_store).
  - intros x. do 4 (destruct x as [| x];
      [vm_compute; repeat constructor; cbn; intuition discriminate |]).
    rewrite links_unallocated; [constructor | vm_compute; lia].
  - intros x. do 4 (destruct x as [| x];
      [vm_compute; intuition discriminate |]).
    rewrite links_unallocated; [intros [] | vm_compute; lia].
Defined.

Set Implicit Arguments.

End GraphOpsFacts.

(* ===================================================================== *)
(** * Properties of more of [Point] and [Polygon] *)
(* ===================================================================== *)

Module GeomOpsFacts.

Import Geom AreaFacts GeomFacts GeomOps.
Local Open Scope Q_scope.
Unset Implicit Arguments.

(** ** Allocation *)

Lemma run_Polygon_new (vs : list Point) (s : Store) :
  runs (Polygon_new vs) s
       (fun P s' => s' = alloc_poly s vs /\ P = length (polygons s)).
Proof. split; reflexivity. Qed.

Lemma nth_error_snoc {A} (l : list A) (l' : list A) (x : A) :
  nth_error ((l ++ [x]) ++ l') (length l) = Some x.
Proof.
  rewrite <- app_assoc. rewrite nth_error_app2 by lia.
  rewrite Nat.sub_diag. reflexivity.
Qed.

(** ** [Polygon.rect] *)

(** The corners [Polygon.rect(w, h)] lists. *)
Definition rect_corners (w h : Q) : list (Q * Q) :=
  [(- w / 2, - h / 2); (w / 2, - h / 2); (w / 2, h / 2); (- w / 2, h / 2)].

Lemma run_rect (w h : Q) (s : Store) :
  runs (rect w h) s
       (fun P s' => ext s s' /\
                    exists vs, poly s' P = Some vs /\
                               located s' vs (rect_corners w h)).
Proof.
  unfold runs, rect, bind, Point_new, Polygon_new. cbn [points polygons seed].
  split.
  - split; [| split; [| reflexivity]]; cbn [points polygons].
    + eexists. rewrite <- !app_assoc. reflexivity.
    + eexists. reflexivity.
  - eexists. split.
    + unfold poly. cbn [polygons]. rewrite nth_error_app2 by lia.
      rewrite Nat.sub_diag. reflexivity.
    + unfold located, rect_corners, pt. cbn [points].
      rewrite !length_app. cbn [length].
      repeat constructor.
      * rewrite <- !app_assoc. rewrite nth_error_app2 by lia.
        rewrite Nat.sub_diag. reflexivity.
      * rewrite <- !app_assoc. rewrite nth_error_app2 by lia.
        replace (length (points s) + 1 - length (points s))%nat with 1%nat by lia.
        reflexivity.
      * rewrite <- !app_assoc. rewrite nth_error_app2 by lia.
        replace (length (points s) + 1 + 1 - length (points s))%nat
          with 2%nat by lia.
        reflexivity.
      * rewrite <- !app_assoc. rewrite nth_error_app2 by lia.
        replace (length (points s) + 1 + 1 + 1 - length (points s))%nat
          with 3%nat by lia.
        reflexivity.
Qed.

(** X17.  [Polygon.rect(w, h).square] is [w * h], whatever the signs of [w]
    and [h]. *)
Theorem rect_square (w h : Q) (s : Store) :
  runs (P <- rect w h ;; square P) s (fun r _ => r == w * h).
Proof.
  eapply runs_bind; [apply run_rect |].
  intros P s1 (_ & vs & HP & Hloc).
  eapply runs_weaken; [eapply run_square; eassumption |].
  intros r s2 [_ ->]. unfold area, rect_corners. cbn. field.
Qed.

(** ** [Point.rotate90], [Point.dot], [Point.norm] *)

Lemma run_dot (this p : Point) (c cp : Q * Q) (s : Store) :
  pt s this = Some c -> pt s p = Some cp ->
  runs (dot this p) s
       (fun r s' => s' = s /\ r = fst c * fst cp + snd c * snd cp).
Proof.
  intros H Hp. unfold dot. repeat step. apply runs_ret. split; reflexivity.
Qed.

(** X18.  [rotate90] returns a new point, perpendicular to the receiver (their
    [dot] product is 0) and of the same squared length; the receiver
    keeps its coordinates. *)
Theorem rotate90_is_perpendicular (this : Point) (c : Q * Q) (s : Store) :
  pt s this = Some c ->
  runs (r <- rotate90 this ;; d <- dot this r ;; ret (r, d)) s
       (fun res s' =>
          ext s s' /\ pt s' this = Some c /\ snd res == 0 /\
          exists c', pt s' (fst res) = Some c' /\
                     fst c' * fst c' + snd c' * snd c' ==
                     fst c * fst c + snd c * snd c).
Proof.
  intros H.
  eapply runs_bind; [apply run_rotate90; exact H |].
  intros r s1 [He Hr]. pose proof (ext_pt _ _ _ _ He H) as H'.
  eapply runs_bind; [eapply run_dot; [exact H' | exact Hr] |].
  intros d s2 [-> ->]. apply runs_ret. cbn [fst snd].
  split; [exact He |]. split; [exact H' |]. split; [ring |].
  eexists. split; [exact Hr |]. cbn [fst snd]. ring.
Qed.

Lemma rotate90_is_perpendicular_witness :
  runs (r <- rotate90 0%nat ;; d <- dot 0%nat r ;; ret (r, d))
       (mkStore [(3, 4)] [] 1%Z)
       (fun res s' =>
          ext (mkStore [(3, 4)] [] 1%Z) s' /\ pt s' 0%nat = Some (3, 4) /\
          snd res == 0 /\
          exists c', pt s' (fst res) = Some c' /\
                     fst c' * fst c' + snd c' * snd c' ==
                     fst (3, 4) * fst (3, 4) + snd (3, 4) * snd (3, 4)).
Proof. apply rotate90_is_perpendicular. reflexivity. Defined.

Section WithMath.

Variable Math : MathLib.

(** X19.  [norm(len)] returns a new point and leaves the receiver as it was.
    When the receiver's [length] [d] is positive (and is a square root:
    [d * d] is [x * x + y * y]), the new point is parallel to the
    receiver and its squared length is [len * len]; when [d] is not
    positive, the new point is a copy. *)
Theorem norm_sets_length (this : Point) (len : Q) (c : Q * Q) (s : Store) :
  pt s this = Some c ->
  let d := Math_sqrt Math (fst c * fst c + snd c * snd c) in
  runs (norm Math this len) s
       (fun r s' =>
          ext s s' /\ pt s' this = Some c /\
          exists c', pt s' r = Some c' /\
            (d <= 0 -> c' = c) /\
            (0 < d -> d * d == fst c * fst c + snd c * snd c ->
             fst c' * fst c' + snd c' * snd c' == len * len /\
             fst c' * snd c == snd c' * fst c)).
Proof.
  intros H d.
  eapply runs_weaken; [apply run_norm; exact H |].
  intros r s' [He Hr]. split; [exact He |].
  split; [eapply ext_pt; eassumption |].
  eexists. split; [exact Hr |]. unfold normed. fold d.
  destruct (Qlt_le_dec 0 d) as [Hpos | Hle].
  - split; [intros Hd; exfalso; lra |].
    intros _ Hsq. cbn [fst snd].
    assert (Hd : ~ d == 0) by (intros E; rewrite E in Hpos; discriminate).
    split.
    + assert (E : fst c / d * len * (fst c / d * len) +
                  snd c / d * len * (snd c / d * len) ==
                  (fst c * fst c + snd c * snd c) * (len * len) / (d * d))
        by (field; exact Hd).
      rewrite E, <- Hsq. field. exact Hd.
    + field. exact Hd.
  - split; [intros _; reflexivity |]. intros Hd. exfalso. lra.
Qed.

End WithMath.

Lemma norm_sets_length_witness :
  let d := Math_sqrt testMath (fst (3, 4) * fst (3, 4) + snd (3, 4) * snd (3, 4)) in
  runs (norm testMath 0%nat 10) (mkStore [(3, 4)] [] 1%Z)
       (fun r s' =>
          ext (mkStore [(3, 4)] [] 1%Z) s' /\ pt s' 0%nat = Some (3, 4) /\
          exists c', pt s' r = Some c' /\
            (d <= 0 -> c' = (3, 4)) /\
            (0 < d -> d * d == fst (3, 4) * fst (3, 4) + snd (3, 4) * snd (3, 4) ->
             fst c' * fst c' + snd c' * snd c' == 10 * 10 /\
             fst c' * snd (3, 4) == snd c' * fst (3, 4))).
Proof. apply (norm_sets_length testMath 0%nat 10 (3, 4)). reflexivity. Defined.

(** ** [next] and [prev] *)

Lemma index_from_nth (v : Point) (l : list Point) :
  forall (i : nat) (k : Z),
    NoDup l -> nth_error l i = Some v ->
    index_from v l k = (k + Z.of_nat i)%Z.
Proof.
  induction l as [| x l IH]; intros i k Hnd Hi; [destruct i; discriminate |].
  inversion Hnd as [| ? ? Hnin Hnd']; subst.
  destruct i as [| i]; cbn in Hi; cbn [index_from].
  - injection Hi as ->. rewrite Nat.eqb_refl. lia.
  - destruct (Nat.eqb_spec x v) as [-> | Hne].
    + exfalso. apply Hnin. eapply nth_error_In. exact Hi.
    + rewrite (IH i (k + 1)%Z Hnd' Hi). lia.
Qed.

Lemma index_from_absent (v : Point) (l : list Point) :
  forall k, ~ In v l -> index_from v l k = (-1)%Z.
Proof.
  induction l as [| x l IH]; intros k Hnin; cbn [index_from]; [reflexivity |].
  destruct (Nat.eqb_spec x v) as [-> | Hne].
  - exfalso. apply Hnin. left. reflexivity.
  - apply IH. intros H. apply Hnin. right. exact H.
Qed.

Lemma run_next (P : Polygon) (a : Point) (vs : list Point) (s : Store) :
  poly s P = Some vs ->
  runs (next P a) s
       (fun r s' =>
          s' = s /\
          r = match vs with
              | [] => None
              | _ :: _ => array_get vs ((array_indexOf vs a + 1)
                                        mod Z.of_nat (length vs))%Z
              end).
Proof.
  intros HP. unfold next. step. destruct vs as [| x vs]; cbn [length];
    apply runs_ret; split; reflexivity.
Qed.

Lemma run_prev (P : Polygon) (a : Point) (vs : list Point) (s : Store) :
  poly s P = Some vs ->
  runs (prev P a) s
       (fun r s' =>
          s' = s /\
          r = match vs with
              | [] => None
              | _ :: _ =>
                  array_get vs (Z.rem (array_indexOf vs a + Z.of_nat (length vs) - 1)
                                      (Z.of_nat (length vs)))
              end).
Proof.
  intros HP. unfold prev. step. destruct vs as [| x vs]; cbn [length];
    apply runs_ret; split; reflexivity.
Qed.

(** X20.  In a polygon that lists no point twice, [prev] undoes [next] and
    [next] undoes [prev] on every vertex.  For a point that is not a
    vertex, [next] returns the first vertex ([indexOf] is -1). *)
Theorem next_and_prev_are_inverse
        (P : Polygon) (v : Point) (vs : list Point) (s : Store) :
  poly s P = Some vs -> NoDup vs ->
  (In v vs ->
   runs (n <- next P v ;; n <- the n ;; prev P n) s
        (fun r s' => s' = s /\ r = Some v) /\
   runs (p <- prev P v ;; p <- the p ;; next P p) s
        (fun r s' => s' = s /\ r = Some v)) /\
  (~ In v vs ->
   runs (next P v) s (fun r s' => s' = s /\ r = nth_error vs 0)).
Proof.
  intros HP Hnd. split.
  - intros Hin. apply In_nth_error in Hin. destruct Hin as (i & Hi).
    assert (Hlt : (i < length vs)%nat) by (apply nth_error_Some; congruence).
    assert (Hidx : array_indexOf vs v = Z.of_nat i).
    { unfold array_indexOf. rewrite (index_from_nth v vs i 0%Z Hnd Hi). lia. }
    destruct vs as [| x0 vs0] eqn:Evs; [cbn in Hlt; lia |]. rewrite <- Evs in *.
    set (len := Z.of_nat (length vs)) in *.
    assert (Hlen : (0 < len)%Z) by (unfold len; lia).
    split.
    + eapply runs_bind; [apply (run_next P v vs s HP) |].
      intros r s1 [-> ->]. rewrite Evs at 1. rewrite Hidx. fold len.
      set (j := ((Z.of_nat i + 1) mod len)%Z).
      assert (Hj : (0 <= j < len)%Z) by (apply Z.mod_pos_bound; exact Hlen).
      rewrite <- (Z2Nat.id j) by lia. rewrite array_get_nat.
      destruct (nth_error vs (Z.to_nat j)) as [w |] eqn:Hw;
        [| apply nth_error_None in Hw; unfold len in Hj; lia].
      step.
      eapply runs_weaken; [apply (run_prev P w vs s HP) |].
      intros r s1 [-> ->]. split; [reflexivity |]. rewrite Evs at 1.
      unfold array_indexOf. rewrite (index_from_nth w vs _ 0%Z Hnd Hw).
      rewrite Z2Nat.id by lia. fold len.
      replace (Z.rem (0 + j + len - 1) len) with (Z.of_nat i).
      * rewrite array_get_nat. exact Hi.
      * rewrite Z.rem_mod_nonneg by lia. unfold j.
        destruct (Z.eq_dec (Z.of_nat i + 1) len) as [E | E].
        -- rewrite E, Z.mod_same by lia.
           rewrite Z.mod_small by lia. lia.
        -- rewrite (Z.mod_small (Z.of_nat i + 1)) by (unfold len in *; lia).
           replace (0 + (Z.of_nat i + 1) + len - 1)%Z
             with (Z.of_nat i + 1 * len)%Z by ring.
           rewrite Z.mod_add by lia. rewrite Z.mod_small by (unfold len; lia).
           reflexivity.
    + eapply runs_bind; [apply (run_prev P v vs s HP) |].
      intros r s1 [-> ->]. rewrite Evs at 1. rewrite Hidx. fold len.
      set (j := Z.rem (Z.of_nat i + len - 1) len).
      assert (Hjm : j = ((Z.of_nat i + len - 1) mod len)%Z)
        by (unfold j; apply Z.rem_mod_nonneg; lia).
      assert (Hj : (0 <= j < len)%Z)
        by (rewrite Hjm; apply Z.mod_pos_bound; exact Hlen).
      rewrite <- (Z2Nat.id j) by lia. rewrite array_get_nat.
      destruct (nth_error vs (Z.to_nat j)) as [w |] eqn:Hw;
        [| apply nth_error_None in Hw; unfold len in Hj; lia].
      step.
      eapply runs_weaken; [apply (run_next P w vs s HP) |].
      intros r s1 [-> ->]. split; [reflexivity |]. rewrite Evs at 1.
      unfold array_indexOf. rewrite (index_from_nth w vs _ 0%Z Hnd Hw).
      rewrite Z2Nat.id by lia. fold len.
      replace ((0 + j + 1) mod len)%Z with (Z.of_nat i).
      * rewrite array_get_nat. exact Hi.
      * rewrite Hjm.
        destruct (Z.eq_dec (Z.of_nat i) 0) as [E | E].
        -- rewrite E. replace (0 + len - 1)%Z with (len - 1)%Z by ring.
           rewrite (Z.mod_small (len - 1)) by lia.
           replace (0 + (len - 1) + 1)%Z with len by ring.
           rewrite Z.mod_same by lia. reflexivity.
        -- replace (Z.of_nat i + len - 1)%Z
             with (Z.of_nat i - 1 + 1 * len)%Z by ring.
           rewrite Z.mod_add by lia.
           rewrite (Z.mod_small (Z.of_nat i - 1)) by (unfold len; lia).
           replace (0 + (Z.of_nat i - 1) + 1)%Z with (Z.of_nat i) by ring.
           rewrite Z.mod_small by (unfold len; lia). reflexivity.
  - intros Hnin.
    eapply runs_weaken; [apply (run_next P v vs s HP) |].
    intros r s1 [-> ->]. split; [reflexivity |].
    destruct vs as [| x vs0]; [reflexivity |].
    unfold array_indexOf. rewrite (index_from_absent v _ 0%Z Hnin).
    change (-1 + 1)%Z with 0%Z. rewrite Z.mod_0_l by (cbn; lia).
    reflexivity.
Qed.

Lemma next_and_prev_witness :
  (In 2%nat [0; 1; 2; 3]%nat ->
   runs (n <- next 0%nat 2%nat ;; n <- the n ;; prev 0%nat n) rect_store
        (fun r s' => s' = rect_store /\ r = Some 2%nat) /\
   runs (p <- prev 0%nat 2%nat ;; p <- the p ;; next 0%nat p) rect_store
        (fun r s' => s' = rect_store /\ r = Some 2%nat)) /\
  (~ In 2%nat [0; 1; 2; 3]%nat ->
   runs (next 0%nat 2%nat) rect_store
        (fun r s' => s' = rect_store /\ r = nth_error [0; 1; 2; 3]%nat 0)).
Proof.
  apply (next_and_prev_are_inverse 0%nat 2%nat [0; 1; 2; 3]%nat rect_store).
  - reflexivity.
  - repeat constructor; cbn; lia.
Defined.

(** ** [getBounds] *)

Lemma Math_min_cases (a b : Q) :
  (Math_min a b = a \/ Math_min a b = b) /\
  Math_min a b <= a /\ Math_min a b <= b.
Proof.
  unfold Math_min. destruct (Qlt_le_dec b a) as [H | H].
  - split; [right; reflexivity |]. split; [lra | apply Qle_refl].
  - split; [left; reflexivity |]. split; [apply Qle_refl | exact H].
Qed.

Lemma Math_max_cases (a b : Q) :
  (Math_max a b = a \/ Math_max a b = b) /\
  a <= Math_max a b /\ b <= Math_max a b.
Proof.
  unfold Math_max. destruct (Qlt_le_dec a b) as [H | H].
  - split; [right; reflexivity |]. split; [lra | apply Qle_refl].
  - split; [left; reflexivity |]. split; [apply Qle_refl | exact H].
Qed.

(** The box [b] holds the corner [c]. *)
Definition holds (b : Bounds) (c : Q * Q) : Prop :=
  left b <= fst c /\ fst c <= right b /\ top b <= snd c /\ snd c <= bottom b.

(** Each side of [b'] is the same side of [b] or touches a corner of
    [cs]. *)
Definition touches (b b' : Bounds) (cs : list (Q * Q)) : Prop :=
  (left b' = left b \/ exists c, In c cs /\ left b' = fst c) /\
  (right b' = right b \/ exists c, In c cs /\ right b' = fst c) /\
  (top b' = top b \/ exists c, In c cs /\ top b' = snd c) /\
  (bottom b' = bottom b \/ exists c, In c cs /\ bottom b' = snd c).

Lemma run_getBounds_loop (vs : list Point) :
  forall (cs : list (Q * Q)) (b : Bounds) (s : Store),
    located s vs cs ->
    runs (getBounds_loop vs b) s
         (fun b' s' =>
            s' = s /\
            left b' <= left b /\ right b <= right b' /\
            top b' <= top b /\ bottom b <= bottom b' /\
            Forall (holds b') cs /\ touches b b' cs).
Proof.
  induction vs as [| v vs IH]; intros cs b s Hloc.
  - inversion Hloc; subst. apply runs_ret.
    split; [reflexivity |]. repeat (split; [apply Qle_refl |]).
    split; [constructor |]. repeat split; left; reflexivity.
  - inversion Hloc as [| ? c ? cs' Hv Hrest]; subst.
    cbn [getBounds_loop]. repeat step.
    destruct (Math_min_cases (left b) (fst c)) as (Hl & Hl1 & Hl2).
    destruct (Math_max_cases (right b) (fst c)) as (Hr & Hr1 & Hr2).
    destruct (Math_min_cases (top b) (snd c)) as (Ht & Ht1 & Ht2).
    destruct (Math_max_cases (bottom b) (snd c)) as (Hb & Hb1 & Hb2).
    eapply runs_weaken; [apply (IH cs' _ s Hrest) |].
    cbn [left right top bottom].
    intros b' s' (-> & L & R & T & B & Hall & Htl & Htr & Htt & Htb).
    split; [reflexivity |].
    split; [lra |]. split; [lra |]. split; [lra |]. split; [lra |].
    split.
    + constructor; [| exact Hall]. unfold holds. repeat split; lra.
    + assert (Hin : forall c', (exists c0, In c0 cs' /\ c' = c0) ->
                               exists c0, In c0 (c :: cs') /\ c' = c0).
      { intros c' (c0 & H0 & E). exists c0. split; [right; exact H0 | exact E]. }
      repeat split.
      * destruct Htl as [E | (c0 & H0 & E)].
        -- rewrite E. destruct Hl as [-> | ->]; [left; reflexivity |].
           right. exists c. split; [left; reflexivity | reflexivity].
        -- right. exists c0. split; [right; exact H0 | exact E].
      * destruct Htr as [E | (c0 & H0 & E)].
        -- rewrite E. destruct Hr as [-> | ->]; [left; reflexivity |].
           right. exists c. split; [left; reflexivity | reflexivity].
        -- right. exists c0. split; [right; exact H0 | exact E].
      * destruct Htt as [E | (c0 & H0 & E)].
        -- rewrite E. destruct Ht as [-> | ->]; [left; reflexivity |].
           right. exists c. split; [left; reflexivity | reflexivity].
        -- right. exists c0. split; [right; exact H0 | exact E].
      * destruct Htb as [E | (c0 & H0 & E)].
        -- rewrite E. destruct Hb as [-> | ->]; [left; reflexivity |].
           right. exists c. split; [left; reflexivity | reflexivity].
        -- right. exists c0. split; [right; exact H0 | exact E].
Qed.

(** X21.  [getBounds] of a polygon with vertices returns the least box that
    holds every vertex (each side touches one); on a polygon without
    vertices it reads [x] of [undefined] and fails with a TypeError. *)
Theorem getBounds_is_least_box
        (P : Polygon) (vs : list Point) (cs : list (Q * Q)) (s : Store) :
  poly s P = Some vs -> located s vs cs ->
  (vs = [] -> getBounds P s = TypeError) /\
  (vs <> [] ->
   runs (getBounds P) s
        (fun b s' =>
           s' = s /\ Forall (holds b) cs /\
           (exists c, In c cs /\ left b = fst c) /\
           (exists c, In c cs /\ right b = fst c) /\
           (exists c, In c cs /\ top b = snd c) /\
           (exists c, In c cs /\ bottom b = snd c))).
Proof.
  intros HP Hloc. split.
  - intros ->. unfold getBounds, vertex, get_vertices, bind, ret, the.
    unfold poly in HP. rewrite HP. reflexivity.
  - intros Hne. destruct vs as [| v0 vs0]; [contradiction |].
    inversion Hloc as [| ? c0 ? cs0 Hv0 Hrest]; subst.
    unfold getBounds.
    apply (step_vertex P (v0 :: vs0) 0 _ s _ HP). cbn [nth_error]. repeat step.
    apply (step_vertex P (v0 :: vs0) 0 _ s _ HP). cbn [nth_error]. repeat step.
    eapply runs_weaken; [apply (run_getBounds_loop _ _ _ s Hloc) |].
    cbn [left right top bottom].
    intros b s' (-> & _ & _ & _ & _ & Hall & Htl & Htr & Htt & Htb).
    split; [reflexivity |]. split; [exact Hall |].
    assert (H0 : In c0 (c0 :: cs0)) by (left; reflexivity).
    repeat split.
    + destruct Htl as [E | H]; [exists c0; split; assumption | exact H].
    + destruct Htr as [E | H]; [exists c0; split; assumption | exact H].
    + destruct Htt as [E | H]; [exists c0; split; assumption | exact H].
    + destruct Htb as [E | H]; [exists c0; split; assumption | exact H].
Qed.

Lemma getBounds_witness :
  ([0; 1; 2; 3]%nat = [] -> getBounds 0%nat rect_store = TypeError) /\
  ([0; 1; 2; 3]%nat <> [] ->
   runs (getBounds 0%nat) rect_store
        (fun b s' =>
           s' = rect_store /\
           Forall (holds b) [(-2, -2); (2, -2); (2, 2); (-2, 2)] /\
           (exists c, In c [(-2, -2); (2, -2); (2, 2); (-2, 2)] /\ left b = fst c) /\
           (exists c, In c [(-2, -2); (2, -2); (2, 2); (-2, 2)] /\ right b = fst c) /\
           (exists c, In c [(-2, -2); (2, -2); (2, 2); (-2, 2)] /\ top b = snd c) /\
           (exists c, In c [(-2, -2); (2, -2); (2, 2); (-2, 2)] /\ bottom b = snd c))).
Proof.
  apply (getBounds_is_least_box 0%nat [0; 1; 2; 3]%nat
           [(-2, -2); (2, -2); (2, 2); (-2, 2)] rect_store).
  - reflexivity.
  - repeat constructor.
Defined.

(** ** [spliti] *)

Lemma cyc_diagonal (a b : Q * Q) (X W : list (Q * Q)) :
  cyc (a :: X ++ [b]) + cyc (b :: W ++ [a]) == cyc (a :: X ++ b :: W).
Proof.
  change (a :: X ++ [b]) with ((a :: X) ++ [b]).
  change (b :: W ++ [a]) with ((b :: W) ++ [a]).
  change (a :: X ++ b :: W) with ((a :: X) ++ (b :: W)).
  rewrite !cyc_app by discriminate.
  cbn [chain last hd]. unfold term. ring.
Qed.

Lemma list_at {A} (l : list A) (n : nat) :
  (n < length l)%nat ->
  exists Z a R, l = Z ++ a :: R /\ length Z = n.
Proof.
  intros Hn. destruct (nth_error l n) as [a |] eqn:Ha;
    [| apply nth_error_None in Ha; lia].
  destruct (nth_error_split l n Ha) as (Z & R & -> & HZ).
  exists Z, a, R. split; [reflexivity | exact HZ].
Qed.

Lemma diagonal_shape {A} (l : list A) (lo hi : nat) :
  (lo < hi)%nat -> (hi < length l)%nat ->
  exists Z a X b Y,
    l = Z ++ a :: X ++ b :: Y /\
    firstn (hi + 1 - lo) (skipn lo l) = a :: X ++ [b] /\
    skipn hi l ++ firstn (lo + 1) l = (b :: Y) ++ Z ++ [a].
Proof.
  intros Hlh Hhi.
  destruct (list_at l lo ltac:(lia)) as (Z & a & R & -> & HZ).
  rewrite length_app in Hhi. cbn [length] in Hhi.
  destruct (list_at R (hi - lo - 1) ltac:(lia)) as (X & b & Y & -> & HX).
  exists Z, a, X, b, Y. split; [reflexivity |]. split.
  - rewrite skipn_app, <- HZ, Nat.sub_diag, skipn_all. cbn [app skipn].
    replace (hi + 1 - length Z)%nat with (S (length X + 1)) by lia.
    cbn [firstn]. rewrite firstn_app_2. reflexivity.
  - f_equal.
    + replace (Z ++ a :: X ++ b :: Y) with ((Z ++ a :: X) ++ b :: Y)
        by (rewrite <- app_assoc; reflexivity).
      rewrite skipn_app.
      replace hi with (length (Z ++ a :: X))
        by (rewrite length_app; cbn [length]; lia).
      rewrite skipn_all, Nat.sub_diag. reflexivity.
    + rewrite <- HZ. rewrite firstn_app_2. reflexivity.
Qed.

Lemma diagonal_area (cs : list (Q * Q)) (lo hi : nat) :
  (lo < hi)%nat -> (hi < length cs)%nat ->
  area (firstn (hi + 1 - lo) (skipn lo cs)) +
  area (skipn hi cs ++ firstn (lo + 1) cs) == area cs.
Proof.
  intros Hlh Hhi.
  destruct (diagonal_shape cs lo hi Hlh Hhi) as (Z & a & X & b & Y & E & E1 & E2).
  rewrite E1, E2. rewrite !area_cyc. rewrite E.
  rewrite (cyc_rotate Z (a :: X ++ b :: Y)).
  change ((b :: Y) ++ Z ++ [a]) with (b :: Y ++ Z ++ [a]).
  rewrite (app_assoc Y Z [a]).
  pose proof (cyc_diagonal a b X (Y ++ Z)) as Hd.
  replace ((a :: X ++ b :: Y) ++ Z) with (a :: X ++ b :: Y ++ Z)
    by (cbn [app]; rewrite <- app_assoc; reflexivity).
  rewrite <- Hd. ring.
Qed.

Lemma js_slice_in_range {A} (l : list A) (from to : nat) :
  (from <= to)%nat -> (to <= length l)%nat ->
  js_slice (Z.of_nat from) (Z.of_nat to) l =
  firstn (to - from) (skipn from l).
Proof.
  intros H1 H2. unfold js_slice.
  destruct (Z.ltb_spec (Z.of_nat from) 0); [lia |].
  destruct (Z.ltb_spec (Z.of_nat to) 0); [lia |].
  rewrite !Z.min_l by lia.
  rewrite <- Nat2Z.inj_sub by lia. rewrite !Nat2Z.id. reflexivity.
Qed.

Lemma step_Polygon_new {B} (vs : list Point) (k : Polygon -> M B) (s : Store)
      (post : B -> Store -> Prop) :
  runs (k (length (polygons s))) (alloc_poly s vs) post ->
  runs (bind (Polygon_new vs) k) s post.
Proof. trivial. Qed.

(** X22.  For two different vertex indices, [spliti] returns two new polygons:
    the vertices from the lower index to the higher, and those from the
    higher round to the lower; each holds both split vertices, the
    receiver is untouched, and the signed areas of the two add up to the
    receiver's. *)
Theorem spliti_halves_add_up
        (P : Polygon) (i1 i2 : nat) (vs : list Point) (s : Store) :
  poly s P = Some vs -> valid_points s vs ->
  (i1 < length vs)%nat -> (i2 < length vs)%nat -> i1 <> i2 ->
  let lo := Nat.min i1 i2 in
  let hi := Nat.max i1 i2 in
  runs (spliti P (Z.of_nat i1) (Z.of_nat i2)) s
       (fun res s' =>
          ext s s' /\
          exists a b,
            res = [a; b] /\
            poly s' a = Some (firstn (hi + 1 - lo) (skipn lo vs)) /\
            poly s' b = Some (skipn hi vs ++ firstn (lo + 1) vs) /\
            exists sa sb st,
              square a s' = Val sa s' /\ square b s' = Val sb s' /\
              square P s' = Val st s' /\ sa + sb == st).
Proof.
  intros HP Hvs H1 H2 Hne lo hi.
  destruct (valid_located _ _ Hvs) as (cs & Hloc).
  assert (Hlh : (lo < hi)%nat) by (unfold lo, hi; lia).
  assert (Hhi : (hi < length vs)%nat) by (unfold hi; lia).
  unfold spliti.
  assert (Elo : (if (Z.of_nat i2 <? Z.of_nat i1)%Z then Z.of_nat i2 else Z.of_nat i1)
                = Z.of_nat lo).
  { unfold lo. destruct (Z.ltb_spec (Z.of_nat i2) (Z.of_nat i1)); lia. }
  assert (Ehi : (if (Z.of_nat i2 <? Z.of_nat i1)%Z then Z.of_nat i1 else Z.of_nat i2)
                = Z.of_nat hi).
  { unfold hi. destruct (Z.ltb_spec (Z.of_nat i2) (Z.of_nat i1)); lia. }
  rewrite Elo, Ehi. cbv zeta.
  step. apply step_Polygon_new.
  set (va := js_slice (Z.of_nat lo) (Z.of_nat hi + 1) vs).
  set (s1 := alloc_poly s va).
  assert (He1 : ext s s1) by apply ext_alloc_poly.
  pose proof (ext_poly _ _ _ _ He1 HP) as HP1.
  do 2 step. apply step_Polygon_new.
  set (vb := js_slice_from (Z.of_nat hi) vs ++ js_slice 0 (Z.of_nat lo + 1) vs).
  set (s2 := alloc_poly s1 vb).
  assert (He2 : ext s1 s2) by apply ext_alloc_poly.
  assert (He : ext s s2) by (eapply ext_trans; eassumption).
  apply runs_ret.
  assert (Eva : va = firstn (hi + 1 - lo) (skipn lo vs)).
  { unfold va. replace (Z.of_nat hi + 1)%Z with (Z.of_nat (hi + 1)) by lia.
    apply js_slice_in_range; lia. }
  assert (Evb : vb = skipn hi vs ++ firstn (lo + 1) vs).
  { unfold vb, js_slice_from. f_equal.
    - rewrite js_slice_in_range by lia. apply firstn_all2.
      rewrite length_skipn. lia.
    - change 0%Z with (Z.of_nat 0).
      replace (Z.of_nat lo + 1)%Z with (Z.of_nat (lo + 1)) by lia.
      rewrite js_slice_in_range by lia. cbn [skipn].
      rewrite Nat.sub_0_r. reflexivity. }
  assert (Ha : poly s2 (length (polygons s)) = Some va).
  { eapply ext_poly; [exact He2 | apply poly_alloc_poly]. }
  assert (Hb : poly s2 (length (polygons s1)) = Some vb)
    by apply poly_alloc_poly.
  pose proof (ext_located _ _ _ _ He Hloc) as Hloc2.
  assert (Hla : located s2 va (firstn (hi + 1 - lo) (skipn lo cs))).
  { rewrite Eva. apply located_firstn, located_skipn. exact Hloc2. }
  assert (Hlb : located s2 vb (skipn hi cs ++ firstn (lo + 1) cs)).
  { rewrite Evb. apply located_app;
      [apply located_skipn | apply located_firstn]; exact Hloc2. }
  split; [exact He |].
  exists (length (polygons s)), (length (polygons s1)).
  split; [reflexivity |].
  split; [rewrite <- Eva; exact Ha |].
  split; [rewrite <- Evb; exact Hb |].
  destruct (runs_val _ _ _ (run_square _ _ _ s2 Ha Hla)) as (sa & ? & Hsa & -> & ->).
  destruct (runs_val _ _ _ (run_square _ _ _ s2 Hb Hlb)) as (sb & ? & Hsb & -> & ->).
  destruct (runs_val _ _ _ (run_square P vs cs s2 (ext_poly _ _ _ _ He HP) Hloc2))
    as (st & ? & Hst & -> & ->).
  eexists _, _, _. split; [exact Hsa |]. split; [exact Hsb |].
  split; [exact Hst |].
  apply diagonal_area; [exact Hlh |].
  rewrite (located_length _ _ _ Hloc). exact Hhi.
Qed.

Lemma spliti_halves_add_up_witness :
  let lo := Nat.min 3 1 in
  let hi := Nat.max 3 1 in
  runs (spliti 0%nat (Z.of_nat 3) (Z.of_nat 1)) rect_store
       (fun res s' =>
          ext rect_store s' /\
          exists a b,
            res = [a; b] /\
            poly s' a = Some (firstn (hi + 1 - lo) (skipn lo [0; 1; 2; 3]%nat)) /\
            poly s' b = Some (skipn hi [0; 1; 2; 3]%nat ++
                              firstn (lo + 1) [0; 1; 2; 3]%nat) /\
            exists sa sb st,
              square a s' = Val sa s' /\ square b s' = Val sb s' /\
              square 0%nat s' = Val st s' /\ sa + sb == st).
Proof.
  apply (spliti_halves_add_up 0%nat 3 1 [0; 1; 2; 3]%nat rect_store);
    [reflexivity | repeat constructor; cbn; lia | cbn; lia | cbn; lia | lia].
Defined.

(** ** [Polygon.offset] *)

(** The store after the coordinates of point [v] were set to [c]. *)
Definition move (s : Store) (v : Point) (c : Q * Q) : Store :=
  mkStore (set_nth v c (points s)) (polygons s) (seed s).

Lemma nth_error_set_nth_same {A} (l : list A) (n : nat) (a : A) :
  (n < length l)%nat -> nth_error (set_nth n a l) n = Some a.
Proof.
  revert n. induction l as [| x l IH]; intros [| n] Hn; cbn in *; try lia;
    [reflexivity |].
  apply IH. lia.
Qed.

Lemma nth_error_set_nth_other {A} (l : list A) (n m : nat) (a : A) :
  n <> m -> nth_error (set_nth n a l) m = nth_error l m.
Proof.
  revert n m. induction l as [| x l IH]; intros [| n] [| m] Hne; cbn;
    try reflexivity; try congruence.
  apply IH. congruence.
Qed.

Lemma pt_move_same (s : Store) (v : Point) (c c0 : Q * Q) :
  pt s v = Some c0 -> pt (move s v c) v = Some c.
Proof.
  intros H. unfold pt, move. cbn [points].
  apply nth_error_set_nth_same. apply nth_error_Some. unfold pt in H. congruence.
Qed.

Lemma pt_move_other (s : Store) (v u : Point) (c : Q * Q) :
  v <> u -> pt (move s v c) u = pt s u.
Proof. intros H. unfold pt, move. cbn [points]. apply nth_error_set_nth_other. exact H. Qed.

Lemma run_Point_offset (v : Point) (dx dy : Q) (c : Q * Q) (s : Store) :
  pt s v = Some c ->
  runs (Point_offset v dx dy) s
       (fun _ s' => s' = move s v (fst c + dx, snd c + dy)).
Proof.
  intros H. unfold Point_offset. repeat step.
  unfold runs, put_xy. unfold pt in H. rewrite H. reflexivity.
Qed.

(** The corner [c] moved by [d]. *)
Definition shift (d c : Q * Q) : Q * Q := (fst c + fst d, snd c + snd d).

Lemma chain_shift (d : Q * Q) (l : list (Q * Q)) :
  chain (map (shift d) l) ==
  chain l + snd d * (fst (hd origin l) - fst (last l origin))
          + fst d * (snd (last l origin) - snd (hd origin l)).
Proof.
  induction l as [| a l IH]; [cbn; ring |].
  destruct l as [| b l]; [cbn; ring |].
  change (map (shift d) (a :: b :: l))
    with (shift d a :: shift d b :: map (shift d) l).
  rewrite chain_cons.
  change (shift d b :: map (shift d) l) with (map (shift d) (b :: l)).
  rewrite IH. rewrite chain_cons.
  change (last (a :: b :: l) origin) with (last (b :: l) origin).
  cbn [hd]. unfold term, shift. cbn [fst snd]. ring.
Qed.

Lemma last_map_shift (d : Q * Q) (l : list (Q * Q)) :
  l <> [] -> last (map (shift d) l) origin = shift d (last l origin).
Proof.
  induction l as [| a l IH]; intros Hne; [contradiction |].
  destruct l as [| b l]; [reflexivity |].
  change (map (shift d) (a :: b :: l))
    with (shift d a :: map (shift d) (b :: l)).
  change (last (a :: b :: l) origin) with (last (b :: l) origin).
  rewrite <- IH by discriminate. reflexivity.
Qed.

Lemma area_shift (d : Q * Q) (cs : list (Q * Q)) :
  area (map (shift d) cs) == area cs.
Proof.
  rewrite !area_cyc. unfold cyc. rewrite chain_shift.
  destruct cs as [| a cs]; [cbn; ring |].
  rewrite last_map_shift by discriminate. cbn [map hd].
  unfold term, shift. cbn [fst snd]. ring.
Qed.

Lemma run_offset_loop (p : Point) (d : Q * Q) (vs : list Point) :
  forall (cs : list (Q * Q)) (s : Store),
    NoDup vs -> ~ In p vs -> located s vs cs -> pt s p = Some d ->
    runs (offset_loop vs p) s
         (fun _ s' =>
            polygons s' = polygons s /\ seed s' = seed s /\
            length (points s') = length (points s) /\
            located s' vs (map (shift d) cs) /\
            (forall u, ~ In u vs -> pt s' u = pt s u)).
Proof.
  induction vs as [| v vs IH]; intros cs s Hnd Hp Hloc Hd.
  - inversion Hloc; subst. apply runs_ret.
    repeat split; try reflexivity. constructor.
  - inversion Hloc as [| ? c ? cs' Hv Hrest]; subst.
    inversion Hnd as [| ? ? Hnin Hnd']; subst.
    assert (Hpv : v <> p) by (intros ->; apply Hp; left; reflexivity).
    assert (Hp' : ~ In p vs) by (intros H; apply Hp; right; exact H).
    cbn [offset_loop]. repeat step.
    eapply runs_bind; [apply (run_Point_offset v _ _ c s Hv) |].
    intros [] s1 ->.
    set (s1 := move s v (fst c + fst d, snd c + snd d)).
    assert (Hrest1 : located s1 vs cs').
    { clear - Hrest Hnin. induction Hrest as [| u cu vs cs' Hu Hrest IHr];
        constructor.
      - unfold s1. rewrite pt_move_other; [exact Hu |].
        intros ->. apply Hnin. left. reflexivity.
      - apply IHr. intros H. apply Hnin. right. exact H. }
    assert (Hd1 : pt s1 p = Some d).
    { unfold s1. rewrite pt_move_other by exact Hpv. exact Hd. }
    eapply runs_weaken; [apply (IH cs' s1 Hnd' Hp' Hrest1 Hd1) |].
    intros [] s' (Hpoly & Hseed & Hlen & Hl & Hother).
    split; [exact Hpoly |]. split; [exact Hseed |].
    split.
    { rewrite Hlen. unfold s1, move. cbn [points].
      clear. generalize (points s). intros l. revert v.
      induction l as [| x l IHl]; intros [| v]; cbn; try reflexivity.
      rewrite IHl. reflexivity. }
    split.
    + constructor; [| exact Hl].
      rewrite (Hother v Hnin). unfold s1. eapply pt_move_same. exact Hv.
    + intros u Hu. rewrite Hother by (intros H; apply Hu; right; exact H).
      unfold s1. apply pt_move_other. intros ->. apply Hu. left. reflexivity.
Qed.

(** X23.  [offset(p)] on a polygon that lists no point twice, by a point [p]
    that is not one of its vertices: every vertex moves by [(p.x, p.y)],
    no other point moves, no vertex array changes, and the signed area
    stays the same. *)
Theorem offset_translates_polygon
        (P : Polygon) (p : Point) (d : Q * Q) (vs : list Point)
        (cs : list (Q * Q)) (s : Store) :
  poly s P = Some vs -> located s vs cs -> NoDup vs -> ~ In p vs ->
  pt s p = Some d ->
  runs (Polygon_offset P p) s
       (fun _ s' =>
          polygons s' = polygons s /\
          located s' vs (map (shift d) cs) /\
          (forall u, ~ In u vs -> pt s' u = pt s u) /\
          exists a a', square P s = Val a s /\ square P s' = Val a' s' /\
                       a' == a).
Proof.
  intros HP Hloc Hnd Hp Hd. unfold Polygon_offset. step.
  eapply runs_weaken; [apply (run_offset_loop p d vs cs s Hnd Hp Hloc Hd) |].
  intros [] s' (Hpoly & _ & _ & Hl & Hother).
  split; [exact Hpoly |]. split; [exact Hl |]. split; [exact Hother |].
  assert (HP' : poly s' P = Some vs) by (unfold poly in *; rewrite Hpoly; exact HP).
  destruct (runs_val _ _ _ (run_square P vs cs s HP Hloc)) as (a & ? & Ha & -> & ->).
  destruct (runs_val _ _ _ (run_square P vs _ s' HP' Hl)) as (a' & ? & Ha' & -> & ->).
  eexists _, _. split; [exact Ha |]. split; [exact Ha' |]. apply area_shift.
Qed.

Lemma offset_translates_polygon_witness :
  runs (Polygon_offset 0%nat 5%nat) rect_store
       (fun _ s' =>
          polygons s' = polygons rect_store /\
          located s' [0; 1; 2; 3]%nat
                  (map (shift (5, 0)) [(-2, -2); (2, -2); (2, 2); (-2, 2)]) /\
          (forall u, ~ In u [0; 1; 2; 3]%nat -> pt s' u = pt rect_store u) /\
          exists a a', square 0%nat rect_store = Val a rect_store /\
                       square 0%nat s' = Val a' s' /\ a' == a).
Proof.
  apply (offset_translates_polygon 0%nat 5%nat (5, 0) [0; 1; 2; 3]%nat
           [(-2, -2); (2, -2); (2, 2); (-2, 2)] rect_store).
  - reflexivity.
  - repeat constructor.
  - repeat constructor; cbn; lia.
  - cbn. lia.
  - reflexivity.
Defined.

Section WithMathMore.

Variable Math : MathLib.

(** ** [Polygon.distance] *)

(** The distance [Point.distance] computes between two corners. *)
Definition dist (c cp : Q * Q) : Q :=
  Math_sqrt Math ((fst c - fst cp) * (fst c - fst cp) +
                  (snd c - snd cp) * (snd c - snd cp)).

Lemma run_distance_loop (p : Point) (cp : Q * Q) (rest : list Point) :
  forall (crest : list (Q * Q)) (d : Q) (s : Store),
    located s rest crest -> pt s p = Some cp ->
    runs (distance_loop Math rest p d) s
         (fun r s' =>
            s' = s /\ r <= d /\
            Forall (fun c => r <= dist c cp) crest /\
            (r = d \/ exists c, In c crest /\ r = dist c cp)).
Proof.
  induction rest as [| v rest IH]; intros crest d s Hloc Hp.
  - inversion Hloc; subst. apply runs_ret.
    split; [reflexivity |]. split; [apply Qle_refl |].
    split; [constructor | left; reflexivity].
  - inversion Hloc as [| ? c ? crest' Hv Hrest]; subst.
    cbn [distance_loop].
    eapply runs_bind; [apply (run_distance Math v p c cp s Hv Hp) |].
    intros d1 s1 [-> ->]. fold (dist c cp).
    eapply runs_weaken; [apply (IH crest' _ s Hrest Hp) |].
    intros r s' (-> & Hle & Hall & Hin). split; [reflexivity |].
    destruct (Qlt_le_dec (dist c cp) d) as [Hlt | Hge].
    + split; [lra |]. split; [constructor; assumption |].
      right. destruct Hin as [-> | (c' & Hc' & ->)].
      * exists c. split; [left; reflexivity | reflexivity].
      * exists c'. split; [right; exact Hc' | reflexivity].
    + split; [exact Hle |]. split; [constructor; [lra | exact Hall] |].
      destruct Hin as [-> | (c' & Hc' & ->)]; [left; reflexivity |].
      right. exists c'. split; [right; exact Hc' | reflexivity].
Qed.

(** X24.  [distance(p)] on a polygon with vertices returns the distance from
    [p] to a vertex that is nearest to it, and changes nothing; on a
    polygon without vertices it fails with a TypeError. *)
Theorem Polygon_distance_is_least
        (P : Polygon) (p : Point) (cp : Q * Q) (vs : list Point)
        (cs : list (Q * Q)) (s : Store) :
  poly s P = Some vs -> located s vs cs -> pt s p = Some cp ->
  (vs = [] -> Polygon_distance Math P p s = TypeError) /\
  (vs <> [] ->
   runs (Polygon_distance Math P p) s
        (fun r s' =>
           s' = s /\ Forall (fun c => r <= dist c cp) cs /\
           exists c, In c cs /\ r = dist c cp)).
Proof.
  intros HP Hloc Hp. split.
  - intros ->. unfold Polygon_distance, vertex, get_vertices, bind, ret, the.
    unfold poly in HP. rewrite HP. reflexivity.
  - intros Hne. destruct vs as [| v0 vs0]; [contradiction |].
    inversion Hloc as [| ? c0 ? cs0 Hv0 Hrest]; subst.
    unfold Polygon_distance.
    apply (step_vertex P (v0 :: vs0) 0 _ s _ HP). cbn [nth_error]. step.
    eapply runs_bind; [apply (run_distance Math v0 p c0 cp s Hv0 Hp) |].
    intros d s1 [-> ->]. fold (dist c0 cp). step. cbn [skipn].
    eapply runs_weaken; [apply (run_distance_loop p cp vs0 cs0 _ s Hrest Hp) |].
    intros r s' (-> & Hle & Hall & Hin). split; [reflexivity |].
    split; [constructor; assumption |].
    destruct Hin as [-> | (c' & Hc' & ->)].
    + exists c0. split; [left; reflexivity | reflexivity].
    + exists c'. split; [right; exact Hc' | reflexivity].
Qed.

(** ** [shrink] *)

Lemma run_shrink_edge_skip (d : list Q) (v1 v2 : Point) (i : nat)
      (q : Polygon) (s : Store) :
  (forall j dd, nth_error d j = Some dd -> dd <= 0) ->
  runs (shrink_edge Math d v1 v2 (i, q)) s
       (fun r s' => s' = s /\ r = (S i, q)).
Proof.
  intros Hd. unfold shrink_edge.
  destruct (nth_error d i) as [dd |] eqn:Hi;
    [| apply runs_ret; split; reflexivity].
  specialize (Hd i dd Hi).
  destruct (Qlt_le_dec 0 dd) as [Hpos | _]; [exfalso; lra |].
  apply runs_ret. split; reflexivity.
Qed.

Lemma run_forEdge_skip (d : list Q) (P : Polygon) (vs : list Point)
      (q : Polygon) (s : Store) (ixs : list nat) :
  poly s P = Some vs ->
  (forall j dd, nth_error d j = Some dd -> dd <= 0) ->
  Forall (fun i => (i < length vs)%nat) ixs ->
  forall i,
    runs (forEdge_loop P (length vs) ixs (shrink_edge Math d) (i, q)) s
         (fun r s' => s' = s /\ snd r = q).
Proof.
  intros HP Hd Hix. induction Hix as [| k ixs Hk Hix IH]; intros i.
  - apply runs_ret. split; reflexivity.
  - cbn [forEdge_loop].
    apply (step_vertex P vs k _ s _ HP).
    apply (step_vertex P vs ((k + 1) mod length vs) _ s _ HP).
    destruct (nth_error vs k) as [v0 |] eqn:H0;
      [| apply nth_error_None in H0; lia].
    assert (Hm : ((k + 1) mod length vs < length vs)%nat)
      by (apply Nat.mod_upper_bound; lia).
    destruct (nth_error vs ((k + 1) mod length vs)) as [v1 |] eqn:H1;
      [| apply nth_error_None in H1; lia].
    do 2 step.
    eapply runs_bind; [apply (run_shrink_edge_skip d v0 v1 i q s Hd) |].
    intros r s1 [-> ->]. apply IH.
Qed.

(** X25.  When no distance of [d] is positive, [shrink(d)] cuts nothing: it
    returns a new polygon over the same vertex objects, in the same
    order, and changes nothing else. *)
Theorem shrink_without_positive_distance_copies
        (P : Polygon) (d : list Q) (vs : list Point) (s : Store) :
  poly s P = Some vs ->
  (forall j dd, nth_error d j = Some dd -> dd <= 0) ->
  runs (shrink Math P d) s
       (fun q s' => s' = alloc_poly s vs /\ q = length (polygons s)).
Proof.
  intros HP Hd. unfold shrink. step. apply step_Polygon_new.
  assert (HP1 : poly (alloc_poly s vs) P = Some vs)
    by (eapply ext_poly; [apply ext_alloc_poly | exact HP]).
  eapply runs_bind.
  - unfold forEdge. apply (step_Polygon_length P vs _ _ _ HP1).
    apply (run_forEdge_skip d P vs _ _ (seq 0 (length vs)) HP1 Hd).
    apply Forall_forall. intros i Hi. apply in_seq in Hi. lia.
  - intros r s1 [-> Hr]. apply runs_ret. split; [reflexivity | exact Hr].
Qed.

End WithMathMore.

Lemma Polygon_distance_witness :
  ([0; 1; 2; 3]%nat = [] -> Polygon_distance testMath 0%nat 4%nat rect_store = TypeError) /\
  ([0; 1; 2; 3]%nat <> [] ->
   runs (Polygon_distance testMath 0%nat 4%nat) rect_store
        (fun r s' =>
           s' = rect_store /\
           Forall (fun c => r <= dist testMath c (-5, 0))
                  [(-2, -2); (2, -2); (2, 2); (-2, 2)] /\
           exists c, In c [(-2, -2); (2, -2); (2, 2); (-2, 2)] /\
                     r = dist testMath c (-5, 0))).
Proof.
  apply (Polygon_distance_is_least testMath 0%nat 4%nat (-5, 0) [0; 1; 2; 3]%nat
           [(-2, -2); (2, -2); (2, 2); (-2, 2)] rect_store).
  - reflexivity.
  - repeat constructor.
  - reflexivity.
Defined.

Lemma shrink_without_positive_distance_witness :
  runs (shrink testMath 0%nat [0; 0; 0; 0]) rect_store
       (fun q s' => s' = alloc_poly rect_store [0; 1; 2; 3]%nat /\
                    q = length (polygons rect_store)).
Proof.
  apply (shrink_without_positive_distance_copies testMath 0%nat [0; 0; 0; 0]
           [0; 1; 2; 3]%nat rect_store).
  - reflexivity.
  - intros j dd Hj. do 4 (destruct j as [| j]; [injection Hj as <-; discriminate |]).
    destruct j; discriminate.
Defined.

Set Implicit Arguments.

End GeomOpsFacts.

(* ===================================================================== *)
(** * Properties of [buildTowers] *)
(* ===================================================================== *)

Module WallTowersFacts.

Import WallCommon WallTowers.
Local Open Scope nat_scope.
Unset Implicit Arguments.

Lemma wall_includes_In (l : list Point) (x : Point) :
  includes l x = true <-> In x l.
Proof.
  unfold includes. rewrite existsb_exists. split.
  - intros (y & Hy & Heq). apply Nat.eqb_eq in Heq. subst. exact Hy.
  - intros H. exists x. split; [exact H | apply Nat.eqb_refl].
Qed.

Lemma towers_loop_In (shape : Polygon) (gates : list Point)
      (segments : list bool) (len : nat) (ixs : list nat) :
  forall towers t,
    In t (towers_loop shape gates segments len ixs towers) ->
    In t towers \/ (In t shape /\ ~ In t gates).
Proof.
  induction ixs as [| i ixs IH]; intros towers t Ht; cbn [towers_loop] in Ht.
  - left. exact Ht.
  - destruct (nth_error shape i) as [x |] eqn:Hx; [| apply IH; exact Ht].
    destruct (negb (includes gates x) &&
              (segment_at segments ((i + len - 1) mod len) ||
               segment_at segments i)) eqn:Hc.
    + destruct (IH _ _ Ht) as [Hin | Hin]; [| right; exact Hin].
      apply in_app_or in Hin. destruct Hin as [Hin | [<- | []]];
        [left; exact Hin | right].
      split; [eapply nth_error_In; exact Hx |].
      apply andb_true_iff in Hc. destruct Hc as [Hg _].
      apply negb_true_iff in Hg. intros Hin.
      apply wall_includes_In in Hin. congruence.
    + apply IH. exact Ht.
Qed.

Lemma segment_at_true (segments : list bool) (i : nat) :
  Forall (fun b => b = true) segments -> i < length segments ->
  segment_at segments i = true.
Proof.
  intros Hall Hi. unfold segment_at.
  apply (proj1 (Forall_forall _ _) Hall). apply nth_In. exact Hi.
Qed.

Lemma towers_loop_all (shape : Polygon) (gates : list Point)
      (segments : list bool) :
  Forall (fun b => b = true) segments -> length segments = length shape ->
  forall rest k towers,
    skipn k shape = rest ->
    towers_loop shape gates segments (length shape)
                (seq k (length rest)) towers =
    towers ++ filter (fun t => negb (includes gates t)) rest.
Proof.
  intros Hall Hlen. induction rest as [| x rest IH]; intros k towers Hk.
  - cbn. rewrite app_nil_r. reflexivity.
  - cbn [length seq towers_loop filter].
    assert (Hklt : k < length shape).
    { destruct (Nat.lt_ge_cases k (length shape)) as [H | H]; [exact H |].
      rewrite skipn_all2 in Hk by exact H. discriminate. }
    assert (Hx : nth_error shape k = Some x).
    { rewrite <- (firstn_skipn k shape). rewrite Hk.
      rewrite nth_error_app2 by (rewrite length_firstn; lia).
      rewrite length_firstn.
      replace (k - Nat.min k (length shape)) with 0 by lia. reflexivity. }
    rewrite Hx.
    rewrite (segment_at_true segments k Hall) by lia.
    rewrite orb_true_r, andb_true_r.
    assert (Hk' : skipn (S k) shape = rest).
    { replace (S k) with (1 + k) by lia. rewrite <- skipn_skipn, Hk. reflexivity. }
    destruct (negb (includes gates x)).
    + rewrite (IH (S k) _ Hk'). rewrite <- app_assoc. reflexivity.
    + apply (IH (S k) _ Hk').
Qed.

(** X26.  [buildTowers] puts no tower on a wall that is not real; every tower
    is a vertex of the wall and none is a gate; and while every segment
    of the wall is active the towers are all the vertices that are not
    gates, in wall order. *)
Theorem buildTowers_never_on_gates
        (real : bool) (shape : Polygon) (gates : list Point)
        (segments : list bool) :
  buildTowers false shape gates segments = [] /\
  (forall t, In t (buildTowers real shape gates segments) ->
             In t shape /\ ~ In t gates) /\
  (Forall (fun b => b = true) segments -> length segments = length shape ->
   buildTowers true shape gates segments =
   filter (fun t => negb (includes gates t)) shape).
Proof.
  split; [reflexivity |]. split.
  - intros t Ht. unfold buildTowers in Ht. destruct real; [| contradiction].
    destruct (towers_loop_In _ _ _ _ _ _ _ Ht) as [[] | H]. exact H.
  - intros Hall Hlen. unfold buildTowers.
    apply (towers_loop_all shape gates segments Hall Hlen shape 0 []).
    reflexivity.
Qed.

Set Implicit Arguments.

End WallTowersFacts.

(* ===================================================================== *)
(** * Properties of [Topology] *)
(* ===================================================================== *)

Module TopologyFacts.

Import GraphSearch GraphSearchFacts GraphPathFacts Topology.
Local Open Scope nat_scope.
Unset Implicit Arguments.

(** [pt2node] and [node2pt] are inverse of each other, and the nodes they
    hold are allocated. *)
Definition inverse_maps (tp : t) : Prop :=
  (forall v n, map_get v (pt2node tp) = Some n ->
               map_get n (node2pt tp) = Some v /\ n < length (store tp)) /\
  (forall n v, map_get n (node2pt tp) = Some v ->
               map_get v (pt2node tp) = Some n).

(** X27.  [processPoint] keeps the two maps inverse of each other and forgets
    no point; afterwards the point has a node; the result is [null]
    exactly for a blocked point and that node otherwise; and a second
    call for the same point returns the same and changes nothing. *)
Theorem processPoint_keeps_maps_inverse (v : Point) (tp : t) :
  inverse_maps tp ->
  let r := fst (processPoint v tp) in
  let tp' := snd (processPoint v tp) in
  inverse_maps tp' /\
  (forall u n, map_get u (pt2node tp) = Some n ->
               map_get u (pt2node tp') = Some n) /\
  (exists n, map_get v (pt2node tp') = Some n /\
             r = if includes (blocked tp) v then None else Some n) /\
  processPoint v tp' = (r, tp').
Proof.
  intros [Hf Hb]. cbv zeta. unfold processPoint.
  destruct (map_get v (pt2node tp)) as [n |] eqn:Hv.
  - cbn [fst snd]. split; [split; assumption |].
    split; [intros u m H; exact H |].
    split; [exists n; split; [exact Hv | reflexivity] |].
    rewrite Hv. reflexivity.
  - unfold add. cbn [fst snd pt2node node2pt store blocked graph].
    set (n := length (store tp)).
    split; [| split; [| split]].
    + split.
      * intros u m Hu. cbn [pt2node node2pt store] in *.
        rewrite map_get_set in Hu. rewrite map_get_set.
        rewrite length_app. cbn [length].
        destruct (Nat.eqb_spec u v) as [-> | Hne].
        -- injection Hu as <-. rewrite Nat.eqb_refl. split; [reflexivity | lia].
        -- destruct (Hf u m Hu) as [Hm Hlt].
           destruct (Nat.eqb_spec m n) as [-> | _]; [unfold n in Hlt; lia |].
           split; [exact Hm | lia].
      * intros m u Hm. cbn [pt2node node2pt] in *.
        rewrite map_get_set in Hm. rewrite map_get_set.
        destruct (Nat.eqb_spec m n) as [-> | Hne].
        -- injection Hm as <-. rewrite Nat.eqb_refl. reflexivity.
        -- pose proof (Hb m u Hm) as Hu.
           destruct (Nat.eqb_spec u v) as [-> | _]; [congruence | exact Hu].
    + intros u m Hu. cbn [pt2node]. rewrite map_get_set.
      destruct (Nat.eqb_spec u v) as [-> | _]; [congruence | exact Hu].
    + exists n. cbn [pt2node]. split; [apply map_get_set_same | reflexivity].
    + cbn [pt2node blocked]. rewrite map_get_set_same. reflexivity.
Qed.

(** X28.  [buildPath] always returns.  Between points that both have a node,
    and with the two maps inverse of each other, a path it returns lists
    the point [to] first and the point [from] last; when one of the two
    points has no node it returns [null]. *)
Theorem buildPath_runs_from_to
        (tp : t) (from to : Point) (exclude : option (list Node)) :
  inverse_maps tp ->
  buildPath tp from to exclude <> SearchOutOfFuel /\
  (map_get from (pt2node tp) = None \/ map_get to (pt2node tp) = None ->
   buildPath tp from to exclude = NoPath) /\
  (forall pts, buildPath tp from to exclude = Points pts ->
               hd_error pts = Some (Some to) /\
               last pts None = Some from).
Proof.
  intros [Hf Hb]. unfold buildPath.
  destruct (map_get from (pt2node tp)) as [fromNode |] eqn:Hfrom;
    [| split; [discriminate | split; [reflexivity | discriminate]]].
  destruct (map_get to (pt2node tp)) as [toNode |] eqn:Hto;
    [| split; [discriminate | split; [reflexivity | discriminate]]].
  pose proof (aStar_spec (store tp) fromNode toNode
                (match exclude with Some e => e | None => [] end)) as Hspec.
  assert (Hsame : aStar (store tp) fromNode toNode exclude =
                  aStar (store tp) fromNode toNode
                        (Some (match exclude with Some e => e | None => [] end)))
    by (destruct exclude; reflexivity).
  rewrite <- Hsame in Hspec.
  destruct (aStar (store tp) fromNode toNode exclude) as [| | path] eqn:Hrun;
    [contradiction | |].
  - split; [discriminate |]. split; [intros [H | H]; discriminate | discriminate].
  - split; [discriminate |]. split; [intros [H | H]; discriminate |].
    intros pts Hpts. injection Hpts as <-.
    destruct (aStar_path_good (store tp) fromNode toNode _ path
                (eq_sym Hsame)) as (Hhd & Hlast & _).
    destruct path as [| g path]; [discriminate |].
    cbn in Hhd. injection Hhd as ->.
    split.
    + cbn [map hd_error]. rewrite (proj1 (Hf to toNode Hto)). reflexivity.
    + assert (Hl : forall (l : list Node) (d : Node),
                 l <> [] ->
                 last (map (fun n => map_get n (node2pt tp)) l) None =
                 map_get (last l d) (node2pt tp)).
      { induction l as [| a l IHl]; intros d Hne; [contradiction |].
        destruct l as [| b l]; [reflexivity |].
        change (last (a :: b :: l) d) with (last (b :: l) d).
        rewrite <- (IHl d) by discriminate. reflexivity. }
      rewrite (Hl (toNode :: path) toNode) by discriminate.
      rewrite Hlast. apply (proj1 (Hf from fromNode Hfrom)).
Qed.

Definition toy_topology : t :=
  snd (processPoint 8 (snd (processPoint 7 (mkTopology (mkGraph []) [] [] [] [8])))).

Lemma toy_topology_inverse : inverse_maps toy_topology.
Proof.
  split.
  - intros v n H. vm_compute in H.
    destruct v as [| [| [| [| [| [| [| [| [| v]]]]]]]]]; try discriminate;
      injection H as <-; vm_compute; split; (reflexivity || lia).
  - intros n v H. vm_compute in H.
    destruct n as [| [| n]]; try discriminate; injection H as <-; reflexivity.
Qed.

Lemma processPoint_witness :
  let r := fst (processPoint 9 toy_topology) in
  let tp' := snd (processPoint 9 toy_topology) in
  inverse_maps tp' /\
  (forall u n, map_get u (pt2node toy_topology) = Some n ->
               map_get u (pt2node tp') = Some n) /\
  (exists n, map_get 9 (pt2node tp') = Some n /\
             r = if includes (blocked toy_topology) 9 then None else Some n) /\
  processPoint 9 tp' = (r, tp').
Proof.
  apply (processPoint_keeps_maps_inverse 9 toy_topology).
  exact toy_topology_inverse.
Defined.

Lemma buildPath_witness :
  buildPath toy_topology 7 7 None <> SearchOutOfFuel /\
  (map_get 7 (pt2node toy_topology) = None \/
   map_get 7 (pt2node toy_topology) = None ->
   buildPath toy_topology 7 7 None = NoPath) /\
  (forall pts, buildPath toy_topology 7 7 None = Points pts ->
               hd_error pts = Some (Some 7) /\ last pts None = Some 7).
Proof.
  apply (buildPath_runs_from_to toy_topology 7 7 None).
  exact toy_topology_inverse.
Defined.

Set Implicit Arguments.

End TopologyFacts.
